(** * deepdream.py: a shallow embedding and its verified properties

    The development follows [src/deepdream.py].  Python integers are [Z],
    Python floats are real numbers ([R]), tensor and array elements are real
    numbers extended with the special values that IEEE division produces
    ([scalar]); their rounding and overflow are not modelled.  The one float
    computation whose result is truncated to an integer, the new height in
    [load_image], runs on binary64 numbers with their rounding.  Tensors are
    nested lists in the layout of the code (batch, channel, height, width),
    images are nested lists (height, width, channel).  Python exceptions are
    the [Raise] results of the [outcome] type; a collaborator that can raise
    (the decoder, the resizes of OpenCV by a factor and with interpolation,
    [cv.imwrite]) returns an [outcome] or an [option]. *)

From Stdlib Require Import String.
From Stdlib.Strings Require Import Byte.
From Stdlib Require Import List ZArith Reals Lra Lia Bool Permutation DecimalString.
From Stdlib Require Import SpecFloat.
Import ListNotations.

(** ** Exceptions and results *)

Inductive exn : Type :=
| Exception (msg : string)      (* raise Exception(msg) *)
| TypeError (msg : string)
| ZeroDivisionError
| IndexError
| ValueError (msg : string)
| RuntimeError (msg : string)
| OverflowError (msg : string)
| Cv2Error (msg : string).      (* cv2.error, raised by OpenCV *)

Inductive outcome (A : Type) : Type :=
| Ok (a : A)
| Raise (e : exn).

Arguments Ok {A} a.
Arguments Raise {A} e.

Definition bind {A B : Type} (m : outcome A) (k : A -> outcome B) : outcome B :=
  match m with
  | Ok a => k a
  | Raise e => Raise e
  end.

Declare Scope outcome_scope.
Delimit Scope outcome_scope with outcome.
Notation "x <- m ;; k" := (bind m (fun x => k))
  (at level 61, m at next level, right associativity) : outcome_scope.
Notation "' p <- m ;; k" := (bind m (fun p => k))
  (at level 61, p pattern, m at next level, right associativity) : outcome_scope.
Open Scope outcome_scope.

Definition succeeds {A : Type} (m : outcome A) : Prop := exists a, m = Ok a.

Lemma bind_Ok_inv {A B : Type} (m : outcome A) (k : A -> outcome B) (b : B) :
  bind m k = Ok b -> exists a, m = Ok a /\ k a = Ok b.
Proof. destruct m as [a|e]; simpl; intros H; [eauto | discriminate]. Qed.

(** [range(n)] of Python, for an integer [n]: empty when [n <= 0]. *)
Definition range (n : Z) : list Z := map Z.of_nat (seq 0 (Z.to_nat n)).

Lemma length_range (n : Z) : length (range n) = Z.to_nat n.
Proof. unfold range. now rewrite length_map, length_seq. Qed.

(** A loop whose body can raise: the first exception ends it. *)
Fixpoint foldM {A S : Type} (f : S -> A -> outcome S) (l : list A) (s : S) : outcome S :=
  match l with
  | [] => Ok s
  | x :: l' => s' <- f s x ;; foldM f l' s'
  end.

(** ** The image pyramid: [create_image_pyramid]

    The function is written for any image type; [cv_resize img fx fy] stands for
    OpenCV's [cv.resize(img, (0, 0), fx=fx, fy=fy)], an external collaborator
    that returns the resized image or raises ([cv2.error], for a factor or a
    new size that it refuses). *)

Section Pyramid.

Variable Img : Type.
Variable cv_resize : Img -> R -> R -> outcome Img.

(** One pass of the loop body: [img_pyramid.append(cv.resize(img_pyramid[-1], ...))]. *)
Definition pyramid_append (octave_scale : R) (img_pyramid : list Img) (d : Img)
  : outcome (list Img) :=
  resized <- cv_resize (last img_pyramid d) octave_scale octave_scale ;;
  Ok (img_pyramid ++ [resized]).

Definition create_image_pyramid (img : Img) (num_octaves : Z) (octave_scale : R)
  : outcome (list Img) :=
  let img_pyramid := [img] in
  foldM (fun pyr (_ : Z) => pyramid_append octave_scale pyr img)
        (range (num_octaves - 1)) img_pyramid.

(** The loop invariant: the list starts with the input image and every later
    entry is what the resize returned for the entry before it. *)
Definition pyramid_chain (octave_scale : R) (img : Img) (pyr : list Img) : Prop :=
  nth 0 pyr img = img /\
  forall k, S k < length pyr ->
    cv_resize (nth k pyr img) octave_scale octave_scale = Ok (nth (S k) pyr img).

Lemma last_as_nth (l : list Img) (d : Img) : last l d = nth (length l - 1) l d.
Proof.
  induction l as [|x l IH]; [reflexivity|].
  destruct l as [|y l]; [reflexivity|].
  change (last (x :: y :: l) d) with (last (y :: l) d).
  rewrite IH. simpl. now rewrite Nat.sub_0_r.
Qed.

Lemma pyramid_append_chain s img pyr pyr' :
  pyr <> [] -> pyramid_chain s img pyr -> pyramid_append s pyr img = Ok pyr' ->
  length pyr' = S (length pyr) /\ pyramid_chain s img pyr'.
Proof.
  intros Hne [H0 Hk] Happ. unfold pyramid_append in Happ.
  destruct (cv_resize (last pyr img) s s) as [r|e] eqn:Er; [|discriminate].
  simpl in Happ. injection Happ as <-. split.
  { rewrite length_app. simpl. lia. }
  split.
  - destruct pyr; [congruence | exact H0].
  - intros k Hlt. rewrite length_app in Hlt. simpl in Hlt.
    destruct (Nat.lt_ge_cases (S k) (length pyr)) as [Hin|Hout].
    + rewrite !app_nth1 by lia. now apply Hk.
    + assert (Hlen : S k = length pyr) by lia.
      rewrite Hlen, nth_middle, app_nth1 by lia.
      rewrite <- Er, last_as_nth. do 3 f_equal. lia.
Qed.

Lemma pyramid_loop s img (idx : list Z) (pyr out : list Img) :
  pyr <> [] -> pyramid_chain s img pyr ->
  foldM (fun p (_ : Z) => pyramid_append s p img) idx pyr = Ok out ->
  length out = length pyr + length idx /\ pyramid_chain s img out.
Proof.
  revert pyr. induction idx as [|i idx IH]; intros pyr Hne Hch Hrun; simpl in Hrun.
  - injection Hrun as <-. split; [simpl; lia | exact Hch].
  - destruct (pyramid_append s pyr img) as [pyr'|e] eqn:Ea; [|discriminate].
    simpl in Hrun.
    destruct (pyramid_append_chain s img pyr pyr' Hne Hch Ea) as [Hlen' Hch'].
    destruct (IH pyr') as [Hlen Hout]; [|exact Hch'|exact Hrun|].
    + destruct pyr'; [discriminate | discriminate].
    + split; [|exact Hout]. rewrite Hlen, Hlen'. simpl. lia.
Qed.

(** What a returned pyramid looks like. *)
Lemma create_image_pyramid_spec img num_octaves s pyr :
  create_image_pyramid img num_octaves s = Ok pyr ->
  length pyr = S (Z.to_nat (num_octaves - 1)) /\ pyramid_chain s img pyr.
Proof.
  unfold create_image_pyramid. intros Hrun.
  destruct (pyramid_loop s img (range (num_octaves - 1)) [img] pyr) as [Hlen Hch].
  - discriminate.
  - split; [reflexivity | simpl; lia].
  - exact Hrun.
  - rewrite length_range in Hlen. split; [exact Hlen | exact Hch].
Qed.

(** The builder raises only what a resize raised. *)
Lemma pyramid_loop_raise s img (idx : list Z) (pyr : list Img) (e : exn) :
  foldM (fun p (_ : Z) => pyramid_append s p img) idx pyr = Raise e ->
  idx <> [] /\ exists im, cv_resize im s s = Raise e.
Proof.
  revert pyr. induction idx as [|i idx IH]; intros pyr Hrun; simpl in Hrun.
  - discriminate.
  - split; [discriminate|].
    unfold pyramid_append at 1 in Hrun.
    destruct (cv_resize (last pyr img) s s) as [r|e'] eqn:Er; simpl in Hrun.
    + now apply IH in Hrun.
    + injection Hrun as <-. eauto.
Qed.

Lemma create_image_pyramid_raise img num_octaves s e :
  create_image_pyramid img num_octaves s = Raise e ->
  (2 <= num_octaves)%Z /\ exists im, cv_resize im s s = Raise e.
Proof.
  unfold create_image_pyramid. intros Hrun.
  apply pyramid_loop_raise in Hrun. destruct Hrun as [Hne Hex]. split; [|exact Hex].
  destruct (Z.le_gt_cases 2 num_octaves) as [H|H]; [exact H|].
  exfalso. apply Hne. unfold range.
  replace (Z.to_nat (num_octaves - 1)) with 0%nat by lia. reflexivity.
Qed.

(** A resize that always returns makes the builder return. *)
Lemma pyramid_loop_total s img (idx : list Z) (pyr : list Img) :
  (forall im, exists r, cv_resize im s s = Ok r) ->
  exists out, foldM (fun p (_ : Z) => pyramid_append s p img) idx pyr = Ok out.
Proof.
  intros Htot. revert pyr. induction idx as [|i idx IH]; intros pyr; simpl.
  - eauto.
  - unfold pyramid_append at 1.
    destruct (Htot (last pyr img)) as [r Er]. rewrite Er. simpl. apply IH.
Qed.

(** A list that starts with the image and continues with what the resize
    returns, entry after entry, is the pyramid. *)
Lemma pyramid_loop_complete s img (rest : list Img) :
  forall (idx : list Z) (pre : list Img),
    pre <> [] -> length idx = length rest ->
    (forall k, length pre <= S k < length (pre ++ rest) ->
       cv_resize (nth k (pre ++ rest) img) s s = Ok (nth (S k) (pre ++ rest) img)) ->
    foldM (fun p (_ : Z) => pyramid_append s p img) idx pre = Ok (pre ++ rest).
Proof.
  induction rest as [|x rest IH]; intros idx pre Hne Hlen Hch.
  - destruct idx; [|discriminate]. simpl. now rewrite app_nil_r.
  - destruct idx as [|i idx]; [discriminate|]. simpl.
    unfold pyramid_append at 1.
    assert (Hpre : 0 < length pre) by (destruct pre; [congruence | simpl; lia]).
    specialize (Hch (length pre - 1)) as Hx.
    rewrite length_app in Hx. simpl in Hx.
    replace (S (length pre - 1)) with (length pre) in Hx by lia.
    rewrite app_nth1, nth_middle, <- last_as_nth in Hx by lia.
    rewrite Hx by lia. simpl.
    replace (pre ++ x :: rest) with ((pre ++ [x]) ++ rest)
      by (rewrite <- app_assoc; reflexivity).
    apply IH.
    + destruct pre; discriminate.
    + simpl in Hlen. lia.
    + intros k Hk. rewrite <- app_assoc. simpl. apply Hch.
      rewrite length_app in Hk. simpl in Hk.
      rewrite length_app in *. rewrite length_app in Hk. simpl in *. lia.
Qed.

Lemma create_image_pyramid_complete img num_octaves s pyr :
  length pyr = S (Z.to_nat (num_octaves - 1)) -> pyramid_chain s img pyr ->
  create_image_pyramid img num_octaves s = Ok pyr.
Proof.
  intros Hlen [H0 Hch]. unfold create_image_pyramid.
  destruct pyr as [|x rest]; [discriminate|]. simpl in H0. subst x.
  change (img :: rest) with ([img] ++ rest).
  apply pyramid_loop_complete.
  - discriminate.
  - rewrite length_range. simpl in Hlen. lia.
  - intros k Hk. apply Hch. simpl in *. lia.
Qed.

(** The four levels of the driver, when the three resizes return. *)
Lemma create_image_pyramid_four img s l1 l2 l3 :
  cv_resize img s s = Ok l1 -> cv_resize l1 s s = Ok l2 -> cv_resize l2 s s = Ok l3 ->
  create_image_pyramid img 4 s = Ok [img; l1; l2; l3].
Proof.
  intros E1 E2 E3. unfold create_image_pyramid.
  change (range (4 - 1)) with [0; 1; 2]%Z.
  cbn [foldM]. unfold pyramid_append.
  cbn [last]. rewrite E1. cbn [bind app last]. rewrite E2. cbn [bind app last].
  rewrite E3. reflexivity.
Qed.

End Pyramid.

Arguments pyramid_append {Img} cv_resize octave_scale img_pyramid d.
Arguments create_image_pyramid {Img} cv_resize img num_octaves octave_scale.
Arguments pyramid_chain {Img} cv_resize octave_scale img pyr.
Arguments create_image_pyramid_spec {Img} cv_resize img num_octaves s pyr.
Arguments create_image_pyramid_raise {Img} cv_resize img num_octaves s e.
Arguments create_image_pyramid_complete {Img} cv_resize img num_octaves s pyr.
Arguments pyramid_loop_total {Img} cv_resize s img idx pyr.
Arguments create_image_pyramid_four {Img} cv_resize img s l1 l2 l3.

(** ** Scalars: real numbers with the IEEE special values

    A tensor element is a real number, an infinity or NaN.  Arithmetic follows
    IEEE 754 on the special values (NaN is absorbing, [0/0 = NaN],
    [x/0 = +-inf] for [x <> 0]); on finite values it is exact.  Zero carries no
    sign: a zero divisor counts as [+0], which is what the divisors of this
    program (means of absolute values, sums of positive weights) produce. *)

Inductive scalar : Type :=
| Fin (r : R)
| PInf
| NInf
| NaN.

Definition inf (positive : bool) : scalar := if positive then PInf else NInf.

(** An infinity of sign [positive] times (or divided into) the sign of [r]. *)
Definition inf_signed (positive : bool) (r : R) : scalar :=
  if Req_dec_T r 0 then NaN
  else if Rlt_dec 0 r then inf positive else inf (negb positive).

Definition sneg (x : scalar) : scalar :=
  match x with
  | Fin a => Fin (- a)
  | PInf => NInf
  | NInf => PInf
  | NaN => NaN
  end.

Definition sadd (x y : scalar) : scalar :=
  match x, y with
  | NaN, _ | _, NaN => NaN
  | Fin a, Fin b => Fin (a + b)
  | PInf, NInf | NInf, PInf => NaN
  | PInf, _ | _, PInf => PInf
  | NInf, _ | _, NInf => NInf
  end.

Definition ssub (x y : scalar) : scalar := sadd x (sneg y).

Definition smul (x y : scalar) : scalar :=
  match x, y with
  | NaN, _ | _, NaN => NaN
  | Fin a, Fin b => Fin (a * b)
  | Fin a, PInf | PInf, Fin a => inf_signed true a
  | Fin a, NInf | NInf, Fin a => inf_signed false a
  | PInf, PInf | NInf, NInf => PInf
  | PInf, NInf | NInf, PInf => NInf
  end.

Definition sdiv (x y : scalar) : scalar :=
  match x, y with
  | NaN, _ | _, NaN => NaN
  | Fin a, Fin b => if Req_dec_T b 0 then inf_signed true a else Fin (a / b)
  | Fin _, (PInf | NInf) => Fin 0
  | PInf, Fin b => if Rlt_dec b 0 then NInf else PInf
  | NInf, Fin b => if Rlt_dec b 0 then PInf else NInf
  | (PInf | NInf), (PInf | NInf) => NaN
  end.

Definition sabs (x : scalar) : scalar :=
  match x with
  | Fin a => Fin (Rabs a)
  | PInf | NInf => PInf
  | NaN => NaN
  end.

Definition sexp (x : scalar) : scalar :=
  match x with
  | Fin a => Fin (exp a)
  | PInf => PInf
  | NInf => Fin 0
  | NaN => NaN
  end.

(** [torch.min(a, b)] and [torch.max(a, b)] on two tensors propagate NaN. *)
Definition smin (x y : scalar) : scalar :=
  match x, y with
  | NaN, _ | _, NaN => NaN
  | Fin a, Fin b => Fin (Rmin a b)
  | NInf, _ | _, NInf => NInf
  | PInf, z | z, PInf => z
  end.

Definition smax (x y : scalar) : scalar :=
  match x, y with
  | NaN, _ | _, NaN => NaN
  | Fin a, Fin b => Fin (Rmax a b)
  | PInf, _ | _, PInf => PInf
  | NInf, z | z, NInf => z
  end.

Definition is_finite (x : scalar) : Prop :=
  match x with Fin _ => True | _ => False end.

Definition is_nan (x : scalar) : Prop :=
  match x with NaN => True | _ => False end.

(** [lo <= x <= hi] for a scalar: false for NaN and for the infinities. *)
Definition in_range (lo hi : R) (x : scalar) : Prop :=
  match x with
  | Fin r => (lo <= r <= hi)%R
  | _ => False
  end.

(** ** Tensors and arrays as nested lists *)

Abbreviation matrix := (list (list scalar)).    (* height x width *)
Abbreviation tensor3 := (list (list (list scalar))).          (* channel x height x width *)
Abbreviation tensor4 := (list (list (list (list scalar)))).   (* batch x channel x height x width *)
Abbreviation image := (list (list (list scalar))).    (* height x width x channel *)

Definition map2d {A B : Type} (f : A -> B) : list (list A) -> list (list B) :=
  map (map f).
Definition map3d {A B : Type} (f : A -> B) : list (list (list A)) -> list (list (list B)) :=
  map (map2d f).
Definition map4d {A B : Type} (f : A -> B)
  : list (list (list (list A))) -> list (list (list (list B))) :=
  map (map3d f).

(** The elements of a tensor, in storage order. *)
Definition flatten4 {A : Type} (t : list (list (list (list A)))) : list A :=
  concat (concat (concat t)).

(** A tensor object: its values, the accumulated gradient ([None] before the
    first backward pass) and the [requires_grad] flag. *)
Record tensor : Type := mkTensor {
  data : tensor4;
  grad : option tensor4;
  requires_grad : bool
}.

(** ** Spatial jitter: [random_circular_spatial_shift] *)

(** [torch.roll] along one dimension: the element at index [i] moves to index
    [(i + shift) mod n]; elements pushed past the end re-enter at the start. *)
Definition roll {A : Type} (shift : Z) (l : list A) : list A :=
  let n := length l in
  let r := Z.to_nat (shift mod Z.of_nat n) in
  skipn (n - r) l ++ firstn (n - r) l.

(** [torch.roll(t, shifts=(h, w), dims=(2, 3))]: dimension 2, then dimension 3. *)
Definition torch_roll (t : tensor4) (h_shift w_shift : Z) : tensor4 :=
  map (map (fun plane : matrix => map (roll w_shift) (roll h_shift plane))) t.

Definition random_circular_spatial_shift
  (t : tensor) (h_shift w_shift : Z) (should_undo : bool) : tensor :=
  let h_shift := if should_undo then (- h_shift)%Z else h_shift in
  let w_shift := if should_undo then (- w_shift)%Z else w_shift in
  let rolled := torch_roll (data t) h_shift w_shift in
  mkTensor rolled None true.

Lemma length_roll {A : Type} (k : Z) (l : list A) : length (roll k l) = length l.
Proof.
  unfold roll. rewrite length_app, length_skipn, length_firstn. lia.
Qed.

Lemma rotate_back {A : Type} (a b : nat) (l : list A) :
  a + b = length l ->
  skipn b (skipn a l ++ firstn a l) ++ firstn b (skipn a l ++ firstn a l) = l.
Proof.
  intros Hab.
  assert (Hlen : length (skipn a l) = b) by (rewrite length_skipn; lia).
  rewrite skipn_app, firstn_app, Hlen, Nat.sub_diag. simpl.
  rewrite <- Hlen at 1. rewrite skipn_all. rewrite <- Hlen at 1. rewrite firstn_all.
  simpl. rewrite app_nil_r. apply firstn_skipn.
Qed.

Lemma roll_opp_roll {A : Type} (k : Z) (l : list A) : roll (- k) (roll k l) = l.
Proof.
  destruct l as [|x l']; [reflexivity|].
  set (l := x :: l').
  assert (Hpos : (0 < Z.of_nat (length l))%Z) by (simpl; lia).
  unfold roll at 1. rewrite length_roll. unfold roll.
  set (n := length l) in *.
  pose proof (Z.mod_pos_bound k (Z.of_nat n) Hpos) as Hr.
  destruct (Z.eq_dec (k mod Z.of_nat n) 0) as [Hz|Hnz].
  - rewrite Z.mod_opp_l_z by lia. rewrite Hz.
    change (Z.to_nat 0) with 0%nat. rewrite !Nat.sub_0_r.
    assert (Hid : skipn n l ++ firstn n l = l)
      by (unfold n; now rewrite skipn_all, firstn_all).
    now rewrite !Hid.
  - rewrite Z.mod_opp_l_nz by lia.
    apply rotate_back. lia.
Qed.

Lemma roll_map {A B : Type} (f : A -> B) (k : Z) (l : list A) :
  roll k (map f l) = map f (roll k l).
Proof.
  unfold roll. now rewrite length_map, skipn_map, firstn_map, map_app.
Qed.

Lemma torch_roll_undo (t : tensor4) (h w : Z) :
  torch_roll (torch_roll t h w) (- h) (- w) = t.
Proof.
  unfold torch_roll. rewrite map_map.
  rewrite <- (map_id t) at 2. apply map_ext. intros img.
  rewrite map_map. rewrite <- (map_id img) at 2. apply map_ext. intros plane.
  rewrite roll_map, roll_opp_roll, map_map. rewrite <- (map_id plane) at 2.
  apply map_ext. intros row. apply roll_opp_roll.
Qed.

(** C2. Round trip of the jitter: shifting a 4-dimensional tensor cyclically
    by (h_shift, w_shift) along its two spatial dimensions and then calling
    the same function with [should_undo] gives back the values of the
    original tensor, element for element, for every tensor and all offsets. *)
Theorem shift_then_undo_is_identity (t : tensor) (h_shift w_shift : Z) :
  data (random_circular_spatial_shift
          (random_circular_spatial_shift t h_shift w_shift false)
          h_shift w_shift true) = data t.
Proof.
  unfold random_circular_spatial_shift. simpl. apply torch_roll_undo.
Qed.

(** ** Properties of the image pyramid *)

Lemma range_nonpos (n : Z) : (n <= 0)%Z -> range n = [].
Proof.
  intros Hn. unfold range. replace (Z.to_nat n) with 0%nat by lia. reflexivity.
Qed.

(** C10. With [num_octaves <= 1] (zero and negative values included) the
    pyramid builder does not fail, whatever the resize would do: it returns
    the one-element list holding exactly the input image.  In general a
    returned list has [max(num_octaves, 1)] entries, so it is never empty;
    the builder returns when every resize returns, and what it raises
    otherwise is what a resize raised, with [num_octaves >= 2]. *)
Theorem pyramid_of_few_octaves
  (Img : Type) (cv_resize : Img -> R -> R -> outcome Img)
  (img : Img) (num_octaves : Z) (octave_scale : R) :
  ((num_octaves <= 1)%Z ->
     create_image_pyramid cv_resize img num_octaves octave_scale = Ok [img]) /\
  (forall pyr,
     create_image_pyramid cv_resize img num_octaves octave_scale = Ok pyr ->
     Z.of_nat (length pyr) = Z.max num_octaves 1 /\ pyr <> []) /\
  ((forall im, exists r, cv_resize im octave_scale octave_scale = Ok r) ->
     exists pyr, create_image_pyramid cv_resize img num_octaves octave_scale = Ok pyr) /\
  (forall e,
     create_image_pyramid cv_resize img num_octaves octave_scale = Raise e ->
     (2 <= num_octaves)%Z /\ exists im, cv_resize im octave_scale octave_scale = Raise e).
Proof.
  repeat split.
  - intros Hn. unfold create_image_pyramid.
    rewrite range_nonpos by lia. reflexivity.
  - apply create_image_pyramid_spec in H. destruct H as [Hlen _]. rewrite Hlen. lia.
  - apply create_image_pyramid_spec in H. destruct H as [Hlen _].
    intros ->. discriminate.
  - intros Htot. unfold create_image_pyramid. now apply pyramid_loop_total.
  - now apply create_image_pyramid_raise in H.
  - now apply create_image_pyramid_raise in H.
Qed.

(** C6 (corrected).  For [levels >= 1] the builder returns a list exactly
    when that list has [levels] entries, starts with the input image itself
    and continues, entry after entry, with what the resize by the ratio in
    both directions returned for the entry before.  When the resize honours
    OpenCV's size rule (the new height and width are the old ones times the
    factor, rounded), each level's height and width are within half a pixel
    of the previous level's times the ratio.  When a resize raises, the
    builder raises the same exception. *)
Theorem pyramid_levels_scaled
  (Img : Type) (cv_resize : Img -> R -> R -> outcome Img) (height width : Img -> nat)
  (img : Img) (levels : Z) (ratio : R) :
  (1 <= levels)%Z ->
  (forall im r, cv_resize im ratio ratio = Ok r ->
     (Rabs (INR (height r) - ratio * INR (height im)) <= 1 / 2)%R /\
     (Rabs (INR (width r) - ratio * INR (width im)) <= 1 / 2)%R) ->
  (forall pyr,
     create_image_pyramid cv_resize img levels ratio = Ok pyr <->
     (Z.of_nat (length pyr) = levels /\
      nth 0 pyr img = img /\
      forall k, S k < length pyr ->
        cv_resize (nth k pyr img) ratio ratio = Ok (nth (S k) pyr img))) /\
  (forall pyr,
     create_image_pyramid cv_resize img levels ratio = Ok pyr ->
     forall k, S k < length pyr ->
       (Rabs (INR (height (nth (S k) pyr img)) - ratio * INR (height (nth k pyr img))) <= 1 / 2)%R /\
       (Rabs (INR (width (nth (S k) pyr img)) - ratio * INR (width (nth k pyr img))) <= 1 / 2)%R) /\
  (forall e,
     create_image_pyramid cv_resize img levels ratio = Raise e ->
     (2 <= levels)%Z /\ exists im, cv_resize im ratio ratio = Raise e).
Proof.
  intros Hlevels Hsize. split; [|split].
  - intros pyr. split.
    + intros Hrun. apply create_image_pyramid_spec in Hrun.
      destruct Hrun as [Hlen [H0 Hchain]].
      split; [rewrite Hlen; lia|]. split; [exact H0 | exact Hchain].
    + intros [Hlen [H0 Hchain]]. apply create_image_pyramid_complete.
      * lia.
      * split; [exact H0 | exact Hchain].
  - intros pyr Hrun k Hk. apply create_image_pyramid_spec in Hrun.
    destruct Hrun as [_ [_ Hchain]]. apply Hsize, Hchain, Hk.
  - intros e Hrun. now apply create_image_pyramid_raise in Hrun.
Qed.

(** A resize by one half for the examples: every other row and every other
    column are kept, whatever the factors. *)
Fixpoint every_other {A : Type} (l : list A) : list A :=
  match l with
  | [] => []
  | x :: l' => x :: match l' with
                    | [] => []
                    | _ :: l'' => every_other l''
                    end
  end.

Definition halve_image (im : image) (fx fy : R) : image :=
  map every_other (every_other im).

Definition halve_resize (im : image) (fx fy : R) : outcome image :=
  Ok (halve_image im fx fy).

Definition image_height (im : image) : nat := length im.
Definition image_width (im : image) : nat := length (hd [] im).

(** The size rule of [cv.resize(img, (0, 0), fx=fx, fy=fy)] in OpenCV: an
    empty image and a factor that is not positive are refused; the new width
    and height are the old ones times the factor, rounded to the nearest
    integer ([cv_round]; the ties, which OpenCV rounds to the even integer,
    are rounded up here); an empty new size is refused.  Each refusal is a
    failed assertion raised as [cv2.error].  [resize_by_factor] follows the
    rule and fills the new image with the first pixel of the old one. *)
Definition cv_round (r : R) : Z := Int_part (r + 1 / 2).

Definition resize_by_factor (im : image) (fx fy : R) : outcome image :=
  if ((image_width im =? 0) || (image_height im =? 0))%nat then
    Raise (Cv2Error "!ssize.empty()")
  else if Rle_dec fx 0 then Raise (Cv2Error "inv_scale_x > 0")
  else if Rle_dec fy 0 then Raise (Cv2Error "inv_scale_y > 0")
  else
    let w := cv_round (INR (image_width im) * fx) in
    let h := cv_round (INR (image_height im) * fy) in
    if ((w <=? 0) || (h <=? 0))%Z then Raise (Cv2Error "!dsize.empty()")
    else Ok (repeat (repeat (hd [] (hd [] im)) (Z.to_nat w)) (Z.to_nat h)).

Lemma cv_round_below_half (r : R) : (0 <= r < 1 / 2)%R -> cv_round r = 0%Z.
Proof.
  intros Hr. unfold cv_round. symmetry. apply Int_part_spec. simpl. lra.
Qed.

Lemma length_every_other {A : Type} (l : list A) :
  length l <= 2 * length (every_other l) <= length l + 1.
Proof.
  assert (H : forall n (l : list A), length l <= n ->
            length l <= 2 * length (every_other l) <= length l + 1).
  { induction n as [|n IH]; intros [|x [|y l']] Hn; simpl in *; try lia.
    specialize (IH l'). lia. }
  apply (H (length l)). lia.
Qed.

Lemma half_size_within_half (n m : nat) :
  n <= 2 * m <= n + 1 -> (Rabs (INR m - 1 / 2 * INR n) <= 1 / 2)%R.
Proof.
  intros [Hlo Hhi].
  apply le_INR in Hlo. apply le_INR in Hhi.
  rewrite mult_INR in Hlo, Hhi. rewrite plus_INR in Hhi. simpl in Hlo, Hhi.
  apply Rabs_le. lra.
Qed.

Lemma halve_image_size (im : image) :
  (Rabs (INR (image_height (halve_image im (1 / 2) (1 / 2))) - 1 / 2 * INR (image_height im)) <= 1 / 2)%R /\
  (Rabs (INR (image_width (halve_image im (1 / 2) (1 / 2))) - 1 / 2 * INR (image_width im)) <= 1 / 2)%R.
Proof.
  unfold image_height, image_width, halve_image. split.
  - rewrite length_map. apply half_size_within_half, length_every_other.
  - destruct im as [|row im].
    + apply (half_size_within_half 0 0). lia.
    + apply half_size_within_half, length_every_other.
Qed.

Lemma halve_resize_size (im r : image) :
  halve_resize im (1 / 2) (1 / 2) = Ok r ->
  (Rabs (INR (image_height r) - 1 / 2 * INR (image_height im)) <= 1 / 2)%R /\
  (Rabs (INR (image_width r) - 1 / 2 * INR (image_width im)) <= 1 / 2)%R.
Proof.
  unfold halve_resize. intros Hr. injection Hr as <-. apply halve_image_size.
Qed.

Definition gray (v : R) : list scalar := [Fin v; Fin v; Fin v].

Definition sample_image : image :=
  [ [gray 0; gray 1; gray 0; gray 1];
    [gray 1; gray 0; gray 1; gray 0];
    [gray 0; gray 1; gray 0; gray 1];
    [gray 1; gray 0; gray 1; gray 0] ].

(** The three levels of [sample_image] under the halving resize. *)
Definition sample_pyramid : list image :=
  [ sample_image;
    [ [gray 0; gray 0]; [gray 0; gray 0] ];
    [ [gray 0] ] ].

Lemma pyramid_levels_scaled_example :
  (1 <= 3)%Z /\
  create_image_pyramid halve_resize sample_image 3 (1 / 2) = Ok sample_pyramid /\
  forall k, S k < length sample_pyramid ->
    (Rabs (INR (image_height (nth (S k) sample_pyramid sample_image))
           - 1 / 2 * INR (image_height (nth k sample_pyramid sample_image))) <= 1 / 2)%R /\
    (Rabs (INR (image_width (nth (S k) sample_pyramid sample_image))
           - 1 / 2 * INR (image_width (nth k sample_pyramid sample_image))) <= 1 / 2)%R.
Proof.
  split; [lia|].
  destruct (pyramid_levels_scaled image halve_resize image_height image_width
              sample_image 3 (1 / 2)) as [Hiff [Hsize _]].
  - lia.
  - exact halve_resize_size.
  - assert (Hrun : create_image_pyramid halve_resize sample_image 3 (1 / 2) = Ok sample_pyramid).
    { apply Hiff. split; [reflexivity|]. split; [reflexivity|].
      intros [|[|k]] Hk; simpl in Hk; [reflexivity | reflexivity | lia]. }
    split; [exact Hrun | exact (Hsize sample_pyramid Hrun)].
Defined.

(** A pixel, as an image of one row and one column. *)
Definition one_pixel_image : image := [[gray 1]].

(** The claim's levels and ratio do not make the builder return: the second
    level of a one-pixel image at ratio 0.4 would have no row and no column,
    and the resize refuses it. *)
Lemma pyramid_of_tiny_image_fails :
  (1 <= 2)%Z /\ (0 < 0.4 < 1)%R /\
  create_image_pyramid resize_by_factor one_pixel_image 2 0.4
  = Raise (Cv2Error "!dsize.empty()").
Proof.
  split; [lia|]. split; [lra|].
  unfold create_image_pyramid. change (range (2 - 1)) with [0%Z].
  cbn [foldM]. unfold pyramid_append. cbn [last one_pixel_image].
  unfold resize_by_factor.
  change (image_width one_pixel_image) with 1.
  change (image_height one_pixel_image) with 1.
  cbn [Nat.eqb orb].
  destruct (Rle_dec 0.4 0) as [H|_]; [lra|].
  rewrite (cv_round_below_half (INR 1 * 0.4)) by (simpl; lra).
  reflexivity.
Qed.

(** ** Image loading: [load_image]

    [os.path.exists], [cv.imread] and [cv.resize(..., interpolation=INTER_CUBIC)]
    are external collaborators.  [cv.imread] returns an 8-bit image in BGR
    channel order, or [None] for a file that it cannot read or decode;
    [cv.resize] on an 8-bit image returns an 8-bit image, or raises
    [cv2.error] for a size that it refuses. *)

Abbreviation image_u8 := (list (list (list byte))).   (* height x width x channel *)

(** The optional [target_shape] argument: absent, one integer, or a
    (height, width) pair. *)
Inductive target_shape : Type :=
| ShapeNone
| ShapeInt (n : Z)
| ShapePair (h w : Z).

(** [img[:, :, ::-1]]: the channel axis reversed. *)
Definition reverse_channels {A : Type} (img : list (list (list A))) : list (list (list A)) :=
  map (map (@rev A)) img.

(** [img.shape[:2]]. *)
Definition shape2 {A : Type} (img : list (list A)) : Z * Z :=
  (Z.of_nat (length img), Z.of_nat (length (hd [] img))).

(** [img.astype(np.float32)] followed by [img /= 255.0]. *)
Definition byte_to_unit (b : byte) : scalar :=
  sdiv (Fin (IZR (Z.of_N (Byte.to_N b)))) (Fin 255).

Definition astype_float_div255 (img : image_u8) : image := map3d byte_to_unit img.

(** *** The arithmetic of the new height

    [int(current_height * (new_width / current_width))] runs on Python's
    floats: binary64 numbers, here the [spec_float] of the Standard Library
    with its rounding to the nearest, ties to even. *)

Definition float_prec : Z := 53.
Definition float_emax : Z := 1024.

(** An integer as the number it is. *)
Definition exact_int (z : Z) : spec_float :=
  match z with
  | Z0 => S754_zero false
  | Zpos m => S754_finite false m 0
  | Zneg m => S754_finite true m 0
  end.

(** The conversion of an int operand of a float operation: rounded, and
    refused when no finite float is near. *)
Definition float_of_int (z : Z) : outcome spec_float :=
  match binary_normalize float_prec float_emax z 0 false with
  | S754_infinity _ => Raise (OverflowError "int too large to convert to float")
  | f => Ok f
  end.

(** [a / b] of two ints: the quotient of the integers, rounded once. *)
Definition int_true_divide (a b : Z) : outcome spec_float :=
  if (b =? 0)%Z then Raise ZeroDivisionError
  else
    match SFdiv float_prec float_emax (exact_int a) (exact_int b) with
    | S754_infinity _ =>
        Raise (OverflowError "integer division result too large for a float")
    | f => Ok f
    end.

(** [int(x)] of a float: the truncation towards zero. *)
Definition int_of_float (x : spec_float) : outcome Z :=
  match x with
  | S754_zero _ => Ok 0%Z
  | S754_infinity _ => Raise (OverflowError "cannot convert float infinity to integer")
  | S754_nan => Raise (ValueError "cannot convert float NaN to integer")
  | S754_finite s m e =>
      let magnitude := Z.shiftl (Zpos m) e in
      Ok (if s then (- magnitude)%Z else magnitude)
  end.

(** [int(current_height * (new_width / current_width))]: the division is
    evaluated first, then the int [current_height] is converted and
    multiplied. *)
Definition new_height_of (current_height new_width current_width : Z) : outcome Z :=
  ratio <- int_true_divide new_width current_width ;;
  height <- float_of_int current_height ;;
  int_of_float (SFmul float_prec float_emax height ratio).

Section LoadImage.

Variable os_path_exists : string -> bool.
Variable cv_imread : string -> option image_u8.
(** [cv_resize_cubic img w h] is [cv.resize(img, (w, h), interpolation=cv.INTER_CUBIC)]. *)
Variable cv_resize_cubic : image_u8 -> Z -> Z -> outcome image_u8.

(** The resize section of [load_image]. *)
Definition resize_section (img : image_u8) (ts : target_shape) : outcome image_u8 :=
  match ts with
  | ShapeNone => Ok img
  | ShapeInt n =>
      if (n =? -1)%Z then
        (* the [else] branch subscripts the integer: target_shape[1] *)
        Raise (TypeError "'int' object is not subscriptable")
      else
        let '(current_height, current_width) := shape2 img in
        let new_width := n in
        new_height <- new_height_of current_height new_width current_width ;;
        cv_resize_cubic img new_width new_height
  | ShapePair h w => cv_resize_cubic img w h
  end.

Definition load_image (img_path : string) (ts : target_shape) : outcome image :=
  if negb (os_path_exists img_path) then
    Raise (Exception ("Path does not exist: " ++ img_path))
  else
    match cv_imread img_path with
    | None =>
        (* None[:, :, ::-1] *)
        Raise (TypeError "'NoneType' object is not subscriptable")
    | Some decoded =>
        let img := reverse_channels decoded in
        img <- resize_section img ts ;;
        Ok (astype_float_div255 img)
    end.

End LoadImage.

Definition all_pixels (P : scalar -> Prop) (img : image) : Prop :=
  Forall (Forall (Forall P)) img.






(** The float arithmetic on a portrait image of 15 rows and 3 columns and the
    width 49: the product is just below 245. *)
Lemma new_height_of_portrait : new_height_of 15 49 3 = Ok 244%Z.
Proof. vm_compute. reflexivity. Qed.



(** ** List and tensor helpers *)

Fixpoint zip_with {A B C : Type} (f : A -> B -> C) (l1 : list A) (l2 : list B) : list C :=
  match l1, l2 with
  | x :: l1', y :: l2' => f x y :: zip_with f l1' l2'
  | _, _ => []
  end.

Fixpoint mapM {A B : Type} (f : A -> outcome B) (l : list A) : outcome (list B) :=
  match l with
  | [] => Ok []
  | x :: l' => y <- f x ;; ys <- mapM f l' ;; Ok (y :: ys)
  end.

(** [l[i] = v] on a list, in place. *)
Fixpoint list_update {A : Type} (i : nat) (v : A) (l : list A) : list A :=
  match l, i with
  | [], _ => []
  | _ :: l', O => v :: l'
  | x :: l', S i' => x :: list_update i' v l'
  end.

(** [torch.sum]: the sum of all elements. *)
Definition ssum (l : list scalar) : scalar := fold_right sadd (Fin 0) l.

Definition sum2d (m : matrix) : scalar := ssum (concat m).

(** [torch.mean(torch.abs(t))] of a 4-dimensional tensor: an empty tensor
    gives [0/0]. *)
Definition mean_abs (t : tensor4) : scalar :=
  sdiv (ssum (map sabs (flatten4 t))) (Fin (INR (length (flatten4 t)))).

(** Element-wise operations of two arrays of one shape. *)
Definition mul2d (a b : matrix) : matrix := zip_with (zip_with smul) a b.
Definition add4d (a b : tensor4) : tensor4 :=
  zip_with (zip_with (zip_with (zip_with sadd))) a b.

(** ** The gradient smoothing filter: [GaussianSmoothing] *)

(** The value of the Python variable [kernel]: the integer it starts as, or
    a reference to a tensor object on the heap. *)
Inductive pyval : Type :=
| PyInt (n : Z)
| TensorRef (addr : nat).

Abbreviation heap := (list (list (list scalar))).

(** [torch.meshgrid([torch.arange(k0), torch.arange(k1)])]. *)
Definition meshgrid (k0 k1 : nat) : list matrix :=
  [ map (fun i => map (fun _ => Fin (INR i)) (seq 0 k1)) (seq 0 k0);
    map (fun _ => map (fun j => Fin (INR j)) (seq 0 k1)) (seq 0 k0) ].

(** [-((x - mean) / std) ** 2 / 2] on one element. *)
Definition gauss_exponent (mean std : R) (x : scalar) : scalar :=
  let q := sdiv (ssub x (Fin mean)) (Fin std) in
  sdiv (sneg (smul q q)) (Fin 2).

(** [1 / (std * math.sqrt(2 * math.pi)) * torch.exp(-((mgrid - mean) / std) ** 2 / 2)];
    the division of Python floats raises on a zero divisor. *)
Definition gauss_factor (size : nat) (std : R) (mgrid : matrix) : outcome matrix :=
  let mean := ((INR size - 1) / 2)%R in
  if Req_dec_T (std * sqrt (2 * PI)) 0 then Raise ZeroDivisionError
  else
    let coef := (1 / (std * sqrt (2 * PI)))%R in
    Ok (map2d (fun x => smul (Fin coef) (sexp (gauss_exponent mean std x))) mgrid).

(** [kernel *= factor]: an integer is replaced by a new tensor; a tensor is
    multiplied in place, so every reference to it sees the product. *)
Definition imul (h : heap) (kernel : pyval) (factor : matrix) : heap * pyval :=
  match kernel with
  | PyInt n => (h ++ [map2d (smul (Fin (IZR n))) factor], TensorRef (length h))
  | TensorRef a => (list_update a (mul2d (nth a h []) factor) h, kernel)
  end.

(** The state of the kernel loops: the heap, [kernel] and the list [kernels]. *)
Definition kernel_state : Type := heap * pyval * list pyval.

(** The body of the inner loop over [zip(kernel_size, sigma, meshgrids)]. *)
Definition kernel_step (st : kernel_state) (dim : nat * R * matrix) : outcome kernel_state :=
  let '(h, kernel, kernels) := st in
  let '(size, std, mgrid) := dim in
  factor <- gauss_factor size std mgrid ;;
  let '(h, kernel) := imul h kernel factor in
  Ok (h, kernel, kernels ++ [kernel]).

(** The body of the outer loop [for s in sigmas]. *)
Definition sigma_step (kernel_size : list nat) (meshgrids : list matrix)
  (st : kernel_state) (s : R) : outcome kernel_state :=
  let sigma := [s; s] in
  foldM kernel_step (combine (combine kernel_size sigma) meshgrids) st.

(** [kernel / torch.sum(kernel)], then viewed as [1 x 1 x k x k] and repeated
    over the channels. *)
Definition normalize_kernel (kernel : matrix) : matrix :=
  map2d (fun x => sdiv x (sum2d kernel)) kernel.

Definition prepare_kernel (channels : nat) (h : heap) (kernel : pyval) : tensor4 :=
  match kernel with
  | TensorRef a => repeat [normalize_kernel (nth a h [])] channels
  | PyInt _ => []
  end.

Record GaussianSmoothing : Type := mkGaussianSmoothing {
  pad : nat;
  weight1 : tensor4;
  weight2 : tensor4;
  weight3 : tensor4;
  groups : nat
}.

(** [GaussianSmoothing.__init__(channels, kernel_size, sigma)]. *)
Definition GaussianSmoothing_init (channels kernel_size : nat) (sigma : R)
  : outcome GaussianSmoothing :=
  let pad := Nat.div kernel_size 2 in
  let kernel_size := [kernel_size; kernel_size] in
  let sigmas := [0.5 * sigma; 1.0 * sigma; 2.0 * sigma]%R in
  let kernel := PyInt 1 in
  let meshgrids := meshgrid (nth 0 kernel_size 0) (nth 1 kernel_size 0) in
  let kernels : list pyval := [] in
  '(h, _, kernels) <- foldM (sigma_step kernel_size meshgrids) sigmas ([], kernel, kernels) ;;
  let prepared_kernels := map (prepare_kernel channels h) kernels in
  Ok (mkGaussianSmoothing pad
        (nth 0 prepared_kernels [])
        (nth 1 prepared_kernels [])
        (nth 2 prepared_kernels [])
        channels).

(** [F.pad(., (p, p), mode='reflect')] along one dimension. *)
Definition reflect_pad1 {A : Type} (p : nat) (l : list A) : outcome (list A) :=
  if p <? length l then
    Ok (rev (firstn p (tl l)) ++ l ++ firstn p (tl (rev l)))
  else
    Raise (RuntimeError "Padding size should be less than the corresponding input dimension").

(** [F.pad(input, (p, p, p, p), mode='reflect')] on the two spatial dimensions. *)
Definition reflect_pad_plane (p : nat) (x : matrix) : outcome matrix :=
  rows <- mapM (reflect_pad1 p) x ;;
  reflect_pad1 p rows.

Definition reflect_pad (p : nat) (input : tensor4) : outcome tensor4 :=
  mapM (mapM (reflect_pad_plane p)) input.

(** The window of [x] under the kernel when its corner is at [(i, j)]. *)
Definition window (x : matrix) (i j kh kw : nat) : matrix :=
  map (fun row => firstn kw (skipn j row)) (firstn kh (skipn i x)).

Definition dot2d (w xw : matrix) : scalar := sum2d (mul2d w xw).

(** Cross-correlation of one plane with one kernel, no padding, stride 1. *)
Definition conv_plane (w x : matrix) : outcome matrix :=
  let kh := length w in
  let kw := length (hd [] w) in
  let H := length x in
  let W := length (hd [] x) in
  if (H <? kh) || (W <? kw) then
    Raise (RuntimeError "Kernel size can't be greater than actual input size")
  else
    Ok (map (fun i => map (fun j => dot2d w (window x i j kh kw)) (seq 0 (W + 1 - kw)))
            (seq 0 (H + 1 - kh))).

(** [F.conv2d(input, weight=weight, groups=groups)] for a depthwise weight of
    shape [groups x 1 x k x k]: channel [c] is filtered with [weight[c][0]]. *)
Definition conv2d (input weight : tensor4) (groups : nat) : outcome tensor4 :=
  mapM (fun img : tensor3 =>
          if length img =? groups then
            mapM (fun wx : tensor3 * matrix => conv_plane (hd [] (fst wx)) (snd wx))
                 (combine weight img)
          else
            Raise (RuntimeError "expected input to have as many channels as groups"))
       input.

(** [GaussianSmoothing.forward(input)]. *)
Definition GaussianSmoothing_forward (self : GaussianSmoothing) (input : tensor4)
  : outcome tensor4 :=
  input <- reflect_pad (pad self) input ;;
  grad1 <- conv2d input (weight1 self) (groups self) ;;
  grad2 <- conv2d input (weight2 self) (groups self) ;;
  grad3 <- conv2d input (weight3 self) (groups self) ;;
  Ok (add4d (add4d grad1 grad2) grad3).

(** ** The gradient ascent step: [gradient_ascent] *)

(** The network is an external collaborator: [inception4c net x] is the
    activation [backbone_network(x).inception4c], and [backprop net x c] is
    what backpropagation through the network at input [x] returns for the
    gradient [c] of the loss with respect to that activation. *)
Record network : Type := mkNetwork {
  inception4c : tensor4 -> tensor4;
  backprop : tensor4 -> tensor4 -> tensor4
}.

Definition IMAGENET_MEAN_1 : list R := [0.485; 0.456; 0.406]%R.
Definition IMAGENET_STD_1 : list R := [0.229; 0.224; 0.225]%R.

(** [(-IMAGENET_MEAN_1 / IMAGENET_STD_1)] and [((1 - IMAGENET_MEAN_1) / IMAGENET_STD_1)],
    one value per channel (the code reshapes them to [1 x 3 x 1 x 1]). *)
Definition lower_bound : list scalar :=
  zip_with (fun m s => sdiv (sneg (Fin m)) (Fin s)) IMAGENET_MEAN_1 IMAGENET_STD_1.
Definition upper_bound : list scalar :=
  zip_with (fun m s => sdiv (ssub (Fin 1) (Fin m)) (Fin s)) IMAGENET_MEAN_1 IMAGENET_STD_1.

Definition KERNEL_SIZE : nat := 9.

Definition zeros_like4 (t : tensor4) : tensor4 := map4d (fun _ => Fin 0) t.

(** [torch.nn.MSELoss(reduction='sum')(a, b)]. *)
Definition mse_loss_sum (a b : tensor4) : scalar :=
  ssum (zip_with (fun x y => smul (ssub x y) (ssub x y)) (flatten4 a) (flatten4 b)).

(** The loss of the step, [MSELoss(reduction='sum')(layer, zeros_like(layer)) / 2]. *)
Definition ascent_loss (layer : tensor4) : scalar :=
  sdiv (mse_loss_sum layer (zeros_like4 layer)) (Fin 2).

(** The gradient of [ascent_loss] with respect to the activation: the
    derivative of [sum((a - 0)^2) / 2] in each [a] is [a] itself. *)
Definition ascent_loss_gradient (layer : tensor4) : tensor4 := layer.

(** [loss.backward()]: the gradient of the loss in [img] is added to
    [img.grad]; a tensor that does not require a gradient makes it raise. *)
Definition loss_backward (net : network) (img : tensor) : outcome tensor :=
  if requires_grad img then
    let layer := inception4c net (data img) in
    let g := backprop net (data img) (ascent_loss_gradient layer) in
    let accumulated := match grad img with
                       | None => g
                       | Some g0 => add4d g0 g
                       end in
    Ok (mkTensor (data img) (Some accumulated) (requires_grad img))
  else
    Raise (RuntimeError "element 0 of tensors does not require grad and does not have a grad_fn").

(** [sigma = ((cnt + 1) / 10) * 2.0 + .5]. *)
Definition ascent_sigma (cnt : Z) : R := ((IZR cnt + 1) / 10 * 2.0 + 0.5)%R.

(** [GaussianSmoothing(3, KERNEL_SIZE, sigma)(grad)]. *)
Definition smooth (cnt : Z) (g : tensor4) : outcome tensor4 :=
  gs <- GaussianSmoothing_init 3 KERNEL_SIZE (ascent_sigma cnt) ;;
  GaussianSmoothing_forward gs g.

(** Element-wise combination of two tensors that must have one shape, as the
    in-place [+=] requires. *)
Fixpoint zip_strict {A B C : Type} (e : exn) (f : A -> B -> outcome C)
  (l1 : list A) (l2 : list B) : outcome (list C) :=
  match l1, l2 with
  | [], [] => Ok []
  | x :: l1', y :: l2' => z <- f x y ;; zs <- zip_strict e f l1' l2' ;; Ok (z :: zs)
  | _, _ => Raise e
  end.

Definition size_mismatch : exn :=
  RuntimeError "The size of tensor a must match the size of tensor b".

Definition zip4_strict (f : scalar -> scalar -> scalar) (a b : tensor4) : outcome tensor4 :=
  zip_strict size_mismatch (zip_strict size_mismatch (zip_strict size_mismatch
    (zip_strict size_mismatch (fun x y => Ok (f x y))))) a b.

(** [smooth_grad / g_mean]: every element divided by the mean. *)
Definition tensor_div (t : tensor4) (d : scalar) : tensor4 :=
  map4d (fun x => sdiv x d) t.

(** [lr * t] for a Python float [lr]. *)
Definition tensor_scale (lr : R) (t : tensor4) : tensor4 :=
  map4d (fun x => smul (Fin lr) x) t.

(** [op(img, bound)] for a bound of shape [1 x 3 x 1 x 1], with the
    broadcasting of the channel dimension. *)
Definition with_channel_bound (op : scalar -> scalar -> scalar) (bound : list scalar)
  (t : tensor4) : outcome tensor4 :=
  mapM (fun img : tensor3 =>
          if length img =? length bound then
            Ok (zip_with (fun plane b => map2d (fun x => op x b) plane) img bound)
          else if length img =? 1 then
            Ok (map (fun b => map2d (fun x => op x b) (hd [] img)) bound)
          else
            Raise (RuntimeError "The size of tensor a must match the size of tensor b"))
       t.

(** [torch.max(torch.min(img, upper_bound), lower_bound)]. *)
Definition clamp_to_bounds (t : tensor4) : outcome tensor4 :=
  capped <- with_channel_bound smin upper_bound t ;;
  with_channel_bound smax lower_bound capped.

(** [gradient_ascent(backbone_network, img, lr, cnt)].  The function mutates
    [img] and returns nothing: the result is [tt] with the new state of [img]. *)
Definition gradient_ascent (net : network) (img : tensor) (lr : R) (cnt : Z)
  : outcome (unit * tensor) :=
  let layer := inception4c net (data img) in
  let loss := ascent_loss layer in
  img <- loss_backward net img ;;
  let g := match grad img with Some g => g | None => [] end in
  smooth_grad <- smooth cnt g ;;
  let g_mean := mean_abs smooth_grad in
  new_data <- zip4_strict sadd (data img) (tensor_scale lr (tensor_div smooth_grad g_mean)) ;;
  let img := mkTensor new_data (grad img) (requires_grad img) in
  let img := mkTensor (data img) (option_map zeros_like4 (grad img)) (requires_grad img) in
  clamped <- clamp_to_bounds (data img) ;;
  Ok (tt, mkTensor clamped (grad img) (requires_grad img)).

(** ** Finite tensors and sums *)

Definition rsum (l : list R) : R := fold_right Rplus 0%R l.

Lemma ssum_Fin (l : list R) : ssum (map Fin l) = Fin (rsum l).
Proof.
  induction l as [|r l IH]; [reflexivity|].
  change (ssum (map Fin (r :: l))) with (sadd (Fin r) (ssum (map Fin l))).
  now rewrite IH.
Qed.

Lemma finite_list_of_reals (l : list scalar) :
  Forall is_finite l -> exists rl, l = map Fin rl.
Proof.
  induction 1 as [|x l Hx _ [rl IH]].
  - now exists [].
  - destruct x as [r| | |]; try contradiction. exists (r :: rl). now rewrite IH.
Qed.

Lemma sadd_Fin_inv (x y : scalar) (r : R) :
  sadd x y = Fin r -> exists a b, x = Fin a /\ y = Fin b.
Proof. destruct x, y; simpl; intros H; try discriminate; eauto. Qed.

Lemma sabs_Fin_inv (x : scalar) (r : R) : sabs x = Fin r -> is_finite x.
Proof. destruct x; simpl; intros H; try discriminate; exact I. Qed.

Lemma ssum_abs_Fin_inv (l : list scalar) (r : R) :
  ssum (map sabs l) = Fin r -> Forall is_finite l.
Proof.
  revert r. induction l as [|x l IH]; intros r H; [constructor|].
  change (sadd (sabs x) (ssum (map sabs l)) = Fin r) in H. apply sadd_Fin_inv in H. destruct H as [a [b [Ha Hb]]].
  constructor; [now apply sabs_Fin_inv with a | now apply IH with b].
Qed.

Lemma sdiv_Fin_inv (x : scalar) (d r : R) :
  sdiv x (Fin d) = Fin r -> exists a, x = Fin a /\ d <> 0%R /\ r = (a / d)%R.
Proof.
  destruct x as [a| | |]; simpl; intros H; try discriminate.
  - destruct (Req_dec_T d 0) as [E|N].
    + unfold inf_signed in H. destruct (Req_dec_T a 0); [discriminate|].
      destruct (Rlt_dec 0 a); discriminate.
    + injection H as <-. eauto.
  - destruct (Rlt_dec d 0); discriminate.
  - destruct (Rlt_dec d 0); discriminate.
Qed.

Lemma sdiv_Fin (a d : R) : d <> 0%R -> sdiv (Fin a) (Fin d) = Fin (a / d).
Proof. intros Hd. simpl. destruct (Req_dec_T d 0); [contradiction | reflexivity]. Qed.

Lemma sdiv_zero_zero : sdiv (Fin 0) (Fin 0) = NaN.
Proof.
  simpl. destruct (Req_dec_T 0 0) as [_|N]; [|contradiction].
  unfold inf_signed. destruct (Req_dec_T 0 0); [reflexivity | contradiction].
Qed.

Lemma flatten4_map4d {A B : Type} (f : A -> B) (t : list (list (list (list A)))) :
  flatten4 (map4d f t) = map f (flatten4 t).
Proof.
  unfold flatten4, map4d, map3d, map2d.
  now rewrite <- !concat_map.
Qed.

Lemma rsum_abs_nonneg (l : list R) : (0 <= rsum (map Rabs l))%R.
Proof.
  induction l as [|r l IH]; simpl; [lra|].
  pose proof (Rabs_pos r). lra.
Qed.

Lemma rsum_abs_zero (l : list R) :
  rsum (map Rabs l) = 0%R -> Forall (fun r => r = 0%R) l.
Proof.
  induction l as [|r l IH]; simpl; intros H; [constructor|].
  pose proof (Rabs_pos r) as Hr. pose proof (rsum_abs_nonneg l) as Hl.
  constructor.
  - destruct (Req_dec_T r 0) as [E|N]; [exact E|].
    apply Rabs_pos_lt in N. lra.
  - apply IH. lra.
Qed.

Lemma rsum_abs_div (m : R) (l : list R) :
  (0 < m)%R ->
  rsum (map Rabs (map (fun r => (r / m)%R) l)) = (rsum (map Rabs l) / m)%R.
Proof.
  intros Hm. induction l as [|r l IH]; simpl; [lra|].
  rewrite IH. unfold Rdiv at 1. rewrite Rabs_mult, (Rabs_pos_eq (/ m)).
  - lra.
  - left. now apply Rinv_0_lt_compat.
Qed.

(** What [mean_abs] computes on a tensor of finite values. *)
Lemma mean_abs_Fin_inv (t : tensor4) (m : R) :
  mean_abs t = Fin m ->
  exists rl, flatten4 t = map Fin rl /\ rl <> [] /\
             m = (rsum (map Rabs rl) / INR (length rl))%R.
Proof.
  unfold mean_abs. intros H.
  apply sdiv_Fin_inv in H. destruct H as [a [Ha [Hn Hm]]].
  destruct (finite_list_of_reals (flatten4 t)) as [rl Hrl].
  { now apply ssum_abs_Fin_inv with a. }
  exists rl. rewrite Hrl in *. rewrite length_map in *.
  rewrite map_map in Ha. change (fun x => sabs (Fin x)) with (fun x => Fin (Rabs x)) in Ha.
  rewrite <- map_map, ssum_Fin in Ha. injection Ha as <-.
  repeat split; [|exact Hm].
  intros ->. now apply Hn.
Qed.

(** C4. Gradient normalization.  When the mean absolute value of a gradient
    tensor is a non-zero number, dividing the tensor by that mean gives a
    tensor whose mean absolute value is exactly 1.  When the mean is exactly
    zero the division is [0/0] in every element: the normalized gradient is
    NaN throughout and so is its mean absolute value. *)
Theorem normalized_gradient_mean (s : tensor4) :
  (forall m, mean_abs s = Fin m -> m <> 0%R ->
     mean_abs (tensor_div s (mean_abs s)) = Fin 1) /\
  (mean_abs s = Fin 0 ->
     (forall x, In x (flatten4 (tensor_div s (mean_abs s))) -> x = NaN) /\
     mean_abs (tensor_div s (mean_abs s)) = NaN).
Proof.
  split.
  - intros m Hmean Hm0. rewrite Hmean.
    destruct (mean_abs_Fin_inv s _ Hmean) as [rl [Hrl [Hne Hm]]].
    assert (Hlen : (0 < INR (length rl))%R).
    { apply lt_0_INR. destruct rl; [congruence | simpl; lia]. }
    assert (Hpos : (0 < m)%R).
    { pose proof (rsum_abs_nonneg rl) as Hs.
      assert (0 <= m)%R by (subst m; apply Rmult_le_pos; [exact Hs | left; now apply Rinv_0_lt_compat]).
      lra. }
    unfold mean_abs, tensor_div. rewrite flatten4_map4d, Hrl, !map_map.
    rewrite (map_ext (fun x => sabs (sdiv (Fin x) (Fin m))) (fun x => Fin (Rabs (x / m)%R))).
    2:{ intros r. rewrite sdiv_Fin by lra. reflexivity. }
    rewrite length_map.
    rewrite <- (map_map (fun x => Rabs (x / m)%R) Fin), ssum_Fin.
    rewrite <- (map_map (fun r => (r / m)%R) Rabs), rsum_abs_div by exact Hpos.
    rewrite sdiv_Fin by lra. f_equal.
    assert (Hsum : rsum (map Rabs rl) = (m * INR (length rl))%R).
    { rewrite Hm. field. lra. }
    rewrite Hsum. field. split; lra.
  - intros Hmean. rewrite Hmean.
    destruct (mean_abs_Fin_inv s _ Hmean) as [rl [Hrl [Hne Hm]]].
    assert (Hlen : (0 < INR (length rl))%R).
    { apply lt_0_INR. destruct rl; [congruence | simpl; lia]. }
    assert (Hzero : Forall (fun r => r = 0%R) rl).
    { apply rsum_abs_zero.
      assert (rsum (map Rabs rl) = 0 * INR (length rl))%R as ->; [|lra].
      rewrite Hm. field. lra. }
    assert (Hnan : map (fun x => sdiv x (Fin 0)) (map Fin rl) = map (fun _ => NaN) rl).
    { rewrite map_map. apply map_ext_in. intros r Hr.
      rewrite Forall_forall in Hzero. rewrite (Hzero r Hr). apply sdiv_zero_zero. }
    unfold mean_abs, tensor_div. rewrite flatten4_map4d, Hrl, Hnan. split.
    + intros x Hx. apply in_map_iff in Hx. now destruct Hx as [_ [<- _]].
    + destruct rl as [|r rl']; [congruence|]. reflexivity.
Qed.

(** ** Elements of the results of the list combinators *)

(** The element at batch [n], channel [c], row [h], column [w]. *)
Definition tensor_at (t : tensor4) (n c h w : nat) : option scalar :=
  match nth_error t n with
  | Some img =>
      match nth_error img c with
      | Some plane =>
          match nth_error plane h with
          | Some row => nth_error row w
          | None => None
          end
      | None => None
      end
  | None => None
  end.

Lemma tensor_at_In (t : tensor4) (n c h w : nat) (x : scalar) :
  tensor_at t n c h w = Some x -> In x (flatten4 t).
Proof.
  unfold tensor_at, flatten4. intros H.
  destruct (nth_error t n) as [img|] eqn:Hn; [|discriminate].
  destruct (nth_error img c) as [plane|] eqn:Hc; [|discriminate].
  destruct (nth_error plane h) as [row|] eqn:Hh; [|discriminate].
  apply nth_error_In in Hn, Hc, Hh, H.
  apply in_concat. exists row. split; [|exact H].
  apply in_concat. exists plane. split; [|exact Hh].
  apply in_concat. exists img. split; assumption.
Qed.

Lemma In_flatten4 {A : Type} (t : list (list (list (list A)))) (x : A) :
  In x (flatten4 t) <->
  exists img plane row, In img t /\ In plane img /\ In row plane /\ In x row.
Proof.
  unfold flatten4. split.
  - intros H. apply in_concat in H. destruct H as [row [H Hx]].
    apply in_concat in H. destruct H as [plane [H Hrow]].
    apply in_concat in H. destruct H as [img [Himg Hplane]].
    exists img, plane, row. auto.
  - intros [img [plane [row [Hi [Hp [Hr Hx]]]]]].
    apply in_concat. exists row. split; [|exact Hx].
    apply in_concat. exists plane. split; [|exact Hr].
    apply in_concat. exists img. split; assumption.
Qed.

Lemma mapM_Ok_inv {A B : Type} (f : A -> outcome B) (l : list A) (l' : list B) :
  mapM f l = Ok l' -> Forall2 (fun x y => f x = Ok y) l l'.
Proof.
  revert l'. induction l as [|x l IH]; simpl; intros l' H.
  - injection H as <-. constructor.
  - apply bind_Ok_inv in H. destruct H as [y [Hy H]].
    apply bind_Ok_inv in H. destruct H as [ys [Hys H]].
    injection H as <-. constructor; [exact Hy | now apply IH].
Qed.

Lemma zip_strict_Ok_inv {A B C : Type} (e : exn) (f : A -> B -> outcome C)
  (l1 : list A) (l2 : list B) (l : list C) :
  zip_strict e f l1 l2 = Ok l ->
  length l1 = length l /\ length l2 = length l /\
  forall z, In z l -> exists x y, In x l1 /\ In y l2 /\ f x y = Ok z.
Proof.
  revert l2 l. induction l1 as [|x l1 IH]; intros [|y l2] l H; simpl in H; try discriminate.
  - injection H as <-. repeat split; intros z [].
  - apply bind_Ok_inv in H. destruct H as [z0 [Hz0 H]].
    apply bind_Ok_inv in H. destruct H as [zs [Hzs H]].
    injection H as <-. destruct (IH _ _ Hzs) as [L1 [L2 Hin]].
    simpl. repeat split; try lia.
    intros z [<-|Hz].
    + exists x, y. auto.
    + destruct (Hin z Hz) as [x' [y' [Hx [Hy Hf]]]]. exists x', y'. auto.
Qed.

Lemma zip4_strict_elements {f : scalar -> scalar -> scalar} {a b c : tensor4} {z : scalar} :
  zip4_strict f a b = Ok c -> In z (flatten4 c) ->
  exists x y, In x (flatten4 a) /\ In y (flatten4 b) /\ z = f x y.
Proof.
  unfold zip4_strict. intros H Hz.
  apply In_flatten4 in Hz. destruct Hz as [img [plane [row [Hi [Hp [Hr Hz]]]]]].
  apply zip_strict_Ok_inv in H. destruct H as [_ [_ H]].
  destruct (H img Hi) as [ia [ib [Hia [Hib Hi']]]].
  apply zip_strict_Ok_inv in Hi'. destruct Hi' as [_ [_ Hi']].
  destruct (Hi' plane Hp) as [pa [pb [Hpa [Hpb Hp']]]].
  apply zip_strict_Ok_inv in Hp'. destruct Hp' as [_ [_ Hp']].
  destruct (Hp' row Hr) as [ra [rb [Hra [Hrb Hr']]]].
  apply zip_strict_Ok_inv in Hr'. destruct Hr' as [_ [_ Hr']].
  destruct (Hr' z Hz) as [x [y [Hx [Hy Hxy]]]].
  injection Hxy as <-.
  exists x, y. repeat split.
  - apply In_flatten4. exists ia, pa, ra. auto.
  - apply In_flatten4. exists ib, pb, rb. auto.
Qed.

Lemma nth_error_zip_with {A B C : Type} (f : A -> B -> C) (l1 : list A) (l2 : list B)
  (n : nat) (z : C) :
  nth_error (zip_with f l1 l2) n = Some z ->
  exists x y, nth_error l1 n = Some x /\ nth_error l2 n = Some y /\ z = f x y.
Proof.
  revert l2 n. induction l1 as [|x l1 IH]; intros [|y l2] [|n] H; simpl in H; try discriminate.
  - injection H as <-. exists x, y. auto.
  - apply IH in H. exact H.
Qed.

Lemma length_zip_with {A B C : Type} (f : A -> B -> C) (l1 : list A) (l2 : list B) :
  length (zip_with f l1 l2) = Nat.min (length l1) (length l2).
Proof.
  revert l2. induction l1 as [|x l1 IH]; intros [|y l2]; simpl; auto.
Qed.

Lemma Forall2_nth_error_r {A B : Type} (P : A -> B -> Prop) {l : list A} {l' : list B}
  {n : nat} {y : B} :
  Forall2 P l l' -> nth_error l' n = Some y ->
  exists x, nth_error l n = Some x /\ P x y.
Proof.
  intros H. revert n. induction H as [|x0 y0 l l' Hxy _ IH]; intros [|n] Hn; simpl in Hn;
    try discriminate.
  - injection Hn as <-. exists x0. auto.
  - now apply IH.
Qed.

(** ** Clamping to the per-channel bounds *)

Definition channel_op (op : scalar -> scalar -> scalar) (bound : list scalar)
  (img : tensor3) : outcome tensor3 :=
  if length img =? length bound then
    Ok (zip_with (fun plane b => map2d (fun x => op x b) plane) img bound)
  else if length img =? 1 then
    Ok (map (fun b => map2d (fun x => op x b) (hd [] img)) bound)
  else
    Raise (RuntimeError "The size of tensor a must match the size of tensor b").

Lemma with_channel_bound_unfold op bound t :
  with_channel_bound op bound t = mapM (channel_op op bound) t.
Proof. reflexivity. Qed.

Lemma channel_op_spec op bound img img' :
  channel_op op bound img = Ok img' ->
  length img' = length bound /\
  forall c plane', nth_error img' c = Some plane' ->
    exists b plane, nth_error bound c = Some b /\ In plane img /\
                    plane' = map2d (fun x => op x b) plane.
Proof.
  unfold channel_op. intros H.
  destruct (Nat.eqb_spec (length img) (length bound)) as [E|NE].
  - injection H as <-. split.
    + rewrite length_zip_with. lia.
    + intros c plane' Hc. apply nth_error_zip_with in Hc.
      destruct Hc as [plane [b [Hp [Hb ->]]]].
      exists b, plane. repeat split; [exact Hb | now apply nth_error_In in Hp].
  - destruct (Nat.eqb_spec (length img) 1) as [E1|NE1]; [|discriminate].
    injection H as <-. split.
    + now rewrite length_map.
    + intros c plane' Hc. rewrite nth_error_map in Hc.
      destruct (nth_error bound c) as [b|] eqn:Hb; [|discriminate].
      injection Hc as <-. exists b, (hd [] img). repeat split.
      destruct img as [|p img0]; [discriminate | now left].
Qed.

Lemma map2d_at {A B : Type} (f : A -> B) (plane : list (list A)) (h w : nat) (x : B) :
  match nth_error (map2d f plane) h with
  | Some row => nth_error row w
  | None => None
  end = Some x ->
  exists row x0, In row plane /\ In x0 row /\ x = f x0.
Proof.
  unfold map2d. rewrite nth_error_map.
  destruct (nth_error plane h) as [row|] eqn:Hh; simpl; [|discriminate].
  rewrite nth_error_map.
  destruct (nth_error row w) as [x0|] eqn:Hw; simpl; [|discriminate].
  intros H. injection H as <-.
  exists row, x0. repeat split; eapply nth_error_In; eauto.
Qed.

Lemma with_channel_bound_spec {op bound t t'} :
  with_channel_bound op bound t = Ok t' ->
  Forall (fun img' => length img' = length bound) t' /\
  forall n c h w x, tensor_at t' n c h w = Some x ->
    exists b x0, nth_error bound c = Some b /\ In x0 (flatten4 t) /\ x = op x0 b.
Proof.
  rewrite with_channel_bound_unfold. intros H. apply mapM_Ok_inv in H. split.
  - apply Forall_forall. intros img' Hin.
    apply In_nth_error in Hin. destruct Hin as [n Hn].
    destruct (Forall2_nth_error_r _ H Hn) as [img [_ Himg]].
    now apply channel_op_spec in Himg.
  - intros n c h w x Hx. unfold tensor_at in Hx.
    destruct (nth_error t' n) as [img'|] eqn:Hn; [|discriminate].
    destruct (Forall2_nth_error_r _ H Hn) as [img [Hi Himg]].
    apply channel_op_spec in Himg. destruct Himg as [_ Himg].
    destruct (nth_error img' c) as [plane'|] eqn:Hc; [|discriminate].
    destruct (Himg c plane' Hc) as [b [plane [Hb [Hp ->]]]].
    apply map2d_at in Hx. destruct Hx as [row [x0 [Hr [Hx0 ->]]]].
    exists b, x0. repeat split; [exact Hb|].
    apply In_flatten4. exists img, plane, row.
    repeat split; try assumption. now apply nth_error_In in Hi.
Qed.

Lemma lower_bound_values :
  lower_bound = [Fin (- (0.485) / 0.229); Fin (- (0.456) / 0.224); Fin (- (0.406) / 0.225)]%R.
Proof.
  unfold lower_bound, IMAGENET_MEAN_1, IMAGENET_STD_1, zip_with, sneg.
  rewrite !sdiv_Fin by lra. reflexivity.
Qed.

Lemma upper_bound_values :
  upper_bound = [Fin ((1 - 0.485) / 0.229); Fin ((1 - 0.456) / 0.224);
                 Fin ((1 - 0.406) / 0.225)]%R.
Proof.
  unfold upper_bound, IMAGENET_MEAN_1, IMAGENET_STD_1, zip_with, ssub, sneg, sadd.
  rewrite !sdiv_Fin by lra. reflexivity.
Qed.

Lemma bounds_at (c : nat) {bl bh : scalar} :
  nth_error lower_bound c = Some bl -> nth_error upper_bound c = Some bh ->
  exists lo hi, bl = Fin lo /\ bh = Fin hi /\ (lo <= hi)%R.
Proof.
  rewrite lower_bound_values, upper_bound_values.
  destruct c as [|[|[|c]]]; simpl; intros Hl Hh;
    [ | | | destruct c; discriminate ];
    injection Hl as <-; injection Hh as <-; eexists; eexists;
    (split; [reflexivity | split; [reflexivity | lra]]).
Qed.

(** The clamp of one value: NaN stays NaN, everything else lands in the range. *)
Lemma clamp_scalar {lo hi : R} (x : scalar) :
  (lo <= hi)%R ->
  let y := smax (smin x (Fin hi)) (Fin lo) in
  (is_nan x /\ is_nan y) \/ (~ is_nan x /\ in_range lo hi y).
Proof.
  intros Hle. destruct x as [a| | |]; simpl.
  - right. split; [tauto|].
    unfold Rmax, Rmin. destruct (Rle_dec a hi), (Rle_dec _ lo); lra.
  - right. split; [tauto|]. unfold Rmax. destruct (Rle_dec hi lo); lra.
  - right. split; [tauto|]. lra.
  - left. tauto.
Qed.

Lemma map2d_at_index {A B : Type} (f : A -> B) (plane : list (list A)) (h w : nat) (x : B) :
  match nth_error (map2d f plane) h with
  | Some row => nth_error row w
  | None => None
  end = Some x ->
  exists x0, match nth_error plane h with
             | Some row => nth_error row w
             | None => None
             end = Some x0 /\ x = f x0.
Proof.
  unfold map2d. rewrite nth_error_map.
  destruct (nth_error plane h) as [row|] eqn:Hh; simpl; [|discriminate].
  rewrite nth_error_map.
  destruct (nth_error row w) as [x0|] eqn:Hw; simpl; [|discriminate].
  intros H. injection H as <-. now exists x0.
Qed.

Lemma clamp_to_bounds_spec {t t' : tensor4} {n c h w : nat} {x : scalar} :
  clamp_to_bounds t = Ok t' -> tensor_at t' n c h w = Some x ->
  exists lo hi x0,
    nth_error lower_bound c = Some (Fin lo) /\ nth_error upper_bound c = Some (Fin hi) /\
    (lo <= hi)%R /\ In x0 (flatten4 t) /\ x = smax (smin x0 (Fin hi)) (Fin lo).
Proof.
  unfold clamp_to_bounds. intros H Hx.
  apply bind_Ok_inv in H. destruct H as [capped [Hcap Hmax]].
  destruct (with_channel_bound_spec Hcap) as [Hlen Hcap'].
  rewrite with_channel_bound_unfold in Hmax. apply mapM_Ok_inv in Hmax.
  unfold tensor_at in Hx.
  destruct (nth_error t' n) as [img'|] eqn:Hn; [|discriminate].
  destruct (Forall2_nth_error_r _ Hmax Hn) as [cimg [Hci Hop]].
  assert (Hclen : length cimg = length lower_bound).
  { rewrite Forall_forall in Hlen. rewrite (Hlen cimg) by (eapply nth_error_In; eauto).
    rewrite lower_bound_values, upper_bound_values. reflexivity. }
  unfold channel_op in Hop. rewrite Hclen, Nat.eqb_refl in Hop. injection Hop as <-.
  destruct (nth_error (zip_with _ cimg lower_bound) c) as [plane'|] eqn:Hc; [|discriminate].
  apply nth_error_zip_with in Hc. destruct Hc as [cplane [bl [Hcp [Hbl ->]]]].
  apply map2d_at_index in Hx. destruct Hx as [x1 [Hx1 ->]].
  assert (Hsrc : tensor_at capped n c h w = Some x1).
  { unfold tensor_at. now rewrite Hci, Hcp. }
  destruct (Hcap' _ _ _ _ _ Hsrc) as [bh [x0 [Hbh [Hx0 ->]]]].
  destruct (bounds_at c Hbl Hbh) as [lo [hi [-> [-> Hle]]]].
  exists lo, hi, x0. auto.
Qed.

(** ** The ascent step, taken apart *)

(** The smoothed gradient that one step computes. *)
Definition smooth_gradient (net : network) (img : tensor) (cnt : Z) : outcome tensor4 :=
  img <- loss_backward net img ;;
  smooth cnt (match grad img with Some g => g | None => [] end).

Lemma loss_backward_data {net : network} {img img1 : tensor} :
  loss_backward net img = Ok img1 ->
  data img1 = data img /\ requires_grad img1 = requires_grad img /\
  requires_grad img = true /\
  grad img1 = Some (match grad img with
                    | None => backprop net (data img) (inception4c net (data img))
                    | Some g0 => add4d g0 (backprop net (data img) (inception4c net (data img)))
                    end).
Proof.
  unfold loss_backward, ascent_loss_gradient.
  destruct (requires_grad img) eqn:E; intros H; [|discriminate].
  injection H as <-. simpl. auto.
Qed.

Lemma gradient_ascent_inv {net : network} {img : tensor} {lr : R} {cnt : Z}
  {u : unit} {img' : tensor} :
  gradient_ascent net img lr cnt = Ok (u, img') ->
  exists img1 s new_data,
    loss_backward net img = Ok img1 /\
    smooth_gradient net img cnt = Ok s /\
    zip4_strict sadd (data img)
      (tensor_scale lr (tensor_div s (mean_abs s))) = Ok new_data /\
    clamp_to_bounds new_data = Ok (data img') /\
    grad img' = option_map zeros_like4 (grad img1) /\
    requires_grad img' = requires_grad img.
Proof.
  unfold gradient_ascent, smooth_gradient. intros H.
  apply bind_Ok_inv in H. destruct H as [img1 [Hb H]].
  apply bind_Ok_inv in H. destruct H as [s [Hs H]].
  apply bind_Ok_inv in H. destruct H as [new_data [Hz H]].
  apply bind_Ok_inv in H. destruct H as [clamped [Hc H]].
  injection H as _ <-. simpl in *.
  destruct (loss_backward_data Hb) as [Hd [Hr _]].
  exists img1, s, new_data. rewrite Hb. simpl. rewrite <- Hd.
  repeat split; assumption.
Qed.

Lemma smul_Fin (a b : R) : smul (Fin a) (Fin b) = Fin (a * b).
Proof. reflexivity. Qed.

Lemma sadd_not_nan (d : scalar) (r : R) : ~ is_nan d -> ~ is_nan (sadd d (Fin r)).
Proof. destruct d; simpl; tauto. Qed.

(** The updated values [img.data + lr * (smooth_grad / g_mean)] hold no NaN
    when [img.data] holds none and the mean is a non-zero number. *)
Lemma update_not_nan {d s new_data : tensor4} (lr : R) {m : R} :
  (forall y, In y (flatten4 d) -> ~ is_nan y) ->
  mean_abs s = Fin m -> m <> 0%R ->
  zip4_strict sadd d (tensor_scale lr (tensor_div s (mean_abs s))) = Ok new_data ->
  forall x, In x (flatten4 new_data) -> ~ is_nan x.
Proof.
  intros Hd Hmean Hm Hzip x Hx.
  destruct (zip4_strict_elements Hzip Hx) as [y [u [Hy [Hu ->]]]].
  unfold tensor_scale, tensor_div in Hu. rewrite !flatten4_map4d, map_map in Hu.
  apply in_map_iff in Hu. destruct Hu as [si [<- Hsi]].
  destruct (mean_abs_Fin_inv s _ Hmean) as [rl [Hrl _]].
  rewrite Hrl in Hsi. apply in_map_iff in Hsi. destruct Hsi as [r [<- _]].
  rewrite Hmean, sdiv_Fin, smul_Fin by exact Hm.
  apply sadd_not_nan. now apply Hd.
Qed.

(** C1, as the code has it.  After [gradient_ascent] returns, every element
    of the tensor is either NaN or lies within the range
    [[lower_bound[channel], upper_bound[channel]]] of its channel (the clamp
    is element-wise with one pair of bounds per channel).  It lies within the
    range whenever the tensor held no NaN before the step and the mean
    absolute value of the smoothed gradient is a non-zero number. *)
Theorem ascent_step_clamped
  (net : network) (img img' : tensor) (lr : R) (cnt : Z) (n c h w : nat) (x : scalar) :
  gradient_ascent net img lr cnt = Ok (tt, img') ->
  tensor_at (data img') n c h w = Some x ->
  exists lo hi,
    nth_error lower_bound c = Some (Fin lo) /\
    nth_error upper_bound c = Some (Fin hi) /\
    (is_nan x \/ in_range lo hi x) /\
    ((forall y, In y (flatten4 (data img)) -> ~ is_nan y) ->
     (exists s m, smooth_gradient net img cnt = Ok s /\ mean_abs s = Fin m /\ m <> 0%R) ->
     in_range lo hi x).
Proof.
  intros Hrun Hx.
  destruct (gradient_ascent_inv Hrun)
    as [img1 [s [new_data [Hb [Hs [Hzip [Hclamp _]]]]]]].
  destruct (clamp_to_bounds_spec Hclamp Hx)
    as [lo [hi [x0 [Hlo [Hhi [Hle [Hx0 ->]]]]]]].
  exists lo, hi. split; [exact Hlo|]. split; [exact Hhi|].
  pose proof (clamp_scalar x0 Hle) as Hcl. simpl in Hcl. split.
  - destruct Hcl as [[_ Hn]|[_ Hr]]; [now left | now right].
  - intros Hdata [s' [m [Hs' [Hmean Hm]]]].
    rewrite Hs in Hs'. injection Hs' as <-.
    pose proof (update_not_nan lr Hdata Hmean Hm Hzip x0 Hx0) as Hnn.
    destruct Hcl as [[Hn _]|[_ Hr]]; [contradiction | exact Hr].
Qed.

(** ** Constant tensors through padding, convolution and the mean *)

Definition const2d {A : Type} (x : A) (H W : nat) : list (list A) :=
  repeat (repeat x W) H.
Definition const4d {A : Type} (x : A) (N C H W : nat) : list (list (list (list A))) :=
  repeat (repeat (const2d x H W) C) N.

Lemma firstn_repeat {A : Type} (x : A) (n m : nat) :
  n <= m -> firstn n (repeat x m) = repeat x n.
Proof.
  revert m. induction n as [|n IH]; intros [|m] H; simpl; try lia; auto.
  f_equal. apply IH. lia.
Qed.

Lemma skipn_repeat {A : Type} (x : A) (n m : nat) :
  skipn n (repeat x m) = repeat x (m - n).
Proof.
  revert m. induction n as [|n IH]; intros [|m]; simpl; auto.
Qed.

Lemma mapM_repeat {A B : Type} (f : A -> outcome B) (a : A) (b : B) (n : nat) :
  f a = Ok b -> mapM f (repeat a n) = Ok (repeat b n).
Proof.
  intros H. induction n as [|n IH]; [reflexivity|].
  simpl. rewrite H. simpl. rewrite IH. reflexivity.
Qed.

Lemma zip_with_repeat {A B C : Type} (f : A -> B -> C) (a : A) (b : B) (n : nat) :
  zip_with f (repeat a n) (repeat b n) = repeat (f a b) n.
Proof. induction n as [|n IH]; simpl; [reflexivity | now rewrite IH]. Qed.

Lemma combine_repeat {A B : Type} (a : A) (b : B) (n : nat) :
  combine (repeat a n) (repeat b n) = repeat (a, b) n.
Proof. induction n as [|n IH]; simpl; [reflexivity | now rewrite IH]. Qed.

Lemma concat_repeat {A : Type} (x : A) (m n : nat) :
  concat (repeat (repeat x m) n) = repeat x (n * m).
Proof.
  induction n as [|n IH]; [reflexivity|].
  simpl. rewrite IH. now rewrite repeat_app.
Qed.

Lemma flatten4_const {A : Type} (x : A) (N C H W : nat) :
  flatten4 (const4d x N C H W) = repeat x (N * C * H * W).
Proof.
  unfold flatten4, const4d, const2d. now rewrite !concat_repeat.
Qed.

Lemma reflect_pad1_repeat {A : Type} (x : A) {p n : nat} :
  p < n -> reflect_pad1 p (repeat x n) = Ok (repeat x (n + 2 * p)).
Proof.
  intros H. unfold reflect_pad1. rewrite repeat_length.
  destruct (Nat.ltb_spec p n) as [_|]; [|lia].
  rewrite rev_repeat. destruct n as [|n]; [lia|].
  change (tl (repeat x (S n))) with (repeat x n).
  rewrite !firstn_repeat by lia. rewrite rev_repeat, <- !repeat_app.
  do 2 f_equal. lia.
Qed.

Lemma reflect_pad_plane_const (x : scalar) (p H W : nat) :
  p < H -> p < W ->
  reflect_pad_plane p (const2d x H W) = Ok (const2d x (H + 2 * p) (W + 2 * p)).
Proof.
  intros HH HW. unfold reflect_pad_plane, const2d.
  rewrite (mapM_repeat _ _ _ _ (reflect_pad1_repeat x HW)). simpl.
  now apply reflect_pad1_repeat.
Qed.

Lemma reflect_pad_const (x : scalar) (p N C H W : nat) :
  p < H -> p < W ->
  reflect_pad p (const4d x N C H W) = Ok (const4d x N C (H + 2 * p) (W + 2 * p)).
Proof.
  intros HH HW. unfold reflect_pad, const4d.
  apply mapM_repeat, mapM_repeat. now apply reflect_pad_plane_const.
Qed.

Lemma window_const (x : scalar) (Hp Wp i j kh kw : nat) :
  i + kh <= Hp -> j + kw <= Wp ->
  window (const2d x Hp Wp) i j kh kw = const2d x kh kw.
Proof.
  intros Hi Hj. unfold window, const2d.
  rewrite skipn_repeat, firstn_repeat by lia.
  rewrite map_repeat, skipn_repeat, firstn_repeat by lia. reflexivity.
Qed.

(** The shape of a matrix given as nested lists. *)
Definition shape2d {A : Type} (m : list (list A)) (h w : nat) : Prop :=
  length m = h /\ Forall (fun row => length row = w) m.

Lemma rsum_scale (c : R) (l : list R) :
  rsum (map (fun r => (r * c)%R) l) = (rsum l * c)%R.
Proof. induction l as [|r l IH]; simpl; [lra | rewrite IH; lra]. Qed.

Lemma sum2d_Fin (m : list (list R)) : sum2d (map2d Fin m) = Fin (rsum (concat m)).
Proof. unfold sum2d, map2d. now rewrite <- concat_map, ssum_Fin. Qed.

Lemma zip_smul_const (c : R) (row : list R) {kw : nat} :
  length row = kw ->
  zip_with smul (map Fin row) (repeat (Fin c) kw) = map Fin (map (fun r => (r * c)%R) row).
Proof.
  revert kw. induction row as [|r row IH]; intros [|kw] H; simpl in *; try lia; auto.
  f_equal. apply IH. lia.
Qed.

Lemma mul2d_const (c : R) {wr : list (list R)} {kh kw : nat} :
  shape2d wr kh kw ->
  mul2d (map2d Fin wr) (const2d (Fin c) kh kw)
  = map2d Fin (map2d (fun r => (r * c)%R) wr).
Proof.
  unfold shape2d, mul2d, map2d, const2d. revert kh.
  induction wr as [|row wr IH]; intros [|kh] [Hlen Hrows]; simpl in *; try lia; auto.
  inversion Hrows as [|? ? Hrow Hrest]; subst.
  rewrite (zip_smul_const c row eq_refl). f_equal.
  apply IH. split; [lia | assumption].
Qed.

Lemma dot2d_const (c : R) (wr : list (list R)) (kh kw : nat) :
  shape2d wr kh kw ->
  dot2d (map2d Fin wr) (const2d (Fin c) kh kw) = Fin (rsum (concat wr) * c).
Proof.
  intros Hs. unfold dot2d. rewrite (mul2d_const c Hs), sum2d_Fin.
  unfold map2d. now rewrite <- concat_map, rsum_scale.
Qed.

Lemma map_constant {A B : Type} (f : A -> B) (v : B) (l : list A) :
  (forall i, In i l -> f i = v) -> map f l = repeat v (length l).
Proof.
  induction l as [|a l IH]; intros H; [reflexivity|].
  simpl. rewrite (H a) by now left. f_equal. apply IH. intros i Hi. apply H. now right.
Qed.

Lemma conv_plane_const (c : R) (wr : list (list R)) (kh kw Hp Wp : nat) :
  shape2d wr kh kw -> 1 <= kh -> kh <= Hp -> kw <= Wp ->
  conv_plane (map2d Fin wr) (const2d (Fin c) Hp Wp)
  = Ok (const2d (Fin (rsum (concat wr) * c)) (Hp + 1 - kh) (Wp + 1 - kw)).
Proof.
  intros Hs Hk1 HkH HkW. pose proof Hs as [Hlen Hrows].
  unfold conv_plane.
  assert (Hkh : length (map2d Fin wr) = kh) by (unfold map2d; now rewrite length_map).
  assert (Hkw : length (hd [] (map2d Fin wr)) = kw).
  { destruct wr as [|row wr']; simpl in *; [lia|].
    rewrite length_map. now inversion Hrows. }
  assert (HH : length (const2d (Fin c) Hp Wp) = Hp) by apply repeat_length.
  assert (HW : length (hd [] (const2d (Fin c) Hp Wp)) = Wp).
  { unfold const2d. destruct Hp; [lia|]. simpl. apply repeat_length. }
  rewrite Hkh, Hkw, HH, HW.
  destruct (Nat.ltb_spec Hp kh); [lia|]. destruct (Nat.ltb_spec Wp kw); [lia|].
  simpl. f_equal. unfold const2d at 2.
  rewrite (map_constant _ (repeat (Fin (rsum (concat wr) * c)) (Wp + 1 - kw))).
  - now rewrite length_seq.
  - intros i Hi. apply in_seq in Hi.
    rewrite (map_constant _ (Fin (rsum (concat wr) * c))).
    + now rewrite length_seq.
    + intros j Hj. apply in_seq in Hj.
      rewrite window_const by lia. now apply dot2d_const.
Qed.

Lemma conv2d_const (c : R) {wr : list (list R)} {kh kw N C Hp Wp : nat} :
  shape2d wr kh kw -> 1 <= kh -> kh <= Hp -> kw <= Wp ->
  conv2d (const4d (Fin c) N C Hp Wp) (repeat [map2d Fin wr] C) C
  = Ok (const4d (Fin (rsum (concat wr) * c)) N C (Hp + 1 - kh) (Wp + 1 - kw)).
Proof.
  intros Hs Hk1 HkH HkW. unfold conv2d, const4d.
  apply mapM_repeat. rewrite repeat_length, Nat.eqb_refl, combine_repeat.
  apply mapM_repeat. simpl. now apply conv_plane_const.
Qed.

Lemma add4d_const (a b : scalar) (N C H W : nat) :
  add4d (const4d a N C H W) (const4d b N C H W) = const4d (sadd a b) N C H W.
Proof.
  unfold add4d, const4d, const2d. now rewrite !zip_with_repeat.
Qed.

Lemma rsum_repeat (a : R) (n : nat) : rsum (repeat a n) = (INR n * a)%R.
Proof.
  induction n as [|n IH]; [simpl; lra|].
  rewrite S_INR. simpl. rewrite IH. lra.
Qed.

Lemma mean_abs_const (v : R) (N C H W : nat) :
  0 < N * C * H * W -> mean_abs (const4d (Fin v) N C H W) = Fin (Rabs v).
Proof.
  intros Hpos. unfold mean_abs. rewrite flatten4_const, map_repeat, repeat_length.
  change (sabs (Fin v)) with (Fin (Rabs v)).
  rewrite <- (@map_repeat _ _ (Rabs v) _ Fin), ssum_Fin, rsum_repeat.
  assert (Hn : (0 < INR (N * C * H * W))%R) by now apply lt_0_INR.
  rewrite sdiv_Fin by lra. f_equal. field. lra.
Qed.

(** ** The kernels that [GaussianSmoothing.__init__] builds *)

(** One Gaussian factor on real numbers. *)
Definition gauss_r (size : nat) (std a : R) : R :=
  (1 / (std * sqrt (2 * PI))
   * exp (- (((a - (INR size - 1) / 2) / std) * ((a - (INR size - 1) / 2) / std)) / 2))%R.

Definition grid_rows (k : nat) : list (list R) :=
  map (fun i => map (fun _ => INR i) (seq 0 k)) (seq 0 k).
Definition grid_cols (k : nat) : list (list R) :=
  map (fun _ => map (fun j => INR j) (seq 0 k)) (seq 0 k).

Definition rmul2d (a b : list (list R)) : list (list R) := zip_with (zip_with Rmult) a b.

(** The one tensor all six entries of [kernels] refer to when the loops end:
    the product of the six factors (three standard deviations, two
    dimensions each). *)
Definition product_kernel (k : nat) (sigma : R) : list (list R) :=
  let fx s := map2d (gauss_r k s) (grid_rows k) in
  let fy s := map2d (gauss_r k s) (grid_cols k) in
  rmul2d (rmul2d (rmul2d (rmul2d (rmul2d
    (map2d (Rmult 1) (fx (0.5 * sigma)%R)) (fy (0.5 * sigma)%R))
    (fx (1.0 * sigma)%R)) (fy (1.0 * sigma)%R))
    (fx (2.0 * sigma)%R)) (fy (2.0 * sigma)%R).

Lemma sqrt_2PI_pos : (0 < sqrt (2 * PI))%R.
Proof. apply sqrt_lt_R0. pose proof PI_RGT_0. lra. Qed.

Lemma gauss_factor_Fin (size : nat) (std : R) (gr : list (list R)) :
  std <> 0%R ->
  gauss_factor size std (map2d Fin gr) = Ok (map2d Fin (map2d (gauss_r size std) gr)).
Proof.
  intros Hstd. unfold gauss_factor.
  destruct (Req_dec_T (std * sqrt (2 * PI)) 0) as [E|_].
  - pose proof sqrt_2PI_pos. apply Rmult_integral in E. destruct E; [contradiction | lra].
  - f_equal. unfold map2d. rewrite !map_map. apply map_ext. intros row.
    rewrite !map_map. apply map_ext. intros a.
    unfold gauss_exponent, ssub, sneg, sadd.
    rewrite sdiv_Fin by exact Hstd. rewrite smul_Fin. rewrite sdiv_Fin by lra.
    reflexivity.
Qed.

Lemma gauss_factor_zero (size : nat) (mgrid : matrix) :
  gauss_factor size 0 mgrid = Raise ZeroDivisionError.
Proof.
  unfold gauss_factor.
  destruct (Req_dec_T (0 * sqrt (2 * PI)) 0) as [_|N]; [reflexivity|].
  exfalso. apply N. ring.
Qed.

Lemma meshgrid_Fin (k : nat) :
  meshgrid k k = [map2d Fin (grid_rows k); map2d Fin (grid_cols k)].
Proof.
  unfold meshgrid, grid_rows, grid_cols, map2d. rewrite !map_map.
  assert (Hr : forall i : nat, map (fun _ : nat => Fin (INR i)) (seq 0 k)
                = map Fin (map (fun _ : nat => INR i) (seq 0 k)))
    by (intros i; now rewrite map_map).
  assert (Hc : map (fun j : nat => Fin (INR j)) (seq 0 k)
                = map Fin (map (fun j : nat => INR j) (seq 0 k)))
    by now rewrite map_map.
  rewrite Hc. rewrite (map_ext _ _ Hr). reflexivity.
Qed.

Lemma mul2d_Fin (a b : list (list R)) :
  mul2d (map2d Fin a) (map2d Fin b) = map2d Fin (rmul2d a b).
Proof.
  unfold mul2d, rmul2d, map2d. revert b.
  induction a as [|ra a IH]; intros [|rb b]; simpl; auto.
  f_equal; [|apply IH]. clear. revert rb.
  induction ra as [|x ra IH]; intros [|y rb]; simpl; auto. now rewrite IH.
Qed.

Lemma scale_one_Fin (a : list (list R)) :
  map2d (smul (Fin 1)) (map2d Fin a) = map2d Fin (map2d (Rmult 1) a).
Proof.
  unfold map2d. rewrite !map_map. apply map_ext. intros row. now rewrite !map_map.
Qed.

Lemma kernel_step_first (size : nat) (std : R) (g : list (list R)) (ks : list pyval) :
  std <> 0%R ->
  kernel_step ([], PyInt 1, ks) (size, std, map2d Fin g) =
  Ok ([map2d Fin (map2d (Rmult 1) (map2d (gauss_r size std) g))],
      TensorRef 0, ks ++ [TensorRef 0]).
Proof.
  intros Hs. unfold kernel_step. rewrite gauss_factor_Fin by exact Hs.
  cbn [bind imul app length]. now rewrite scale_one_Fin.
Qed.

Lemma kernel_step_next (size : nat) (std : R) (a g : list (list R)) (ks : list pyval) :
  std <> 0%R ->
  kernel_step ([map2d Fin a], TensorRef 0, ks) (size, std, map2d Fin g) =
  Ok ([map2d Fin (rmul2d a (map2d (gauss_r size std) g))],
      TensorRef 0, ks ++ [TensorRef 0]).
Proof.
  intros Hs. unfold kernel_step. rewrite gauss_factor_Fin by exact Hs.
  cbn [bind imul nth list_update]. now rewrite mul2d_Fin.
Qed.

(** What the constructor returns: all three weights are one and the same
    kernel, the normalized product of the six factors. *)
Lemma GaussianSmoothing_init_value (channels k : nat) (sigma : R) :
  sigma <> 0%R ->
  GaussianSmoothing_init channels k sigma =
  let w := repeat [normalize_kernel (map2d Fin (product_kernel k sigma))] channels in
  Ok (mkGaussianSmoothing (Nat.div k 2) w w w channels).
Proof.
  intros Hs. unfold GaussianSmoothing_init.
  cbn [nth]. rewrite meshgrid_Fin.
  unfold sigma_step. cbn [foldM combine].
  rewrite kernel_step_first by lra. cbn [bind].
  repeat (rewrite kernel_step_next by lra; cbn [bind]).
  reflexivity.
Qed.

(** Square matrices of positive numbers. *)
Definition pos2d (k : nat) (m : list (list R)) : Prop :=
  length m = k /\ Forall (fun row => length row = k /\ Forall (fun r => (0 < r)%R) row) m.

Lemma gauss_r_pos (size : nat) (std a : R) : (0 < std)%R -> (0 < gauss_r size std a)%R.
Proof.
  intros Hs. unfold gauss_r. pose proof sqrt_2PI_pos as Hq.
  apply Rmult_lt_0_compat; [|apply exp_pos].
  apply Rdiv_lt_0_compat; [lra|]. now apply Rmult_lt_0_compat.
Qed.

Lemma pos2d_gauss_rows (k : nat) (std : R) :
  (0 < std)%R -> pos2d k (map2d (gauss_r k std) (grid_rows k)).
Proof.
  intros Hs. unfold pos2d, map2d, grid_rows. split.
  - now rewrite !length_map, length_seq.
  - rewrite map_map. apply Forall_map, Forall_forall. intros i _. split.
    + now rewrite !length_map, length_seq.
    + rewrite map_map. apply Forall_map, Forall_forall. intros j _.
      now apply gauss_r_pos.
Qed.

Lemma pos2d_gauss_cols (k : nat) (std : R) :
  (0 < std)%R -> pos2d k (map2d (gauss_r k std) (grid_cols k)).
Proof.
  intros Hs. unfold pos2d, map2d, grid_cols. split.
  - now rewrite !length_map, length_seq.
  - rewrite map_map. apply Forall_map, Forall_forall. intros i _. split.
    + now rewrite !length_map, length_seq.
    + rewrite map_map. apply Forall_map, Forall_forall. intros j _.
      now apply gauss_r_pos.
Qed.

Lemma pos_row_mul (k : nat) (ra rb : list R) :
  length ra = k /\ Forall (fun r => (0 < r)%R) ra ->
  length rb = k /\ Forall (fun r => (0 < r)%R) rb ->
  length (zip_with Rmult ra rb) = k /\ Forall (fun r => (0 < r)%R) (zip_with Rmult ra rb).
Proof.
  revert k rb. induction ra as [|x ra IH]; intros k [|y rb] [La Pa] [Lb Pb];
    simpl in *; subst; try discriminate; [split; [reflexivity | constructor]|].
  inversion Pa; inversion Pb; subst.
  destruct (IH (length ra) rb) as [L P]; [split; auto | split; [lia | auto] |].
  split; [now rewrite L|]. constructor; [now apply Rmult_lt_0_compat | exact P].
Qed.

Lemma pos2d_rmul2d (k : nat) (a b : list (list R)) :
  pos2d k a -> pos2d k b -> pos2d k (rmul2d a b).
Proof.
  unfold pos2d, rmul2d. intros [La Pa] [Lb Pb]. split.
  - rewrite length_zip_with. lia.
  - clear La Lb. revert b Pb. induction Pa as [|ra a Hra _ IH]; intros [|rb b] Pb;
      simpl; try constructor.
    + inversion Pb; subst. now apply pos_row_mul.
    + inversion Pb; subst. now apply IH.
Qed.

Lemma pos2d_scale_one (k : nat) (a : list (list R)) :
  pos2d k a -> pos2d k (map2d (Rmult 1) a).
Proof.
  unfold pos2d, map2d. intros [La Pa]. split; [now rewrite length_map|].
  apply Forall_map. eapply Forall_impl; [|exact Pa].
  intros row [L P]. split; [now rewrite length_map|].
  apply Forall_map. eapply Forall_impl; [|exact P]. simpl. intros r Hr. lra.
Qed.

Lemma product_kernel_pos (k : nat) {sigma : R} :
  (0 < sigma)%R -> pos2d k (product_kernel k sigma).
Proof.
  intros Hs. unfold product_kernel.
  repeat apply pos2d_rmul2d; try apply pos2d_scale_one;
    first [apply pos2d_gauss_rows | apply pos2d_gauss_cols]; lra.
Qed.

Lemma rsum_app (a b : list R) : rsum (a ++ b) = (rsum a + rsum b)%R.
Proof. induction a as [|x a IH]; simpl; [lra | rewrite IH; lra]. Qed.

Lemma rsum_pos_row {row : list R} :
  Forall (fun r => (0 < r)%R) row -> (0 <= rsum row)%R /\ (row <> [] -> (0 < rsum row)%R).
Proof.
  induction 1 as [|r row Hr _ [IH _]]; simpl.
  - split; [lra | congruence].
  - split; [lra | intros _; lra].
Qed.

Lemma pos2d_sum {k : nat} {m : list (list R)} :
  1 <= k -> pos2d k m -> (0 < rsum (concat m))%R.
Proof.
  intros Hk [L P]. destruct m as [|row m]; simpl in *; [lia|].
  inversion P as [|? ? [Lr Pr] Pm]; subst. rewrite rsum_app.
  assert (Hrow : (0 < rsum row)%R).
  { apply rsum_pos_row; [exact Pr|]. intros ->. simpl in *. lia. }
  assert (Hrest : (0 <= rsum (concat m))%R).
  { clear - Pm. induction Pm as [|r0 m0 [_ Hr] _ IH]; simpl; [lra|].
    rewrite rsum_app. pose proof (proj1 (rsum_pos_row Hr)). lra. }
  lra.
Qed.

(** The normalized kernel on real numbers. *)
Definition unit_weight (k : nat) (sigma : R) : list (list R) :=
  map2d (fun r => (r / rsum (concat (product_kernel k sigma)))%R) (product_kernel k sigma).

Lemma normalize_kernel_Fin (m : list (list R)) :
  rsum (concat m) <> 0%R ->
  normalize_kernel (map2d Fin m) = map2d Fin (map2d (fun r => (r / rsum (concat m))%R) m).
Proof.
  intros Hz. unfold normalize_kernel. rewrite sum2d_Fin.
  unfold map2d. rewrite !map_map. apply map_ext. intros row.
  rewrite !map_map. apply map_ext. intros r. now apply sdiv_Fin.
Qed.

Lemma unit_weight_spec {k : nat} {sigma : R} :
  (0 < sigma)%R -> 1 <= k ->
  normalize_kernel (map2d Fin (product_kernel k sigma)) = map2d Fin (unit_weight k sigma) /\
  shape2d (unit_weight k sigma) k k /\
  rsum (concat (unit_weight k sigma)) = 1%R.
Proof.
  intros Hs Hk.
  pose proof (product_kernel_pos k Hs) as Hpos.
  pose proof (pos2d_sum Hk Hpos) as Hz.
  unfold unit_weight. repeat split.
  - apply normalize_kernel_Fin. lra.
  - unfold map2d. rewrite length_map. apply Hpos.
  - unfold map2d. apply Forall_map. destruct Hpos as [_ P].
    eapply Forall_impl; [|exact P]. simpl. intros row [L _]. now rewrite length_map.
  - unfold map2d. rewrite <- concat_map.
    change (fun r => (r / rsum (concat (product_kernel k sigma)))%R)
      with (fun r => (r * / rsum (concat (product_kernel k sigma)))%R).
    rewrite rsum_scale. field. lra.
Qed.

Lemma ascent_sigma_pos {cnt : Z} : (0 <= cnt)%Z -> (0 < ascent_sigma cnt)%R.
Proof.
  intros H. apply IZR_le in H. unfold ascent_sigma. lra.
Qed.

(** Smoothing a constant gradient: each of the three convolutions returns the
    constant (the kernel sums to 1), and the three are added. *)
Lemma smooth_const (cnt : Z) (c : R) (N H W : nat) :
  (0 <= cnt)%Z -> 4 < H -> 4 < W ->
  smooth cnt (const4d (Fin c) N 3 H W)
  = Ok (const4d (Fin (1 * c + 1 * c + 1 * c)) N 3 H W).
Proof.
  intros Hcnt HH HW. unfold smooth.
  pose proof (ascent_sigma_pos Hcnt) as Hs.
  rewrite GaussianSmoothing_init_value by lra. cbn zeta.
  destruct (unit_weight_spec (k := KERNEL_SIZE) Hs) as [Hw [Hshape Hsum]];
    [unfold KERNEL_SIZE; lia|].
  rewrite Hw. cbn [bind]. unfold GaussianSmoothing_forward.
  cbn [pad weight1 weight2 weight3 groups].
  change (KERNEL_SIZE / 2) with 4.
  rewrite reflect_pad_const by lia. cbn [bind].
  rewrite (conv2d_const c (kh := 9) (kw := 9)) by (try exact Hshape; lia).
  cbn [bind]. rewrite Hsum, !add4d_const. cbn [sadd].
  do 2 f_equal; lia.
Qed.

(** ** One ascent step on a constant image with a constant gradient *)

Lemma map4d_const {A B : Type} (f : A -> B) (x : A) (N C H W : nat) :
  map4d f (const4d x N C H W) = const4d (f x) N C H W.
Proof.
  unfold map4d, map3d, map2d, const4d, const2d. now rewrite !map_repeat.
Qed.

Lemma zip_strict_repeat {A B C : Type} (e : exn) (f : A -> B -> outcome C) (a : A) (b : B) (c : C)
  (n : nat) :
  f a b = Ok c -> zip_strict e f (repeat a n) (repeat b n) = Ok (repeat c n).
Proof.
  intros H. induction n as [|n IH]; [reflexivity|].
  simpl. rewrite H. simpl. rewrite IH. reflexivity.
Qed.

Lemma zip4_strict_const (f : scalar -> scalar -> scalar) (a b : scalar) (N C H W : nat) :
  zip4_strict f (const4d a N C H W) (const4d b N C H W) = Ok (const4d (f a b) N C H W).
Proof.
  unfold zip4_strict, const4d, const2d. now repeat apply zip_strict_repeat.
Qed.

(** The clamp of one three-channel image. *)
Definition clamp_planes (img : tensor3) : tensor3 :=
  zip_with (fun plane b => map2d (fun x => smax x b) plane)
    (zip_with (fun plane b => map2d (fun x => smin x b) plane) img upper_bound)
    lower_bound.

Lemma clamp_to_bounds_repeat (img : tensor3) (N : nat) :
  length img = 3 ->
  clamp_to_bounds (repeat img N) = Ok (repeat (clamp_planes img) N).
Proof.
  intros Hlen. unfold clamp_to_bounds.
  rewrite !with_channel_bound_unfold.
  rewrite (mapM_repeat _ _ (zip_with (fun plane b => map2d (fun x => smin x b) plane)
                              img upper_bound)).
  - cbn [bind]. apply mapM_repeat. unfold channel_op.
    rewrite length_zip_with, Hlen. reflexivity.
  - unfold channel_op. rewrite Hlen. reflexivity.
Qed.

Lemma gradient_ascent_const (net : network) (d c lr : R) (cnt : Z) (N H W : nat) :
  (0 <= cnt)%Z -> 4 < H -> 4 < W -> 0 < N * 3 * H * W ->
  backprop net (const4d (Fin d) N 3 H W) (inception4c net (const4d (Fin d) N 3 H W))
  = const4d (Fin c) N 3 H W ->
  let s := (1 * c + 1 * c + 1 * c)%R in
  let u := sadd (Fin d) (smul (Fin lr) (sdiv (Fin s) (Fin (Rabs s)))) in
  smooth_gradient net (mkTensor (const4d (Fin d) N 3 H W) None true) cnt
  = Ok (const4d (Fin s) N 3 H W) /\
  gradient_ascent net (mkTensor (const4d (Fin d) N 3 H W) None true) lr cnt
  = Ok (tt, mkTensor (repeat (clamp_planes (repeat (const2d u H W) 3)) N)
                     (Some (const4d (Fin 0) N 3 H W)) true).
Proof.
  intros Hcnt HH HW Hpos Hgrad s u.
  unfold smooth_gradient, gradient_ascent, loss_backward, ascent_loss_gradient.
  cbn [requires_grad data grad bind]. rewrite Hgrad, smooth_const by assumption.
  split; [reflexivity|].
  cbn [bind]. rewrite mean_abs_const by exact Hpos.
  unfold tensor_scale, tensor_div. rewrite !map4d_const, zip4_strict_const.
  cbn [bind data grad requires_grad option_map].
  unfold zeros_like4. rewrite map4d_const.
  unfold const4d at 1. rewrite clamp_to_bounds_repeat by apply repeat_length.
  reflexivity.
Qed.

(** Two small networks for the examples: one whose activation is constantly
    zero (so is its gradient), and one whose activation is one plus the sum
    of the input values (its gradient is the activation in every position). *)
Definition flat_net : network :=
  mkNetwork (fun _ => [[[[Fin 0]]]]) (fun x _ => zeros_like4 x).

Definition sum_net : network :=
  mkNetwork (fun x => [[[[sadd (Fin 1) (ssum (flatten4 x))]]]])
            (fun x c => map4d (fun _ => nth 0 (flatten4 c) NaN) x).

Definition dark_image : tensor := mkTensor (const4d (Fin 0) 1 3 5 5) None true.

Lemma flat_net_gradient :
  backprop flat_net (const4d (Fin 0) 1 3 5 5) (inception4c flat_net (const4d (Fin 0) 1 3 5 5))
  = const4d (Fin 0) 1 3 5 5.
Proof. reflexivity. Qed.

Lemma sum_net_gradient :
  backprop sum_net (const4d (Fin 0) 1 3 5 5) (inception4c sum_net (const4d (Fin 0) 1 3 5 5))
  = const4d (Fin 1) 1 3 5 5.
Proof.
  cbn [backprop inception4c sum_net]. rewrite map4d_const. f_equal.
  cbn [flatten4 concat app nth]. rewrite flatten4_const.
  rewrite <- (@map_repeat _ _ 0%R _ Fin), ssum_Fin, rsum_repeat.
  cbn [sadd]. f_equal. ring.
Qed.

(** C1 as the claim states it fails: with a gradient that is zero everywhere
    the step divides zero by zero, and the tensor it leaves holds NaN, which
    is inside no range. *)
Lemma ascent_step_leaves_nan :
  exists img',
    gradient_ascent flat_net dark_image 0.09 0 = Ok (tt, img') /\
    tensor_at (data img') 0 0 0 0 = Some NaN /\
    forall lo hi, ~ in_range lo hi NaN.
Proof.
  destruct (gradient_ascent_const flat_net 0 0 0.09 0 1 5 5)
    as [_ Hrun]; try lia; [exact flat_net_gradient|].
  eexists. split; [exact Hrun|]. split; [|intros lo hi []].
  cbn [data]. replace (1 * 0 + 1 * 0 + 1 * 0)%R with 0%R by ring.
  rewrite Rabs_R0, sdiv_zero_zero. reflexivity.
Qed.

Lemma ascent_step_clamped_example :
  exists img' x lo hi,
    gradient_ascent sum_net dark_image 0.09 0 = Ok (tt, img') /\
    tensor_at (data img') 0 0 0 0 = Some x /\
    nth_error lower_bound 0 = Some (Fin lo) /\
    nth_error upper_bound 0 = Some (Fin hi) /\
    (is_nan x \/ in_range lo hi x) /\
    in_range lo hi x.
Proof.
  destruct (gradient_ascent_const sum_net 0 1 0.09 0 1 5 5)
    as [Hsmooth Hrun]; try lia; [exact sum_net_gradient|].
  eexists. eexists.
  assert (Hat : tensor_at (data (mkTensor
                  (repeat (clamp_planes (repeat (const2d
                     (sadd (Fin 0) (smul (Fin 0.09)
                        (sdiv (Fin (1 * 1 + 1 * 1 + 1 * 1)) (Fin (Rabs (1 * 1 + 1 * 1 + 1 * 1))))))
                     5 5) 3)) 1)
                  (Some (const4d (Fin 0) 1 3 5 5)) true)) 0 0 0 0 = Some _)
    by reflexivity.
  destruct (ascent_step_clamped sum_net dark_image _ 0.09 0 0 0 0 0 _ Hrun Hat)
    as [lo [hi [Hlo [Hhi [Hor Himp]]]]].
  exists lo, hi.
  split; [exact Hrun|]. split; [exact Hat|]. split; [exact Hlo|]. split; [exact Hhi|].
  split; [exact Hor|].
  apply Himp.
  - intros y Hy. unfold dark_image in Hy. cbn [data] in Hy.
    rewrite flatten4_const in Hy. apply repeat_spec in Hy. subst y. simpl. tauto.
  - eexists. exists (Rabs (1 * 1 + 1 * 1 + 1 * 1)). split; [exact Hsmooth|]. split.
    + apply mean_abs_const. lia.
    + replace (1 * 1 + 1 * 1 + 1 * 1)%R with 3%R by ring.
      rewrite Rabs_pos_eq; lra.
Defined.

(** ** The stages of one ascent step *)







(** *** Elements through the update and the clamp *)






Lemma ascent_sigma_nonzero (cnt : Z) : ascent_sigma cnt <> 0%R.
Proof.
  unfold ascent_sigma. intros E.
  assert (E' : IZR (2 * cnt + 7) = 0%R) by (rewrite plus_IZR, mult_IZR; lra).
  apply eq_IZR in E'. lia.
Qed.












(** ** The three smoothing weights against three Gaussian kernels *)

(** What the description of the filter asks for: the normalized 2-D Gaussian
    kernel of one standard deviation, the product of the Gaussian of each
    dimension, as a depthwise weight. *)
Definition gaussian2d (k : nat) (s : R) : list (list R) :=
  rmul2d (map2d (gauss_r k s) (grid_rows k)) (map2d (gauss_r k s) (grid_cols k)).

Definition normalized_gaussian2d (k : nat) (s : R) : list (list R) :=
  map2d (fun r => (r / rsum (concat (gaussian2d k s)))%R) (gaussian2d k s).

Definition gaussian_weight (channels k : nat) (s : R) : tensor4 :=
  repeat [map2d Fin (normalized_gaussian2d k s)] channels.

Definition entry2 {A : Type} (m : list (list A)) (i j : nat) : option A :=
  match nth_error m i with
  | Some row => nth_error row j
  | None => None
  end.

Lemma entry2_map2d {A B : Type} (f : A -> B) (m : list (list A)) (i j : nat) :
  entry2 (map2d f m) i j = option_map f (entry2 m i j).
Proof.
  unfold entry2, map2d. rewrite nth_error_map.
  destruct (nth_error m i) as [row|]; [|reflexivity]. simpl. apply nth_error_map.
Qed.

Lemma gaussian2d_center (s : R) :
  entry2 (gaussian2d 9 s) 4 4 = Some (gauss_r 9 s (INR 4) * gauss_r 9 s (INR 4))%R /\
  entry2 (gaussian2d 9 s) 4 5 = Some (gauss_r 9 s (INR 4) * gauss_r 9 s (INR 5))%R.
Proof. split; reflexivity. Qed.

Lemma gauss_r_center (s : R) :
  s <> 0%R -> gauss_r 9 s (INR 4) = (1 / (s * sqrt (2 * PI)))%R.
Proof.
  intros Hs. unfold gauss_r.
  replace (INR 4) with 4%R by (simpl; lra). replace (INR 9) with 9%R by (simpl; lra).
  replace (- ((4 - (9 - 1) / 2) / s * ((4 - (9 - 1) / 2) / s)) / 2)%R with 0%R
    by (field; exact Hs).
  rewrite exp_0. ring.
Qed.

Lemma gauss_r_next (s : R) :
  s <> 0%R ->
  gauss_r 9 s (INR 5) = (1 / (s * sqrt (2 * PI)) * exp (- (1 / (2 * (s * s)))))%R.
Proof.
  intros Hs. unfold gauss_r.
  replace (INR 5) with 5%R by (simpl; lra). replace (INR 9) with 9%R by (simpl; lra).
  do 2 f_equal. field. exact Hs.
Qed.

Lemma gaussian2d_pos (k : nat) (s : R) : (0 < s)%R -> pos2d k (gaussian2d k s).
Proof.
  intros Hs. apply pos2d_rmul2d; [now apply pos2d_gauss_rows | now apply pos2d_gauss_cols].
Qed.

Lemma ratio_eq {c1 c2 z1 z2 e1 e2 : R} :
  (0 < c1)%R -> (0 < c2)%R -> (0 < z1)%R -> (0 < z2)%R ->
  (c1 * c1 / z1 = c2 * c2 / z2)%R ->
  (c1 * (c1 * e1) / z1 = c2 * (c2 * e2) / z2)%R ->
  e1 = e2.
Proof.
  intros Hc1 Hc2 Z1 Z2 E44 E45.
  assert (Hk : (0 < c1 * c1 / z1)%R).
  { apply Rdiv_lt_0_compat; [now apply Rmult_lt_0_compat | exact Z1]. }
  assert (E1 : (c1 * (c1 * e1) / z1 = c1 * c1 / z1 * e1)%R) by (field; lra).
  assert (E2 : (c2 * (c2 * e2) / z2 = c2 * c2 / z2 * e2)%R) by (field; lra).
  rewrite E1, E2, <- E44 in E45.
  apply (Rmult_eq_reg_l (c1 * c1 / z1)); [exact E45 | lra].
Qed.

Lemma inv_square_inj (s1 s2 : R) :
  (0 < s1)%R -> (0 < s2)%R ->
  (- (1 / (2 * (s1 * s1))) = - (1 / (2 * (s2 * s2))))%R -> s1 = s2.
Proof.
  intros H1 H2 He.
  assert (P1 : (0 < s1 * s1)%R) by now apply Rmult_lt_0_compat.
  assert (P2 : (0 < s2 * s2)%R) by now apply Rmult_lt_0_compat.
  assert (Hsq : (s1 * s1 = s2 * s2)%R).
  { assert (Hinv : (/ (s1 * s1) = / (s2 * s2))%R).
    { apply (Rmult_eq_reg_l (- (1 / 2))); [|lra].
      transitivity (- (1 / (2 * (s1 * s1))))%R; [field; lra|].
      rewrite He. field. lra. }
    rewrite <- (Rinv_inv (s1 * s1)), Hinv, Rinv_inv. reflexivity. }
  destruct (Rtotal_order s1 s2) as [Hlt|[Heq|Hgt]]; [|exact Heq|].
  - assert (s1 * s1 < s2 * s2)%R by (apply Rmult_le_0_lt_compat; lra). lra.
  - assert (s2 * s2 < s1 * s1)%R by (apply Rmult_le_0_lt_compat; lra). lra.
Qed.

(** Two normalized Gaussian kernels of size 9 with different standard
    deviations differ: next to the centre they fall off at different rates. *)
Lemma normalized_gaussian2d_inj (s1 s2 : R) :
  (0 < s1)%R -> (0 < s2)%R ->
  normalized_gaussian2d 9 s1 = normalized_gaussian2d 9 s2 -> s1 = s2.
Proof.
  intros H1 H2 E.
  assert (E44 : entry2 (normalized_gaussian2d 9 s1) 4 4 = entry2 (normalized_gaussian2d 9 s2) 4 4)
    by now rewrite E.
  assert (E45 : entry2 (normalized_gaussian2d 9 s1) 4 5 = entry2 (normalized_gaussian2d 9 s2) 4 5)
    by now rewrite E.
  clear E. unfold normalized_gaussian2d in E44, E45.
  assert (Z1 : (0 < rsum (concat (gaussian2d 9 s1)))%R)
    by (apply (pos2d_sum (k := 9)); [lia | now apply gaussian2d_pos]).
  assert (Z2 : (0 < rsum (concat (gaussian2d 9 s2)))%R)
    by (apply (pos2d_sum (k := 9)); [lia | now apply gaussian2d_pos]).
  remember (rsum (concat (gaussian2d 9 s1))) as z1 eqn:Hz1. clear Hz1.
  remember (rsum (concat (gaussian2d 9 s2))) as z2 eqn:Hz2. clear Hz2.
  rewrite !entry2_map2d in E44, E45.
  rewrite (proj1 (gaussian2d_center s1)), (proj1 (gaussian2d_center s2)) in E44.
  rewrite (proj2 (gaussian2d_center s1)), (proj2 (gaussian2d_center s2)) in E45.
  cbn [option_map] in E44, E45. injection E44 as E44. injection E45 as E45.
  rewrite !gauss_r_center in E44, E45 by lra.
  rewrite !gauss_r_next in E45 by lra.
  pose proof sqrt_2PI_pos as Hq.
  assert (Hc1 : (0 < 1 / (s1 * sqrt (2 * PI)))%R)
    by (apply Rdiv_lt_0_compat; [lra | now apply Rmult_lt_0_compat]).
  assert (Hc2 : (0 < 1 / (s2 * sqrt (2 * PI)))%R)
    by (apply Rdiv_lt_0_compat; [lra | now apply Rmult_lt_0_compat]).
  pose proof (ratio_eq Hc1 Hc2 Z1 Z2 E44 E45) as He.
  apply exp_inv in He. now apply inv_square_inj.
Qed.

Lemma map2d_Fin_inj (a b : list (list R)) : map2d Fin a = map2d Fin b -> a = b.
Proof.
  unfold map2d. revert b. induction a as [|ra a IH]; intros [|rb b] H; simpl in H;
    try discriminate; [reflexivity|].
  injection H as Hr Ha. f_equal; [|now apply IH].
  clear - Hr. revert rb Hr. induction ra as [|x ra IH]; intros [|y rb] H; simpl in H;
    try discriminate; [reflexivity|].
  injection H as -> Hr. f_equal. now apply IH.
Qed.

Lemma gaussian_weight_inj (s1 s2 : R) :
  (0 < s1)%R -> (0 < s2)%R ->
  gaussian_weight 3 9 s1 = gaussian_weight 3 9 s2 -> s1 = s2.
Proof.
  intros H1 H2 E. unfold gaussian_weight in E.
  apply (f_equal (fun w : tensor4 => hd [] (hd [] w))) in E.
  cbn [repeat hd] in E.
  apply map2d_Fin_inj in E. now apply normalized_gaussian2d_inj.
Qed.

(** C3 on the code, at the filter that the first iteration builds
    ([GaussianSmoothing(3, 9, 0.7)]).  The constructor succeeds, but its
    three weights are one and the same tensor: the normalized product of all
    six Gaussian factors.  They are therefore not the three normalized
    Gaussian kernels of standard deviations [0.5 * sigma], [1.0 * sigma] and
    [2.0 * sigma]. *)
Theorem smoothing_weights_coincide :
  exists gs,
    GaussianSmoothing_init 3 KERNEL_SIZE (ascent_sigma 0) = Ok gs /\
    weight1 gs = weight2 gs /\ weight2 gs = weight3 gs /\
    weight1 gs
      = repeat [normalize_kernel
                  (map2d Fin (product_kernel KERNEL_SIZE (ascent_sigma 0)))] 3 /\
    ~ (weight1 gs = gaussian_weight 3 KERNEL_SIZE (0.5 * ascent_sigma 0) /\
       weight2 gs = gaussian_weight 3 KERNEL_SIZE (1.0 * ascent_sigma 0) /\
       weight3 gs = gaussian_weight 3 KERNEL_SIZE (2.0 * ascent_sigma 0)).
Proof.
  assert (Hs : (0 < ascent_sigma 0)%R) by (apply ascent_sigma_pos; lia).
  eexists. split; [apply GaussianSmoothing_init_value; lra|].
  cbn zeta. cbn [weight1 weight2 weight3].
  split; [reflexivity|]. split; [reflexivity|]. split; [reflexivity|].
  intros [E1 [E2 _]]. rewrite E1 in E2.
  apply gaussian_weight_inj in E2; lra.
Qed.

(** ** The octave driver: [deep_dream] *)

Definition zeros_like3 (img : image) : image := map3d (fun _ => Fin 0) img.

Definition operands_mismatch : exn :=
  ValueError "operands could not be broadcast together".

(** Element-wise combination of two arrays of one shape ([a + b], [a - b] of
    numpy; the broadcasting of axes of size one is not modelled). *)
Definition image_zip (f : scalar -> scalar -> scalar) (a b : image) : outcome image :=
  zip_strict operands_mismatch (zip_strict operands_mismatch
    (zip_strict operands_mismatch (fun x y => Ok (f x y)))) a b.

(** [(px - IMAGENET_MEAN_1) / IMAGENET_STD_1] on the channels of one pixel,
    with numpy's broadcasting of the last axis. *)
Definition preprocess_pixel (px : list scalar) : outcome (list scalar) :=
  let normalize x (ms : R * R) := sdiv (ssub x (Fin (fst ms))) (Fin (snd ms)) in
  let stats := combine IMAGENET_MEAN_1 IMAGENET_STD_1 in
  if length px =? length stats then Ok (zip_with normalize px stats)
  else if length px =? 1 then Ok (map (normalize (hd NaN px)) stats)
  else Raise operands_mismatch.

Definition preprocess (img : image) : outcome image :=
  mapM (mapM preprocess_pixel) img.

(** [transforms.ToTensor()] on a float array: height x width x channel
    becomes channel x height x width, values unchanged. *)
Definition hwc_to_chw (img : image) : tensor3 :=
  let channels := length (hd [] (hd [] img)) in
  map (fun c => map (map (fun px => nth c px NaN)) img) (seq 0 channels).

(** [np.moveaxis(t, 0, 2)]: channel x height x width becomes height x width x channel. *)
Definition chw_to_hwc (t : tensor3) : image :=
  let H := length (hd [] t) in
  let W := length (hd [] (hd [] t)) in
  map (fun h => map (fun w => map (fun plane => nth w (nth h plane []) NaN) t) (seq 0 W))
      (seq 0 H).

(** [transforms.ToTensor()(img).to(device).unsqueeze(0)], [requires_grad = True]. *)
Definition pytorch_input_adapter (img : image) : tensor :=
  mkTensor [hwc_to_chw img] None true.

(** [np.moveaxis(img.to('cpu').detach().numpy()[0], 0, 2)]. *)
Definition pytorch_output_adapter (t : tensor) : outcome image :=
  match data t with
  | [] => Raise IndexError
  | first :: _ => Ok (chw_to_hwc first)
  end.

(** The configuration constants of [deep_dream]. *)
Definition pyramid_size : Z := 4.
Definition pyramid_ratio : R := (1 / 1.4)%R.
Definition n_iter : Z := 10.
Definition dream_lr : R := 0.09%R.
Definition jitter : Z := 100.

(** [enumerate(l)]. *)
Definition enumerate {A : Type} (l : list A) : list (nat * A) :=
  combine (seq 0 (length l)) l.

Section Driver.

(** The collaborators: the network, OpenCV's two forms of [cv.resize]
    ([cv_resize img fx fy] for [(0, 0), fx=, fy=], which can raise, and
    [cv_resize_to img w h] for the explicit size [(w, h)]), and the random
    number generator, whose state is threaded through: [randint2 low high g]
    is [np.random.randint(low, high, 2)].  The driver asks [cv_resize_to]
    for the height and width of a pyramid level, an image that a resize has
    returned, and gives it the detail of the level before: a size and an
    image that are not empty, which OpenCV does not refuse. *)
Variable net : network.
Variable cv_resize : image -> R -> R -> outcome image.
Variable cv_resize_to : image -> Z -> Z -> image.
Variable rng : Type.
Variable randint2 : Z -> Z -> rng -> (Z * Z) * rng.

(** The body of the inner loop [for i in range(n_iter)]. *)
Definition dream_iteration (st : tensor * rng) (i : Z) : outcome (tensor * rng) :=
  let '(input_tensor, g) := st in
  let '((h_shift, w_shift), g) := randint2 (- jitter) (jitter + 1) g in
  let input_tensor := random_circular_spatial_shift input_tensor h_shift w_shift false in
  '(_, input_tensor) <- gradient_ascent net input_tensor dream_lr i ;;
  let input_tensor := random_circular_spatial_shift input_tensor h_shift w_shift true in
  Ok (input_tensor, g).

(** The work of one octave on its input image: the conversion to a tensor,
    the [n_iter] iterations, and the conversion back. *)
Definition dream_octave (input_img : image) (g : rng) : outcome (tensor * rng) :=
  let input_tensor := pytorch_input_adapter input_img in
  foldM dream_iteration (range n_iter) (input_tensor, g).

(** The body of the outer loop [for octave, octave_base in enumerate(reversed(img_pyramid))];
    its state is ([detail], [best_img], generator). *)
Definition octave_step (st : image * image * rng) (oc : nat * image)
  : outcome (image * image * rng) :=
  let '(detail, best_img, g) := st in
  let '(octave, octave_base) := oc in
  let '(h, w) := shape2 octave_base in
  let detail := if 0 <? octave then cv_resize_to detail w h else detail in
  input_img <- image_zip sadd octave_base detail ;;
  '(input_tensor, g) <- dream_octave input_img g ;;
  out <- pytorch_output_adapter input_tensor ;;
  detail <- image_zip ssub out octave_base ;;
  current_img <- pytorch_output_adapter input_tensor ;;
  let best_img := current_img in
  Ok (detail, best_img, g).

Definition deep_dream (img : image) (g : rng) : outcome (image * rng) :=
  base_img <- preprocess img ;;
  img_pyramid <- create_image_pyramid cv_resize base_img pyramid_size pyramid_ratio ;;
  let detail := zeros_like3 (last img_pyramid []) in
  let best_img : image := [] in
  '(_, best_img, g) <- foldM octave_step (enumerate (rev img_pyramid)) (detail, best_img, g) ;;
  Ok (best_img, g).

(** The driver as the state machine of its description: the octaves are
    taken from the coarsest to the finest; the first is entered with the
    initial detail, every later one with the detail resized to its height
    and width; each octave optimizes [base + detail] and leaves
    [detail = result - base] and its result as the running best output; the
    terminal state returns the last result. *)
Fixpoint octave_machine (first : bool) (octaves : list image) (detail best : image) (g : rng)
  : outcome (image * rng) :=
  match octaves with
  | [] => Ok (best, g)
  | base :: finer =>
      let '(h, w) := shape2 base in
      let detail := if first then detail else cv_resize_to detail w h in
      input <- image_zip sadd base detail ;;
      '(t, g) <- dream_octave input g ;;
      result <- pytorch_output_adapter t ;;
      detail <- image_zip ssub result base ;;
      octave_machine false finer detail result g
  end.

Definition octave_driver (img : image) (g : rng) : outcome (image * rng) :=
  base_img <- preprocess img ;;
  pyramid <- create_image_pyramid cv_resize base_img 4 (1 / 1.4) ;;
  let coarsest_first := rev pyramid in
  octave_machine true coarsest_first (zeros_like3 (hd [] coarsest_first)) [] g.

End Driver.

Arguments dream_iteration net {rng} randint2 st i.
Arguments dream_octave net {rng} randint2 input_img g.
Arguments octave_step net cv_resize_to {rng} randint2 st oc.
Arguments deep_dream net cv_resize cv_resize_to {rng} randint2 img g.
Arguments octave_machine net cv_resize_to {rng} randint2 first octaves detail best g.
Arguments octave_driver net cv_resize cv_resize_to {rng} randint2 img g.

(** ** The driver loop is the state machine *)

Section DriverProofs.

Variable net : network.
Variable cv_resize : image -> R -> R -> outcome image.
Variable cv_resize_to : image -> Z -> Z -> image.
Variable rng : Type.
Variable randint2 : Z -> Z -> rng -> (Z * Z) * rng.

Lemma hd_rev_last {A : Type} (l : list A) (d : A) : hd d (rev l) = last l d.
Proof.
  induction l as [|x l IH] using rev_ind; [reflexivity|].
  now rewrite rev_app_distr, last_last.
Qed.

Lemma octave_loop_is_machine (octaves : list image) (start : nat) (detail best : image) (g : rng) :
  ('(_, best_img, g') <-
     foldM (octave_step net cv_resize_to randint2)
           (combine (seq start (length octaves)) octaves) (detail, best, g) ;;
   Ok (best_img, g'))
  = octave_machine net cv_resize_to randint2 (start =? 0) octaves detail best g.
Proof.
  revert start detail best g.
  induction octaves as [|base finer IH]; intros start detail best g; [reflexivity|].
  cbn [length seq combine foldM octave_machine]. unfold octave_step at 1.
  destruct (shape2 base) as [h w].
  assert (Hdetail : (if 0 <? start then cv_resize_to detail w h else detail)
                    = (if start =? 0 then detail else cv_resize_to detail w h))
    by (destruct start; reflexivity).
  rewrite Hdetail.
  destruct (image_zip sadd base _) as [input|e]; [|reflexivity]. cbn [bind].
  destruct (dream_octave net randint2 input g) as [[t g1]|e]; [|reflexivity]. cbn [bind].
  destruct (pytorch_output_adapter t) as [out|e]; [|reflexivity]. cbn [bind].
  destruct (image_zip ssub out base) as [detail'|e]; [|reflexivity]. cbn [bind].
  apply (IH (S start)).
Qed.

Lemma deep_dream_is_octave_driver (img : image) (g : rng) :
  deep_dream net cv_resize cv_resize_to randint2 img g
  = octave_driver net cv_resize cv_resize_to randint2 img g.
Proof.
  unfold deep_dream, octave_driver.
  destruct (preprocess img) as [base_img|e]; [|reflexivity]. cbn [bind].
  change pyramid_size with 4%Z. change pyramid_ratio with (1 / 1.4)%R.
  destruct (create_image_pyramid cv_resize base_img 4 (1 / 1.4)) as [pyr|e]; [|reflexivity].
  cbn [bind]. unfold enumerate.
  rewrite (octave_loop_is_machine (rev pyr) 0). now rewrite hd_rev_last.
Qed.

End DriverProofs.

(** ** Shapes through the driver *)

Definition shape3d {A : Type} (t : list (list (list A))) (a b c : nat) : Prop :=
  length t = a /\ Forall (fun m => shape2d m b c) t.

Definition shape4d {A : Type} (t : list (list (list (list A)))) (n c h w : nat) : Prop :=
  length t = n /\ Forall (fun x => shape3d x c h w) t.

Lemma zip_strict_Forall {A B C : Type} {e : exn} {f : A -> B -> outcome C}
  (P : A -> Prop) (Q : C -> Prop) {l1 : list A} {l2 : list B} {l : list C} :
  zip_strict e f l1 l2 = Ok l -> Forall P l1 ->
  (forall x y z, P x -> f x y = Ok z -> Q z) ->
  length l = length l1 /\ Forall Q l.
Proof.
  intros H HP HQ. destruct (zip_strict_Ok_inv e f l1 l2 l H) as [L1 [_ Hin]].
  split; [now rewrite L1|]. apply Forall_forall. intros z Hz.
  destruct (Hin z Hz) as [x [y [Hx [_ Hf]]]].
  rewrite Forall_forall in HP. eauto.
Qed.

Lemma zip_row_length {e : exn} {f : scalar -> scalar -> scalar} {w : nat}
  {r1 r2 r : list scalar} :
  length r1 = w -> zip_strict e (fun x y => Ok (f x y)) r1 r2 = Ok r -> length r = w.
Proof.
  intros L H. apply zip_strict_Ok_inv in H. destruct H as [L1 _]. congruence.
Qed.

Lemma zip_plane_shape {e : exn} {f : scalar -> scalar -> scalar} {h w : nat}
  {p1 p2 p : list (list scalar)} :
  shape2d p1 h w ->
  zip_strict e (zip_strict e (fun x y => Ok (f x y))) p1 p2 = Ok p -> shape2d p h w.
Proof.
  intros [L F] H.
  destruct (zip_strict_Forall (fun r => length r = w) (fun r => length r = w) H F) as [L' F'].
  - intros r1 r2 r Hr Hz. exact (zip_row_length Hr Hz).
  - split; [congruence | exact F'].
Qed.

Lemma image_zip_shape (f : scalar -> scalar -> scalar) (a b c : image) (H W C : nat) :
  shape3d a H W C -> image_zip f a b = Ok c -> shape3d c H W C.
Proof.
  unfold image_zip. intros [L F] Hz.
  destruct (zip_strict_Forall (fun r => shape2d r W C) (fun r => shape2d r W C) Hz F) as [L' F'].
  - intros r1 r2 r Hr Hr'. exact (zip_plane_shape Hr Hr').
  - split; [congruence | exact F'].
Qed.

Lemma zip4_strict_shape (f : scalar -> scalar -> scalar) (a b c : tensor4) (N C H W : nat) :
  shape4d a N C H W -> zip4_strict f a b = Ok c -> shape4d c N C H W.
Proof.
  unfold zip4_strict. intros [L F] Hz.
  destruct (zip_strict_Forall (fun x => shape3d x C H W) (fun x => shape3d x C H W) Hz F) as [L' F'].
  - intros x1 x2 x [Lx Fx] Hx.
    destruct (zip_strict_Forall (fun r => shape2d r H W) (fun r => shape2d r H W) Hx Fx) as [Lx' Fx'].
    + intros r1 r2 r Hr Hr'. exact (zip_plane_shape Hr Hr').
    + split; [congruence | exact Fx'].
  - split; [congruence | exact F'].
Qed.

Lemma shape2d_map2d {A B : Type} (f : A -> B) (m : list (list A)) (h w : nat) :
  shape2d m h w -> shape2d (map2d f m) h w.
Proof.
  unfold shape2d, map2d. intros [L F]. split; [now rewrite length_map|].
  apply Forall_map. eapply Forall_impl; [|exact F]. intros r Hr. now rewrite length_map.
Qed.

Lemma In_roll {A : Type} (k : Z) (l : list A) (x : A) : In x (roll k l) -> In x l.
Proof.
  unfold roll. intros H.
  rewrite <- (firstn_skipn (length l - Z.to_nat (k mod Z.of_nat (length l))) l).
  apply in_or_app. apply in_app_or in H. tauto.
Qed.

Lemma roll_plane_shape (hs ws : Z) (p : matrix) (h w : nat) :
  shape2d p h w -> shape2d (map (roll ws) (roll hs p)) h w.
Proof.
  intros [L F]. split.
  - now rewrite length_map, length_roll.
  - apply Forall_map, Forall_forall. intros r Hr. apply In_roll in Hr.
    rewrite length_roll. rewrite Forall_forall in F. now apply F.
Qed.

Lemma torch_roll_shape (t : tensor4) (hs ws : Z) (N C H W : nat) :
  shape4d t N C H W -> shape4d (torch_roll t hs ws) N C H W.
Proof.
  unfold torch_roll. intros [L F]. split; [now rewrite length_map|].
  apply Forall_map. eapply Forall_impl; [|exact F]. intros x [Lx Fx].
  split; [now rewrite length_map|].
  apply Forall_map. eapply Forall_impl; [|exact Fx]. intros p Hp.
  now apply roll_plane_shape.
Qed.

Lemma Forall2_Forall_r {A B : Type} {R : A -> B -> Prop} (P : A -> Prop) (Q : B -> Prop)
  {l : list A} {l' : list B} :
  Forall2 R l l' -> Forall P l -> (forall x y, P x -> R x y -> Q y) ->
  length l' = length l /\ Forall Q l'.
Proof.
  intros H. induction H as [|x y l l' Hxy _ IH]; intros HP HQ.
  - split; [reflexivity | constructor].
  - inversion HP; subst. destruct IH as [L F]; [assumption | assumption |].
    split; [simpl; lia | constructor; eauto].
Qed.

Lemma with_channel_bound_shape op bound {t t' : tensor4} {N H W : nat} :
  length bound = 3 ->
  shape4d t N 3 H W -> with_channel_bound op bound t = Ok t' -> shape4d t' N 3 H W.
Proof.
  intros Hb [L F] Hrun. rewrite with_channel_bound_unfold in Hrun.
  apply mapM_Ok_inv in Hrun.
  destruct (Forall2_Forall_r (fun x => shape3d x 3 H W) (fun x => shape3d x 3 H W) Hrun F)
    as [L' F'].
  - intros x y [Lx Fx] Hop. destruct (channel_op_spec _ _ _ _ Hop) as [Ly Hy].
    split; [congruence|]. apply Forall_forall. intros p' Hp'.
    apply In_nth_error in Hp'. destruct Hp' as [c Hc].
    destruct (Hy c p' Hc) as [b [p [_ [Hp ->]]]].
    apply shape2d_map2d. rewrite Forall_forall in Fx. now apply Fx.
  - split; [congruence | exact F'].
Qed.

Lemma clamp_to_bounds_shape (t t' : tensor4) (N H W : nat) :
  shape4d t N 3 H W -> clamp_to_bounds t = Ok t' -> shape4d t' N 3 H W.
Proof.
  unfold clamp_to_bounds. intros Hs Hrun.
  apply bind_Ok_inv in Hrun. destruct Hrun as [capped [Hc Hm]].
  eapply with_channel_bound_shape; [| |exact Hm].
  - now rewrite lower_bound_values.
  - eapply with_channel_bound_shape; [| exact Hs | exact Hc].
    now rewrite upper_bound_values.
Qed.

(** One ascent step leaves the shape of the tensor as it was. *)
Lemma gradient_ascent_shape (net : network) (t t' : tensor) (lr : R) (cnt : Z) (u : unit)
  (N H W : nat) :
  shape4d (data t) N 3 H W -> gradient_ascent net t lr cnt = Ok (u, t') ->
  shape4d (data t') N 3 H W.
Proof.
  intros Hs Hrun.
  destruct (gradient_ascent_inv Hrun) as [t1 [s [updated [_ [_ [Hzip [Hclamp _]]]]]]].
  eapply clamp_to_bounds_shape; [|exact Hclamp].
  eapply zip4_strict_shape; [exact Hs | exact Hzip].
Qed.

Lemma hwc_to_chw_shape (img : image) (H W C : nat) :
  1 <= H -> 1 <= W -> shape3d img H W C -> shape3d (hwc_to_chw img) C H W.
Proof.
  intros HH HW [L F]. unfold hwc_to_chw.
  assert (Hc : length (hd [] (hd [] img)) = C).
  { destruct img as [|row img']; simpl in L; [lia|]. inversion F as [|? ? [Lr Fr] _]; subst.
    simpl. destruct row as [|px row']; simpl in *; [lia|]. now inversion Fr. }
  rewrite Hc. split; [now rewrite length_map, length_seq|].
  apply Forall_map, Forall_forall. intros c _. split; [now rewrite length_map|].
  apply Forall_map. eapply Forall_impl; [|exact F]. intros row [Lr _].
  now rewrite length_map.
Qed.

Lemma chw_to_hwc_shape (t : tensor3) (C H W : nat) :
  1 <= C -> shape3d t C H W -> shape3d (chw_to_hwc t) H W C.
Proof.
  intros HC [L F]. unfold chw_to_hwc.
  destruct t as [|p t']; simpl in L; [lia|].
  inversion F as [|? ? [Lp Fp] _]; subst. cbn [hd].
  split; [now rewrite length_map, length_seq|].
  apply Forall_map, Forall_forall. intros h Hh. apply in_seq in Hh.
  assert (Hw : length (hd [] p) = W).
  { destruct p as [|r p']; simpl in *; [lia|]. now inversion Fp. }
  rewrite Hw. split; [now rewrite length_map, length_seq|].
  apply Forall_map, Forall_forall. intros w _. now rewrite length_map.
Qed.

Lemma pytorch_output_adapter_shape (t : tensor) {r : image} {H W : nat} :
  shape4d (data t) 1 3 H W -> pytorch_output_adapter t = Ok r -> shape3d r H W 3.
Proof.
  unfold pytorch_output_adapter. intros [L F] Hr.
  destruct (data t) as [|first rest]; [discriminate|]. injection Hr as <-.
  inversion F; subst. apply chw_to_hwc_shape; [lia | assumption].
Qed.

Lemma preprocess_pixel_length (px px' : list scalar) :
  preprocess_pixel px = Ok px' -> length px' = 3.
Proof.
  unfold preprocess_pixel. cbn [combine IMAGENET_MEAN_1 IMAGENET_STD_1 length].
  destruct (Nat.eqb_spec (length px) 3) as [E|_].
  - intros H. injection H as <-. rewrite length_zip_with, E. reflexivity.
  - destruct (length px =? 1); intros H; [|discriminate]. now injection H as <-.
Qed.

Lemma preprocess_shape {img b : image} {H W C : nat} :
  shape3d img H W C -> preprocess img = Ok b -> shape3d b H W 3.
Proof.
  unfold preprocess. intros [L F] Hrun. apply mapM_Ok_inv in Hrun.
  destruct (Forall2_Forall_r (fun r => shape2d r W C) (fun r => shape2d r W 3) Hrun F)
    as [L' F'].
  - intros row row' [Lr Fr] Hrow. apply mapM_Ok_inv in Hrow.
    destruct (Forall2_Forall_r (fun px => length px = C) (fun px => length px = 3) Hrow Fr)
      as [Lr' Fr'].
    + intros px px' _ Hpx. now apply preprocess_pixel_length with px.
    + split; [congruence | exact Fr'].
  - split; [congruence | exact F'].
Qed.

Lemma foldM_invariant {A S : Type} (f : S -> A -> outcome S) (P : S -> Prop)
  (l : list A) (s s' : S) :
  (forall s0 x s1, P s0 -> f s0 x = Ok s1 -> P s1) ->
  P s -> foldM f l s = Ok s' -> P s'.
Proof.
  intros Hstep. revert s. induction l as [|x l IH]; intros s Hs H; simpl in H.
  - now injection H as <-.
  - apply bind_Ok_inv in H. destruct H as [s1 [H1 H]]. eauto.
Qed.

Section DriverShapes.

Variable net : network.
Variable cv_resize : image -> R -> R -> outcome image.
Variable cv_resize_to : image -> Z -> Z -> image.
Variable rng : Type.
Variable randint2 : Z -> Z -> rng -> (Z * Z) * rng.

Lemma dream_iteration_shape (st st' : tensor * rng) (i : Z) (H W : nat) :
  shape4d (data (fst st)) 1 3 H W ->
  dream_iteration net randint2 st i = Ok st' ->
  shape4d (data (fst st')) 1 3 H W.
Proof.
  destruct st as [t g]. unfold dream_iteration. cbn [fst].
  destruct (randint2 (- jitter) (jitter + 1) g) as [[hs ws] g1].
  intros Hs Hrun. apply bind_Ok_inv in Hrun. destruct Hrun as [[u t1] [Hga Hrun]].
  injection Hrun as <-. cbn [fst random_circular_spatial_shift data].
  apply torch_roll_shape.
  eapply gradient_ascent_shape; [|exact Hga].
  cbn [random_circular_spatial_shift data]. now apply torch_roll_shape.
Qed.

Lemma dream_octave_shape (input : image) (g g' : rng) (t : tensor) (H W : nat) :
  1 <= H -> 1 <= W -> shape3d input H W 3 ->
  dream_octave net randint2 input g = Ok (t, g') ->
  shape4d (data t) 1 3 H W.
Proof.
  intros HH HW Hs Hrun. unfold dream_octave in Hrun.
  apply (foldM_invariant (dream_iteration net randint2)
           (fun st => shape4d (data (fst st)) 1 3 H W) _ _ (t, g')) in Hrun.
  - exact Hrun.
  - intros s0 i s1. apply dream_iteration_shape.
  - cbn [fst pytorch_input_adapter data]. split; [reflexivity|].
    constructor; [|constructor]. now apply hwc_to_chw_shape.
Qed.

(** The machine's result has the shape of the finest octave's base image. *)
Lemma octave_machine_shape (octaves : list image) (first : bool) (detail best r : image)
  (g g' : rng) (H W : nat) :
  1 <= H -> 1 <= W -> octaves <> [] -> shape3d (last octaves []) H W 3 ->
  octave_machine net cv_resize_to randint2 first octaves detail best g = Ok (r, g') ->
  shape3d r H W 3.
Proof.
  intros HH HW. revert first detail best g.
  induction octaves as [|base finer IH]; intros first detail best g Hne Hlast Hrun;
    [congruence|].
  cbn [octave_machine] in Hrun. destruct (shape2 base) as [h w].
  apply bind_Ok_inv in Hrun. destruct Hrun as [input [Hin Hrun]].
  apply bind_Ok_inv in Hrun. destruct Hrun as [[t g1] [Hoct Hrun]].
  apply bind_Ok_inv in Hrun. destruct Hrun as [result [Hout Hrun]].
  apply bind_Ok_inv in Hrun. destruct Hrun as [detail' [Hsub Hrun]].
  destruct finer as [|next finer'].
  - cbn [octave_machine] in Hrun. injection Hrun as <- <-.
    cbn [last] in Hlast.
    eapply pytorch_output_adapter_shape; [|exact Hout].
    eapply dream_octave_shape; [exact HH | exact HW | | exact Hoct].
    eapply image_zip_shape; [exact Hlast | exact Hin].
  - eapply IH; [discriminate | exact Hlast | exact Hrun].
Qed.

Lemma last_rev_hd {A : Type} (l : list A) (d : A) : last (rev l) d = hd d l.
Proof. destruct l as [|x l]; [reflexivity|]. simpl. apply last_last. Qed.

Lemma shape3d_height_width {img : image} {H W C : nat} :
  1 <= H -> shape3d img H W C -> image_height img = H /\ image_width img = W.
Proof.
  intros HH [L F]. unfold image_height, image_width. split; [exact L|].
  destruct img as [|row img']; simpl in *; [lia|]. inversion F as [|? ? [Lr _] _]. exact Lr.
Qed.


End DriverShapes.

(** ** The step and the driver return when the shapes fit *)

Lemma mapM_total {A B : Type} (f : A -> outcome B) (P : A -> Prop) (Q : B -> Prop)
  {l : list A} :
  Forall P l -> (forall x, P x -> exists y, f x = Ok y /\ Q y) ->
  exists l', mapM f l = Ok l' /\ length l' = length l /\ Forall Q l'.
Proof.
  intros HP Hf. induction HP as [|x l Hx _ [l' [Hl' [Len HQ]]]].
  - exists []. repeat split. constructor.
  - destruct (Hf x Hx) as [y [Hy Qy]]. exists (y :: l'). simpl.
    rewrite Hy, Hl'. simpl. repeat split; [now rewrite Len | now constructor].
Qed.

Lemma zip_strict_total {A B C : Type} (e : exn) (f : A -> B -> outcome C)
  (P : A -> Prop) (P' : B -> Prop) (l1 : list A) (l2 : list B) :
  length l1 = length l2 -> Forall P l1 -> Forall P' l2 ->
  (forall x y, P x -> P' y -> exists z, f x y = Ok z) ->
  exists l, zip_strict e f l1 l2 = Ok l.
Proof.
  intros L H1 H2 Hf. revert l2 L H2.
  induction H1 as [|x l1 Hx _ IH]; intros [|y l2] L H2; simpl in L; try discriminate.
  - now exists [].
  - inversion H2; subst. destruct (Hf x y) as [z Hz]; [assumption | assumption |].
    destruct (IH l2) as [l Hl]; [lia | assumption |].
    exists (z :: l). simpl. now rewrite Hz, Hl.
Qed.

Lemma zip_with_Forall {A B C : Type} (f : A -> B -> C)
  (P : A -> Prop) (P' : B -> Prop) (Q : C -> Prop) {l1 : list A} {l2 : list B} :
  Forall P l1 -> Forall P' l2 -> (forall x y, P x -> P' y -> Q (f x y)) ->
  Forall Q (zip_with f l1 l2).
Proof.
  intros H1. revert l2. induction H1 as [|x l1 Hx _ IH]; intros [|y l2] H2 Hf;
    simpl; try constructor.
  - inversion H2; subst. now apply Hf.
  - inversion H2; subst. now apply IH.
Qed.

Lemma reflect_pad1_total {A : Type} (p : nat) (l : list A) :
  p < length l ->
  exists l', reflect_pad1 p l = Ok l' /\ length l' = length l + 2 * p /\
             forall x, In x l' -> In x l.
Proof.
  intros Hp. unfold reflect_pad1. destruct (Nat.ltb_spec p (length l)); [|lia].
  eexists. split; [reflexivity|]. split.
  - rewrite !length_app, length_rev, !length_firstn.
    assert (length (tl l) = length l - 1) by (destruct l; simpl; lia).
    assert (length (tl (rev l)) = length l - 1)
      by (rewrite <- (length_rev l); destruct (rev l); simpl; lia).
    lia.
  - intros x Hx. apply in_app_or in Hx. destruct Hx as [Hx|Hx].
    + apply in_rev in Hx.
      assert (Hin : In x (tl l)).
      { rewrite <- (firstn_skipn p (tl l)). apply in_or_app. now left. }
      destruct l; [contradiction | now right].
    + apply in_app_or in Hx. destruct Hx as [Hx|Hx]; [exact Hx|].
      assert (Hin : In x (tl (rev l))).
      { rewrite <- (firstn_skipn p (tl (rev l))). apply in_or_app. now left. }
      apply in_rev. destruct (rev l); [contradiction | now right].
Qed.

Lemma reflect_pad_plane_total (p H W : nat) (x : matrix) :
  p < H -> p < W -> shape2d x H W ->
  exists x', reflect_pad_plane p x = Ok x' /\ shape2d x' (H + 2 * p) (W + 2 * p).
Proof.
  intros HH HW [L F]. unfold reflect_pad_plane.
  destruct (mapM_total (reflect_pad1 p) (fun r => length r = W)
              (fun r => length r = W + 2 * p) F) as [rows [Hrows [Lr Fr]]].
  - intros r Hr. destruct (reflect_pad1_total p r) as [r' [Hr' [Lr' _]]]; [lia|].
    exists r'. split; [exact Hr' | lia].
  - rewrite Hrows. cbn [bind].
    destruct (reflect_pad1_total p rows) as [x' [Hx' [Lx' Hin]]]; [lia|].
    exists x'. split; [exact Hx'|]. split; [lia|].
    apply Forall_forall. intros r Hr. rewrite Forall_forall in Fr. now apply Fr, Hin.
Qed.

Lemma reflect_pad_total {p N C H W : nat} {t : tensor4} :
  p < H -> p < W -> shape4d t N C H W ->
  exists t', reflect_pad p t = Ok t' /\ shape4d t' N C (H + 2 * p) (W + 2 * p).
Proof.
  intros HH HW [L F]. unfold reflect_pad.
  destruct (mapM_total (mapM (reflect_pad_plane p)) (fun x => shape3d x C H W)
              (fun x => shape3d x C (H + 2 * p) (W + 2 * p)) F) as [t' [Ht' [Lt Ft]]].
  - intros x [Lx Fx].
    destruct (mapM_total (reflect_pad_plane p) (fun m => shape2d m H W)
                (fun m => shape2d m (H + 2 * p) (W + 2 * p)) Fx) as [x' [Hx' [Lx' Fx']]].
    + intros m Hm. now apply reflect_pad_plane_total.
    + exists x'. split; [exact Hx'|]. split; [lia | exact Fx'].
  - exists t'. split; [exact Ht'|]. split; [lia | exact Ft].
Qed.

Lemma conv_plane_total (w x : matrix) (k Hp Wp : nat) :
  shape2d w k k -> shape2d x Hp Wp -> 1 <= k -> k <= Hp -> k <= Wp ->
  exists y, conv_plane w x = Ok y /\ shape2d y (Hp + 1 - k) (Wp + 1 - k).
Proof.
  intros [Lw Fw] [Lx Fx] Hk HkH HkW. unfold conv_plane.
  assert (Hkw : length (hd [] w) = k).
  { destruct w as [|r w']; simpl in *; [lia|]. now inversion Fw. }
  assert (HW : length (hd [] x) = Wp).
  { destruct x as [|r x']; simpl in *; [lia|]. now inversion Fx. }
  rewrite Lw, Hkw, Lx, HW.
  destruct (Nat.ltb_spec Hp k); [lia|]. destruct (Nat.ltb_spec Wp k); [lia|].
  eexists. split; [reflexivity|]. split; [now rewrite length_map, length_seq|].
  apply Forall_map, Forall_forall. intros i _. now rewrite length_map, length_seq.
Qed.

Lemma Forall_combine_repeat {A B : Type} (a : A) (P : B -> Prop) {l : list B} :
  Forall P l -> Forall (fun ab => fst ab = a /\ P (snd ab)) (combine (repeat a (length l)) l).
Proof.
  induction 1 as [|y l Hy _ IH]; simpl; constructor; auto.
Qed.

Lemma conv2d_total {kernel : matrix} {input : tensor4} {k N C Hp Wp : nat} :
  shape2d kernel k k -> shape4d input N C Hp Wp -> 1 <= k -> k <= Hp -> k <= Wp ->
  exists out, conv2d input (repeat [kernel] C) C = Ok out /\
              shape4d out N C (Hp + 1 - k) (Wp + 1 - k).
Proof.
  intros Hker [L F] Hk HkH HkW. unfold conv2d.
  match goal with |- exists out, mapM ?f input = _ /\ _ =>
    destruct (mapM_total f (fun x => shape3d x C Hp Wp)
                (fun x => shape3d x C (Hp + 1 - k) (Wp + 1 - k)) F) as [out [Hout [Lo Fo]]]
  end.
  - intros img [Li Fi]. rewrite Li, Nat.eqb_refl.
    pose proof (Forall_combine_repeat [kernel] _ Fi) as Hc. rewrite Li in Hc.
    match goal with |- exists y, mapM ?f _ = _ /\ _ =>
      destruct (mapM_total f _ (fun m => shape2d m (Hp + 1 - k) (Wp + 1 - k)) Hc)
        as [y [Hy [Ly Fy]]]
    end.
    + intros [wc plane] [Hwc Hplane]. cbn [fst snd] in *. subst wc. cbn [hd].
      now apply conv_plane_total.
    + exists y. split; [exact Hy|]. split; [|exact Fy].
      rewrite Ly, length_combine, repeat_length. lia.
  - exists out. split; [exact Hout|]. split; [lia | exact Fo].
Qed.

Lemma add4d_shape (a b : tensor4) (N C H W : nat) :
  shape4d a N C H W -> shape4d b N C H W -> shape4d (add4d a b) N C H W.
Proof.
  unfold add4d. intros [La Fa] [Lb Fb]. split; [rewrite length_zip_with; lia|].
  apply (zip_with_Forall _ _ _ _ Fa Fb). intros x y [Lx Fx] [Ly Fy].
  split; [rewrite length_zip_with; lia|].
  apply (zip_with_Forall _ _ _ _ Fx Fy). intros p q [Lp Fp] [Lq Fq].
  split; [rewrite length_zip_with; lia|].
  apply (zip_with_Forall _ _ _ _ Fp Fq). intros r s Lr Ls.
  rewrite length_zip_with. lia.
Qed.

(** Smoothing returns, and keeps the shape, for a three-channel gradient
    whose height and width exceed the padding. *)
Lemma smooth_total {cnt : Z} {g : tensor4} {N H W : nat} :
  (0 <= cnt)%Z -> 4 < H -> 4 < W -> shape4d g N 3 H W ->
  exists s, smooth cnt g = Ok s /\ shape4d s N 3 H W.
Proof.
  intros Hcnt HH HW Hg. unfold smooth.
  pose proof (ascent_sigma_pos Hcnt) as Hs.
  rewrite GaussianSmoothing_init_value by lra. cbn zeta.
  destruct (unit_weight_spec (k := KERNEL_SIZE) Hs) as [Hw [Hshape _]];
    [unfold KERNEL_SIZE; lia|].
  rewrite Hw. cbn [bind]. unfold GaussianSmoothing_forward.
  cbn [pad weight1 weight2 weight3 groups]. change (KERNEL_SIZE / 2) with 4.
  destruct (reflect_pad_total (p := 4) HH HW Hg) as [padded [Hpad Hps]].
  rewrite Hpad. cbn [bind].
  assert (Hk : shape2d (map2d Fin (unit_weight KERNEL_SIZE (ascent_sigma cnt))) 9 9)
    by now apply shape2d_map2d.
  destruct (conv2d_total Hk Hps) as [out [Hout Hos]]; try lia.
  rewrite Hout. cbn [bind].
  replace (H + 2 * 4 + 1 - 9) with H in Hos by lia.
  replace (W + 2 * 4 + 1 - 9) with W in Hos by lia.
  eexists. split; [reflexivity|]. now repeat apply add4d_shape.
Qed.

Lemma zip_row_total (e : exn) (f : scalar -> scalar -> scalar) (r1 r2 : list scalar) :
  length r1 = length r2 -> exists r, zip_strict e (fun x y => Ok (f x y)) r1 r2 = Ok r.
Proof.
  intros L.
  apply (zip_strict_total e _ (fun _ => True) (fun _ => True)); auto.
  - apply Forall_forall. auto.
  - apply Forall_forall. auto.
  - intros x y _ _. eauto.
Qed.

Lemma zip_plane_total (e : exn) (f : scalar -> scalar -> scalar) (p1 p2 : matrix) (h w : nat) :
  shape2d p1 h w -> shape2d p2 h w ->
  exists p, zip_strict e (zip_strict e (fun x y => Ok (f x y))) p1 p2 = Ok p.
Proof.
  intros [L1 F1] [L2 F2].
  apply (zip_strict_total e _ (fun r => length r = w) (fun r => length r = w));
    [lia | assumption | assumption |].
  intros r1 r2 Hr1 Hr2. apply zip_row_total. lia.
Qed.

Lemma image_zip_total (f : scalar -> scalar -> scalar) {a b : image} {H W C : nat} :
  shape3d a H W C -> shape3d b H W C -> exists c, image_zip f a b = Ok c.
Proof.
  intros [L1 F1] [L2 F2]. unfold image_zip.
  apply (zip_strict_total _ _ (fun r => shape2d r W C) (fun r => shape2d r W C));
    [lia | assumption | assumption |].
  intros r1 r2. apply zip_plane_total.
Qed.

Lemma zip4_strict_total (f : scalar -> scalar -> scalar) (a b : tensor4) {N C H W : nat} :
  shape4d a N C H W -> shape4d b N C H W -> exists c, zip4_strict f a b = Ok c.
Proof.
  intros [L1 F1] [L2 F2]. unfold zip4_strict.
  apply (zip_strict_total _ _ (fun x => shape3d x C H W) (fun x => shape3d x C H W));
    [lia | assumption | assumption |].
  intros x y [Lx Fx] [Ly Fy].
  apply (zip_strict_total _ _ (fun r => shape2d r H W) (fun r => shape2d r H W));
    [lia | assumption | assumption |].
  intros r1 r2. apply zip_plane_total.
Qed.

Lemma map4d_shape (f : scalar -> scalar) (t : tensor4) (N C H W : nat) :
  shape4d t N C H W -> shape4d (map4d f t) N C H W.
Proof.
  unfold map4d, map3d. intros [L F]. split; [now rewrite length_map|].
  apply Forall_map. eapply Forall_impl; [|exact F]. intros x [Lx Fx].
  split; [now rewrite length_map|].
  apply Forall_map. eapply Forall_impl; [|exact Fx]. intros p. apply shape2d_map2d.
Qed.

Lemma with_channel_bound_total op bound {t : tensor4} {N H W : nat} :
  length bound = 3 -> shape4d t N 3 H W ->
  exists t', with_channel_bound op bound t = Ok t'.
Proof.
  intros Hb [L F]. rewrite with_channel_bound_unfold.
  destruct (mapM_total (channel_op op bound) (fun x => shape3d x 3 H W) (fun _ => True) F)
    as [t' [Ht' _]].
  - intros x [Lx _]. unfold channel_op. rewrite Lx, Hb. cbn [Nat.eqb]. eauto.
  - eauto.
Qed.

Lemma clamp_to_bounds_total {t : tensor4} {N H W : nat} :
  shape4d t N 3 H W -> exists t', clamp_to_bounds t = Ok t'.
Proof.
  intros Hs. unfold clamp_to_bounds.
  assert (Hu : length upper_bound = 3) by now rewrite upper_bound_values.
  assert (Hl : length lower_bound = 3) by now rewrite lower_bound_values.
  destruct (with_channel_bound_total smin upper_bound Hu Hs) as [capped Hc].
  rewrite Hc. cbn [bind].
  apply (with_channel_bound_total smax lower_bound (N := N) (H := H) (W := W) Hl).
  exact (with_channel_bound_shape smin upper_bound Hu Hs Hc).
Qed.

(** Backpropagation returns a gradient of the shape of its input. *)
Definition grad_shaped (net : network) : Prop :=
  forall (x c : tensor4) (N C H W : nat),
    shape4d x N C H W -> shape4d (backprop net x c) N C H W.

(** The ascent step returns for a three-channel tensor with a fresh
    gradient whose height and width exceed the padding of the filter. *)
Lemma gradient_ascent_total {net : network} (t : tensor) (lr : R) (cnt : Z) {N H W : nat} :
  grad_shaped net -> requires_grad t = true -> grad t = None ->
  shape4d (data t) N 3 H W -> 4 < H -> 4 < W -> (0 <= cnt)%Z ->
  exists t', gradient_ascent net t lr cnt = Ok (tt, t').
Proof.
  intros Hnet Hrg Hgrad Hs HH HW Hcnt.
  unfold gradient_ascent, loss_backward, ascent_loss_gradient.
  rewrite Hrg, Hgrad. cbn [bind grad data requires_grad].
  destruct (smooth_total (g := backprop net (data t) (inception4c net (data t)))
              (N := N) Hcnt HH HW) as [s [Hsm Hss]]; [now apply Hnet|].
  rewrite Hsm. cbn [bind].
  destruct (zip4_strict_total sadd (data t)
              (tensor_scale lr (tensor_div s (mean_abs s))) Hs) as [updated Hup].
  { unfold tensor_scale, tensor_div. now repeat apply map4d_shape. }
  rewrite Hup. cbn [bind data grad requires_grad option_map].
  destruct (clamp_to_bounds_total (t := updated) (N := N) (H := H) (W := W)) as [c Hc].
  { eapply zip4_strict_shape; [exact Hs | exact Hup]. }
  rewrite Hc. cbn [bind]. eauto.
Qed.

Lemma foldM_total {A S : Type} (f : S -> A -> outcome S) (P : S -> Prop) (Q : A -> Prop)
  (l : list A) (s : S) :
  (forall s0 x, P s0 -> Q x -> exists s1, f s0 x = Ok s1 /\ P s1) ->
  Forall Q l -> P s -> exists s', foldM f l s = Ok s' /\ P s'.
Proof.
  intros Hstep HQ. revert s. induction HQ as [|x l Hx _ IH]; intros s Hs; simpl.
  - eauto.
  - destruct (Hstep s x Hs Hx) as [s1 [H1 P1]]. rewrite H1. cbn [bind]. now apply IH.
Qed.

Lemma range_nonneg (n : Z) : Forall (fun i => (0 <= i)%Z) (range n).
Proof. unfold range. apply Forall_map, Forall_forall. intros i _. lia. Qed.

Section DriverReturns.

Variable net : network.
Variable cv_resize_to : image -> Z -> Z -> image.
Variable rng : Type.
Variable randint2 : Z -> Z -> rng -> (Z * Z) * rng.

Hypothesis net_shaped : grad_shaped net.
(** [cv.resize(img, (w, h))] returns [h] rows of [w] pixels with the
    channels of [img]. *)
Hypothesis resize_to_shape :
  forall (img : image) (H0 W0 h w : nat),
    1 <= H0 -> 1 <= W0 -> shape3d img H0 W0 3 ->
    shape3d (cv_resize_to img (Z.of_nat w) (Z.of_nat h)) h w 3.

Lemma dream_iteration_total (t : tensor) (g : rng) (i : Z) (H W : nat) :
  4 < H -> 4 < W -> (0 <= i)%Z -> shape4d (data t) 1 3 H W ->
  exists st', dream_iteration net randint2 (t, g) i = Ok st' /\
              shape4d (data (fst st')) 1 3 H W.
Proof.
  intros HH HW Hi Hs.
  destruct (dream_iteration net randint2 (t, g) i) as [st'|e] eqn:Hrun.
  - exists st'. split; [reflexivity|].
    eapply dream_iteration_shape; [|exact Hrun]. exact Hs.
  - exfalso. unfold dream_iteration in Hrun.
    destruct (randint2 (- jitter) (jitter + 1) g) as [[hs ws] g1].
    destruct (gradient_ascent_total (random_circular_spatial_shift t hs ws false)
                dream_lr i (N := 1) (H := H) (W := W) net_shaped) as [t' Ht'];
      try assumption; try reflexivity.
    + cbn [random_circular_spatial_shift data]. now apply torch_roll_shape.
    + rewrite Ht' in Hrun. discriminate.
Qed.

Lemma dream_octave_total (input : image) (g : rng) {H W : nat} :
  4 < H -> 4 < W -> shape3d input H W 3 ->
  exists t g', dream_octave net randint2 input g = Ok (t, g') /\
               shape4d (data t) 1 3 H W.
Proof.
  intros HH HW Hs. unfold dream_octave.
  destruct (foldM_total (dream_iteration net randint2)
              (fun st => shape4d (data (fst st)) 1 3 H W) (fun i => (0 <= i)%Z)
              (range n_iter) (pytorch_input_adapter input, g)) as [[t g'] [Hrun Hshape]].
  - intros [t0 g0] i Hs0 Hi. now apply dream_iteration_total.
  - apply range_nonneg.
  - cbn [fst pytorch_input_adapter data]. split; [reflexivity|].
    constructor; [|constructor]. apply hwc_to_chw_shape; [lia | lia | exact Hs].
  - exists t, g'. auto.
Qed.

(** An octave whose base image is larger than the padding in both directions. *)
Definition octave_fits (base : image) : Prop :=
  exists H W, 4 < H /\ 4 < W /\ shape3d base H W 3.

Lemma shape2_of_shape3d {base : image} {H W C : nat} :
  1 <= H -> shape3d base H W C -> shape2 base = (Z.of_nat H, Z.of_nat W).
Proof.
  intros HH Hs. destruct (shape3d_height_width HH Hs) as [Hh Hw].
  unfold shape2. unfold image_height, image_width in *. now rewrite Hh, Hw.
Qed.

Lemma octave_machine_total (octaves : list image) (first : bool) (detail best : image)
  (g : rng) :
  Forall octave_fits octaves ->
  (if first
   then match octaves with
        | [] => True
        | base :: _ => exists H W, shape3d base H W 3 /\ shape3d detail H W 3
        end
   else exists H0 W0, 1 <= H0 /\ 1 <= W0 /\ shape3d detail H0 W0 3) ->
  exists r g', octave_machine net cv_resize_to randint2 first octaves detail best g
               = Ok (r, g').
Proof.
  intros Hfit. revert first detail best g.
  induction Hfit as [|base finer [H [W [HH [HW Hbase]]]] _ IH];
    intros first detail best g Hdetail; cbn [octave_machine]; [eauto|].
  rewrite (shape2_of_shape3d (H := H) (W := W) (C := 3)) by (try lia; exact Hbase).
  set (detail1 := if first then detail else cv_resize_to detail (Z.of_nat W) (Z.of_nat H)).
  assert (Hd1 : shape3d detail1 H W 3).
  { unfold detail1. destruct first.
    - destruct Hdetail as [H' [W' [Hb' Hd']]].
      assert (EH : H' = H) by (destruct Hbase, Hb'; congruence).
      assert (EW : W' = W).
      { destruct Hbase as [Lb Fb], Hb' as [_ Fb'].
        destruct base as [|row base']; simpl in Lb; [lia|].
        inversion Fb as [|? ? [Lr _] _]; inversion Fb' as [|? ? [Lr' _] _]. congruence. }
      now rewrite <- EH, <- EW.
    - destruct Hdetail as [H0 [W0 [HH0 [HW0 Hd0]]]]. now apply resize_to_shape with H0 W0. }
  destruct (image_zip_total sadd Hbase Hd1) as [input Hin]. rewrite Hin. cbn [bind].
  assert (Hins : shape3d input H W 3) by (eapply image_zip_shape; [exact Hbase | exact Hin]).
  destruct (dream_octave_total input g HH HW Hins) as [t [g1 [Hoct Hts]]].
  rewrite Hoct. cbn [bind].
  destruct (pytorch_output_adapter t) as [result|e] eqn:Hout.
  2:{ unfold pytorch_output_adapter in Hout. destruct Hts as [Lt _].
      destruct (data t); [discriminate Lt | discriminate Hout]. }
  cbn [bind].
  pose proof (pytorch_output_adapter_shape t Hts Hout) as Hrs.
  destruct (image_zip_total ssub Hrs Hbase) as [detail' Hsub]. rewrite Hsub. cbn [bind].
  apply IH. exists H, W. split; [lia|]. split; [lia|].
  eapply image_zip_shape; [exact Hrs | exact Hsub].
Qed.

End DriverReturns.

(** ** A run of the driver *)

(** Collaborators for the example: a resize to an explicit size that fills
    the new array with the top-left pixel, and a generator that counts its
    draws and returns the two extreme offsets. *)
Definition fill_resize (img : image) (w h : Z) : image :=
  const2d (hd [] (hd [] img)) (Z.to_nat h) (Z.to_nat w).

Definition counting_randint2 (low high : Z) (g : nat) : (Z * Z) * nat :=
  ((low, (high - 1)%Z), S g).

Definition grey_image : image := const2d (gray 0.5) 40 40.

Lemma shape3d_const (px : list scalar) (H W : nat) :
  shape3d (const2d px H W) H W (length px).
Proof.
  unfold const2d. split; [apply repeat_length|].
  apply Forall_forall. intros row Hrow. apply repeat_spec in Hrow. subst row.
  split; [apply repeat_length|].
  apply Forall_forall. intros p Hp. apply repeat_spec in Hp. now subst p.
Qed.

Lemma fill_resize_shape (img : image) (H0 W0 h w : nat) :
  1 <= H0 -> 1 <= W0 -> shape3d img H0 W0 3 ->
  shape3d (fill_resize img (Z.of_nat w) (Z.of_nat h)) h w 3.
Proof.
  intros HH HW [L F]. unfold fill_resize. rewrite !Nat2Z.id.
  assert (Hpx : length (hd [] (hd [] img)) = 3).
  { destruct img as [|row img']; simpl in L; [lia|]. inversion F as [|? ? [Lr Fr] _]; subst.
    simpl. destruct row as [|px row']; simpl in *; [lia|]. now inversion Fr. }
  pose proof (shape3d_const (hd [] (hd [] img)) h w) as Hs.
  now rewrite Hpx in Hs.
Qed.

Lemma sum_net_shaped : grad_shaped sum_net.
Proof. intros x c N C H W Hs. cbn [backprop sum_net]. now apply map4d_shape. Qed.

Lemma In_every_other {A : Type} (l : list A) (x : A) : In x (every_other l) -> In x l.
Proof.
  assert (H : forall n (l : list A), length l <= n -> In x (every_other l) -> In x l).
  { induction n as [|n IH]; intros [|a [|b l']] Hn Hin; simpl in *; try lia; try tauto.
    destruct Hin as [->|Hin]; [now left|]. right. right. apply IH; [lia | exact Hin]. }
  apply (H (length l)). lia.
Qed.

Lemma halve_image_shape {im : image} (fx fy : R) {H W C : nat} :
  shape3d im H W C ->
  exists H' W', H <= 2 * H' <= H + 1 /\ W <= 2 * W' <= W + 1 /\
                shape3d (halve_image im fx fy) H' W' C.
Proof.
  intros [L F]. unfold halve_image.
  exists (length (every_other im)), (length (every_other (repeat tt W))).
  split; [rewrite <- L; apply length_every_other|].
  split; [rewrite <- (repeat_length tt W) at 1 4; apply length_every_other|].
  split; [now rewrite length_map|].
  apply Forall_map, Forall_forall. intros row Hrow. apply In_every_other in Hrow.
  rewrite Forall_forall in F. destruct (F row Hrow) as [Lr Fr]. split.
  - clear - Lr. revert W Lr.
    assert (Hgen : forall n (l : list (list scalar)) W, length l <= n -> length l = W ->
              length (every_other l) = length (every_other (repeat tt W))).
    { induction n as [|n IH]; intros [|a [|b l']] W Hn HW; simpl in *; subst W;
        try reflexivity; try lia.
      simpl. f_equal. apply IH; [lia | reflexivity]. }
    intros W Lr. apply (Hgen (length row)); [lia | exact Lr].
  - apply Forall_forall. intros px Hpx. apply In_every_other in Hpx.
    rewrite Forall_forall in Fr. now apply Fr.
Qed.

Lemma preprocess_total {img : image} {H W : nat} :
  shape3d img H W 3 -> exists b, preprocess img = Ok b.
Proof.
  intros [L F]. unfold preprocess.
  destruct (mapM_total (mapM preprocess_pixel) (fun r => shape2d r W 3) (fun _ => True) F)
    as [b [Hb _]]; [|eauto].
  intros row [Lr Fr].
  destruct (mapM_total preprocess_pixel (fun px => length px = 3) (fun _ => True) Fr)
    as [row' [Hrow' _]]; [|eauto].
  intros px Hpx. unfold preprocess_pixel. rewrite Hpx. cbn. eauto.
Qed.

Lemma map3d_shape (f : scalar -> scalar) (t : image) (H W C : nat) :
  shape3d t H W C -> shape3d (map3d f t) H W C.
Proof.
  unfold map3d. intros [L F]. split; [now rewrite length_map|].
  apply Forall_map. eapply Forall_impl; [|exact F]. intros p. apply shape2d_map2d.
Qed.

Lemma grey_image_dream_returns :
  exists r g',
    deep_dream sum_net halve_resize fill_resize counting_randint2 grey_image 0%nat
    = Ok (r, g').
Proof.
  rewrite deep_dream_is_octave_driver. unfold octave_driver.
  assert (Himg : shape3d grey_image 40 40 3) by apply (shape3d_const (gray 0.5) 40 40).
  destruct (preprocess_total Himg) as [base Hbase]. rewrite Hbase. cbn [bind].
  pose proof (preprocess_shape Himg Hbase) as Hb.
  rewrite (create_image_pyramid_four halve_resize base (1 / 1.4) _ _ _
             eq_refl eq_refl eq_refl).
  cbn [bind].
  destruct (halve_image_shape (1 / 1.4) (1 / 1.4) Hb) as [h1 [w1 [Hh1 [Hw1 S1]]]].
  destruct (halve_image_shape (1 / 1.4) (1 / 1.4) S1) as [h2 [w2 [Hh2 [Hw2 S2]]]].
  destruct (halve_image_shape (1 / 1.4) (1 / 1.4) S2) as [h3 [w3 [Hh3 [Hw3 S3]]]].
  cbn [rev app hd].
  apply (octave_machine_total sum_net fill_resize nat counting_randint2
           sum_net_shaped fill_resize_shape).
  - repeat constructor.
    + exists h3, w3. repeat split; try lia; apply S3.
    + exists h2, w2. repeat split; try lia; apply S2.
    + exists h1, w1. repeat split; try lia; apply S1.
    + exists 40, 40. repeat split; try lia; apply Hb.
  - exists h3, w3. split; [exact S3|]. now apply map3d_shape.
Qed.


(** ** Configuration *)




(** ** Further properties *)

(** X1. The integer [-1] as target shape raises a [TypeError] for every
    existing path: it is sent to the branch for pairs, where subscripting it
    raises "'int' object is not subscriptable", when the file is decoded;
    an undecodable file has raised its own [TypeError] before. *)
Theorem load_image_minus_one
  (cv_imread : string -> option image_u8)
  (cv_resize_cubic : image_u8 -> Z -> Z -> outcome image_u8)
  (img_path : string) :
  (exists msg,
     load_image (fun _ => true) cv_imread cv_resize_cubic img_path (ShapeInt (-1))
     = Raise (TypeError msg)) /\
  (forall bgr, cv_imread img_path = Some bgr ->
     load_image (fun _ => true) cv_imread cv_resize_cubic img_path (ShapeInt (-1))
     = Raise (TypeError "'int' object is not subscriptable")).
Proof.
  unfold load_image. cbn [negb].
  destruct (cv_imread img_path) as [bgr|]; split.
  - eexists. reflexivity.
  - intros bgr' _. reflexivity.
  - eexists. reflexivity.
  - discriminate.
Qed.

(** X2. A zero [sigma] makes the constructor of the filter divide by zero,
    for every number of channels and every kernel size. *)
Theorem GaussianSmoothing_init_zero_sigma (channels kernel_size : nat) :
  GaussianSmoothing_init channels kernel_size 0 = Raise ZeroDivisionError.
Proof.
  unfold GaussianSmoothing_init, sigma_step. cbn [nth foldM combine meshgrid].
  unfold kernel_step at 1.
  replace (0.5 * 0)%R with 0%R by ring. now rewrite gauss_factor_zero.
Qed.

(** ** More on the spatial jitter *)

Lemma shape4d_const {A : Type} (x : A) (N C H W : nat) :
  shape4d (const4d x N C H W) N C H W.
Proof.
  unfold shape4d, shape3d, shape2d, const4d, const2d.
  split; [apply repeat_length|].
  apply Forall_forall. intros ? ->%repeat_spec. split; [apply repeat_length|].
  apply Forall_forall. intros ? ->%repeat_spec. split; [apply repeat_length|].
  apply Forall_forall. intros ? ->%repeat_spec. apply repeat_length.
Qed.

Lemma mod_sub_cases (i k n : Z) :
  (0 < n)%Z -> (0 <= i < n)%Z ->
  ((i - k) mod n =
   if (i <? k mod n) then i - k mod n + n else i - k mod n)%Z.
Proof.
  intros Hn Hi.
  pose proof (Z.mod_pos_bound k n Hn) as Hr.
  rewrite <- Zminus_mod_idemp_r.
  destruct (Z.ltb_spec i (k mod n)) as [Hlt|Hge].
  - rewrite <- (Z_mod_plus_full (i - k mod n) 1 n).
    rewrite Z.mod_small; lia.
  - rewrite Z.mod_small; lia.
Qed.

(** The element at index [i] of the rolled list is the element that was at
    index [(i - shift) mod n]. *)
Lemma nth_error_roll {A : Type} (k : Z) (l : list A) (i : nat) :
  i < length l ->
  nth_error (roll k l) i
  = nth_error l (Z.to_nat ((Z.of_nat i - k) mod Z.of_nat (length l))).
Proof.
  intros Hi. unfold roll.
  assert (Hn : (0 < Z.of_nat (length l))%Z) by lia.
  pose proof (Z.mod_pos_bound k _ Hn) as Hr.
  rewrite (mod_sub_cases (Z.of_nat i) k (Z.of_nat (length l))) by lia.
  destruct (Z.ltb_spec (Z.of_nat i) (k mod Z.of_nat (length l))) as [Hlt|Hge].
  - rewrite nth_error_app1 by (rewrite length_skipn; lia).
    rewrite nth_error_skipn. f_equal. lia.
  - rewrite nth_error_app2 by (rewrite length_skipn; lia).
    rewrite length_skipn.
    rewrite nth_error_firstn.
    destruct (Nat.ltb_spec
                (i - (length l - (length l - Z.to_nat (k mod Z.of_nat (length l)))))
                (length l - Z.to_nat (k mod Z.of_nat (length l)))) as [Hin|Hout];
      [f_equal; lia | lia].
Qed.

Lemma roll_nil {A : Type} (k : Z) : roll k (@nil A) = [].
Proof. unfold roll. now rewrite skipn_nil, firstn_nil. Qed.

(** Two rolls are one roll by the sum of the shifts. *)
Lemma roll_roll {A : Type} (a b : Z) (l : list A) : roll b (roll a l) = roll (a + b) l.
Proof.
  apply nth_error_ext. intros i.
  destruct (Nat.lt_ge_cases i (length l)) as [Hi|Hi].
  - assert (Hn : (0 < Z.of_nat (length l))%Z) by lia.
    rewrite nth_error_roll by (rewrite length_roll; exact Hi).
    rewrite length_roll.
    pose proof (Z.mod_pos_bound (Z.of_nat i - b) _ Hn) as Hj.
    rewrite nth_error_roll by lia.
    rewrite nth_error_roll by exact Hi.
    f_equal. f_equal.
    rewrite Z2Nat.id by lia.
    rewrite Zminus_mod_idemp_l. f_equal. lia.
  - transitivity (@None A); [|symmetry]; apply nth_error_None;
      rewrite ?length_roll; exact Hi.
Qed.

(** A roll by a multiple of the length changes nothing more. *)
Lemma roll_period {A : Type} (k a : Z) (l : list A) :
  roll (k + a * Z.of_nat (length l)) l = roll k l.
Proof. unfold roll. now rewrite Z_mod_plus_full. Qed.

Lemma roll_zero {A : Type} (l : list A) : roll 0 l = l.
Proof.
  unfold roll. rewrite Zmod_0_l. change (Z.to_nat 0) with 0.
  rewrite Nat.sub_0_r, skipn_all, firstn_all. reflexivity.
Qed.

Lemma roll_perm {A : Type} (k : Z) (l : list A) : Permutation (roll k l) l.
Proof.
  unfold roll.
  rewrite Permutation_app_comm. now rewrite firstn_skipn.
Qed.

Lemma Permutation_concat_perm {A : Type} (l l' : list (list A)) :
  Permutation l l' -> Permutation (concat l) (concat l').
Proof.
  induction 1 as [|x l l' _ IH|x y l|l l' l'' _ IH1 _ IH2]; simpl.
  - constructor.
  - now apply Permutation_app_head.
  - rewrite !app_assoc. apply Permutation_app_tail, Permutation_app_comm.
  - now transitivity (concat l').
Qed.

Lemma concat_map_perm {A : Type} (f : list A -> list A) (m : list (list A)) :
  (forall row, Permutation (f row) row) ->
  Permutation (concat (map f m)) (concat m).
Proof.
  intros Hf. induction m as [|row m IH]; simpl; [constructor|].
  now apply Permutation_app.
Qed.

(** One plane after the two rolls holds the elements of the plane. *)
Lemma roll_plane_perm (hs ws : Z) (p : matrix) :
  Permutation (concat (map (roll ws) (roll hs p))) (concat p).
Proof.
  transitivity (concat (roll hs p)).
  - apply concat_map_perm. intros row. apply roll_perm.
  - apply Permutation_concat_perm, roll_perm.
Qed.

Lemma torch_roll_planes (t : tensor4) (hs ws : Z) :
  Forall2 (Forall2 (fun p q : matrix => Permutation (concat p) (concat q)))
          (torch_roll t hs ws) t.
Proof.
  unfold torch_roll.
  induction t as [|img t IH]; simpl; constructor; [|exact IH].
  clear IH. induction img as [|p img IH]; simpl; constructor; [|exact IH].
  apply roll_plane_perm.
Qed.

Lemma planes_perm_flatten (t t' : tensor4) :
  Forall2 (Forall2 (fun p q : matrix => Permutation (concat p) (concat q))) t t' ->
  Permutation (flatten4 t) (flatten4 t').
Proof.
  unfold flatten4.
  induction 1 as [|img img' t t' Himg _ IH]; simpl; [constructor|].
  rewrite !concat_app. apply Permutation_app; [|exact IH].
  clear IH. induction Himg as [|p q img img' Hp _ IH]; simpl; [constructor|].
  rewrite !concat_app. now apply Permutation_app.
Qed.

(** X3. Where the jitter moves an element.  In a tensor whose planes have
    [H] rows and [W] columns, the element at row [h] and column [w] of a
    plane is found, after the shift by [(h_shift, w_shift)], at row
    [(h + h_shift) mod H] and column [(w + w_shift) mod W] of the same
    plane: what leaves on one side comes back on the other. *)
Theorem shift_moves_elements
  (t : tensor) (h_shift w_shift : Z) (N C H W n c h w : nat) :
  shape4d (data t) N C H W -> h < H -> w < W ->
  tensor_at (data (random_circular_spatial_shift t h_shift w_shift false)) n c
            (Z.to_nat ((Z.of_nat h + h_shift) mod Z.of_nat H))
            (Z.to_nat ((Z.of_nat w + w_shift) mod Z.of_nat W))
  = tensor_at (data t) n c h w.
Proof.
  intros [_ Ht] Hh Hw. cbn [random_circular_spatial_shift data].
  unfold tensor_at, torch_roll.
  rewrite nth_error_map.
  destruct (nth_error (data t) n) as [img|] eqn:En; [|reflexivity].
  apply nth_error_In in En.
  rewrite Forall_forall in Ht. destruct (Ht _ En) as [_ Himg].
  cbn [option_map]. rewrite nth_error_map.
  destruct (nth_error img c) as [plane|] eqn:Ec; [|reflexivity].
  apply nth_error_In in Ec.
  rewrite Forall_forall in Himg. destruct (Himg _ Ec) as [HH Hrows].
  cbn [option_map]. rewrite nth_error_map.
  assert (HnH : (0 < Z.of_nat H)%Z) by lia.
  assert (HnW : (0 < Z.of_nat W)%Z) by lia.
  pose proof (Z.mod_pos_bound (Z.of_nat h + h_shift) _ HnH) as Hrh.
  pose proof (Z.mod_pos_bound (Z.of_nat w + w_shift) _ HnW) as Hrw.
  rewrite nth_error_roll by lia.
  rewrite HH, Z2Nat.id by lia.
  rewrite Zminus_mod_idemp_l.
  replace (Z.of_nat h + h_shift - h_shift)%Z with (Z.of_nat h) by lia.
  rewrite Z.mod_small by lia. rewrite Nat2Z.id.
  destruct (nth_error plane h) as [row|] eqn:Eh; [|reflexivity].
  apply nth_error_In in Eh.
  rewrite Forall_forall in Hrows. pose proof (Hrows _ Eh) as HW.
  cbn [option_map].
  rewrite nth_error_roll by lia.
  rewrite HW, Z2Nat.id by lia.
  rewrite Zminus_mod_idemp_l.
  replace (Z.of_nat w + w_shift - w_shift)%Z with (Z.of_nat w) by lia.
  rewrite Z.mod_small by lia. now rewrite Nat2Z.id.
Qed.

Lemma shift_moves_elements_example :
  shape4d (data dark_image) 1 3 5 5 /\ 2 < 5 /\ 4 < 5 /\
  tensor_at (data (random_circular_spatial_shift dark_image 100 (-100) false)) 0 1
            (Z.to_nat ((Z.of_nat 2 + 100) mod Z.of_nat 5))
            (Z.to_nat ((Z.of_nat 4 + (-100)) mod Z.of_nat 5))
  = tensor_at (data dark_image) 0 1 2 4.
Proof.
  assert (Hs : shape4d (data dark_image) 1 3 5 5) by apply (shape4d_const (Fin 0) 1 3 5 5).
  split; [exact Hs|]. split; [lia|]. split; [lia|].
  apply (shift_moves_elements dark_image 100 (-100) 1 3 5 5 0 1 2 4 Hs); lia.
Defined.

(** X4. Two shifts in a row are one shift by the sums of the offsets, for
    every tensor and all offsets. *)
Theorem shifts_add_up (t : tensor) (h1 w1 h2 w2 : Z) :
  random_circular_spatial_shift
    (random_circular_spatial_shift t h1 w1 false) h2 w2 false
  = random_circular_spatial_shift t (h1 + h2) (w1 + w2) false.
Proof.
  unfold random_circular_spatial_shift. cbn [data]. f_equal.
  unfold torch_roll. rewrite map_map. apply map_ext. intros img.
  rewrite map_map. apply map_ext. intros plane.
  rewrite roll_map, map_map, roll_roll. apply map_ext. intros row.
  apply roll_roll.
Qed.

(** X5. The shift is periodic.  For a tensor whose planes have [H] rows and
    [W] columns, adding a multiple of [H] to the row offset and a multiple
    of [W] to the column offset changes nothing; a shift by multiples of
    [H] and [W] alone returns the values of the tensor. *)
Theorem shift_is_periodic
  (t : tensor) (h_shift w_shift a b : Z) (should_undo : bool) (N C H W : nat) :
  shape4d (data t) N C H W ->
  random_circular_spatial_shift t (h_shift + a * Z.of_nat H) (w_shift + b * Z.of_nat W)
                                should_undo
  = random_circular_spatial_shift t h_shift w_shift should_undo /\
  data (random_circular_spatial_shift t (a * Z.of_nat H) (b * Z.of_nat W) should_undo)
  = data t.
Proof.
  intros [_ Ht].
  assert (Hroll : forall hs ws a' b',
             torch_roll (data t) (hs + a' * Z.of_nat H) (ws + b' * Z.of_nat W)
             = torch_roll (data t) hs ws).
  { intros hs ws a' b'. unfold torch_roll.
    apply map_ext_in. intros img Himg.
    rewrite Forall_forall in Ht. destruct (Ht _ Himg) as [_ Hp].
    apply map_ext_in. intros plane Hplane.
    rewrite Forall_forall in Hp. destruct (Hp _ Hplane) as [HH Hrows].
    rewrite <- HH, roll_period.
    apply map_ext_in. intros row Hrow.
    apply In_roll in Hrow.
    rewrite Forall_forall in Hrows. rewrite <- (Hrows _ Hrow).
    apply roll_period. }
  assert (Hid : torch_roll (data t) 0 0 = data t).
  { unfold torch_roll.
    rewrite <- (map_id (data t)) at 2. apply map_ext. intros img.
    rewrite <- (map_id img) at 2. apply map_ext. intros plane.
    rewrite roll_zero. rewrite <- (map_id plane) at 2.
    apply map_ext. intros row. apply roll_zero. }
  split.
  - unfold random_circular_spatial_shift. f_equal.
    destruct should_undo.
    + replace (- (h_shift + a * Z.of_nat H))%Z with (- h_shift + (- a) * Z.of_nat H)%Z by lia.
      replace (- (w_shift + b * Z.of_nat W))%Z with (- w_shift + (- b) * Z.of_nat W)%Z by lia.
      apply Hroll.
    + apply Hroll.
  - unfold random_circular_spatial_shift. cbn [data].
    destruct should_undo.
    + replace (- (a * Z.of_nat H))%Z with (0 + (- a) * Z.of_nat H)%Z by lia.
      replace (- (b * Z.of_nat W))%Z with (0 + (- b) * Z.of_nat W)%Z by lia.
      now rewrite Hroll.
    + change (a * Z.of_nat H)%Z with (0 + a * Z.of_nat H)%Z.
      change (b * Z.of_nat W)%Z with (0 + b * Z.of_nat W)%Z.
      now rewrite Hroll.
Qed.

Lemma shift_is_periodic_example :
  random_circular_spatial_shift dark_image (1 + 3 * Z.of_nat 5) (2 + (-1) * Z.of_nat 5) false
  = random_circular_spatial_shift dark_image 1 2 false /\
  data (random_circular_spatial_shift dark_image (3 * Z.of_nat 5) ((-1) * Z.of_nat 5) false)
  = data dark_image.
Proof.
  apply (shift_is_periodic dark_image 1 2 3 (-1) false 1 3 5 5).
  apply (shape4d_const (Fin 0) 1 3 5 5).
Defined.

(** X6. The shift rearranges: every plane of the shifted tensor holds the
    elements of the plane it comes from, each as often as before; so does
    the whole tensor.  Nothing is dropped, repeated or filled in. *)
Theorem shift_keeps_elements (t : tensor) (h_shift w_shift : Z) (should_undo : bool) :
  let shifted := random_circular_spatial_shift t h_shift w_shift should_undo in
  Forall2 (Forall2 (fun p q : matrix => Permutation (concat p) (concat q)))
          (data shifted) (data t) /\
  Permutation (flatten4 (data shifted)) (flatten4 (data t)).
Proof.
  cbn zeta. unfold random_circular_spatial_shift. cbn [data].
  split; [|apply planes_perm_flatten]; apply torch_roll_planes.
Qed.

(** ** The two array layouts *)

Lemma map_nth_seq_id {A : Type} (d : A) (l : list A) (n : nat) :
  length l = n -> map (fun i => nth i l d) (seq 0 n) = l.
Proof.
  revert n. induction l as [|x l IH]; intros n Hn; subst n; simpl; [reflexivity|].
  f_equal. rewrite <- seq_shift, map_map. now apply IH.
Qed.

Lemma shape3d_hd {A : Type} {t : list (list (list A))} {a b c : nat} :
  1 <= a -> shape3d t a b c -> shape2d (hd [] t) b c.
Proof.
  intros Ha [Hl Hf]. destruct t as [|m t]; [simpl in Hl; lia|].
  now inversion Hf.
Qed.

Lemma shape2d_hd {A : Type} {m : list (list A)} {b c : nat} :
  1 <= b -> shape2d m b c -> length (hd [] m) = c.
Proof.
  intros Hb [Hl Hf]. destruct m as [|r m]; [simpl in Hl; lia|].
  now inversion Hf.
Qed.

Lemma shape2d_nth {A : Type} {m : list (list A)} {b c : nat} (i : nat) :
  i < b -> shape2d m b c -> length (nth i m []) = c.
Proof.
  intros Hi [Hl Hf]. rewrite Forall_forall in Hf.
  apply Hf, nth_In. lia.
Qed.

Lemma shape3d_nth {A : Type} {t : list (list (list A))} {a b c : nat} (i : nat) :
  i < a -> shape3d t a b c -> shape2d (nth i t []) b c.
Proof.
  intros Hi [Hl Hf]. rewrite Forall_forall in Hf.
  apply Hf, nth_In. lia.
Qed.

(** Height x width x channel, to channel x height x width, and back. *)
Lemma chw_to_hwc_to_chw (img : image) (H W C : nat) :
  1 <= H -> 1 <= W -> 1 <= C -> shape3d img H W C ->
  chw_to_hwc (hwc_to_chw img) = img.
Proof.
  intros HH HW HC Hs.
  pose proof (hwc_to_chw_shape img H W C HH HW Hs) as Hs'.
  unfold chw_to_hwc.
  pose proof (shape3d_hd HC Hs') as Hp.
  rewrite (proj1 Hp), (shape2d_hd HH Hp).
  transitivity (map (fun h => nth h img []) (seq 0 H));
    [|apply map_nth_seq_id, (proj1 Hs)].
  apply map_ext_in. intros h Hh%in_seq.
  pose proof (shape3d_nth h (proj2 Hh) Hs) as Hrow.
  transitivity (map (fun w => nth w (nth h img []) []) (seq 0 W));
    [|apply map_nth_seq_id, (proj1 Hrow)].
  apply map_ext_in. intros w Hw%in_seq.
  pose proof (shape2d_nth w (proj2 Hw) Hrow) as Hpx.
  unfold hwc_to_chw.
  pose proof (shape3d_hd HH Hs) as Hp0.
  rewrite (shape2d_hd HW Hp0).
  rewrite map_map.
  transitivity (map (fun c => nth c (nth w (nth h img []) []) NaN) (seq 0 C));
    [|apply map_nth_seq_id, Hpx].
  apply map_ext. intros c.
  change (nth h (map (map (fun px : list scalar => nth c px NaN)) img) [])
    with (nth h (map (map (fun px : list scalar => nth c px NaN)) img)
                (map (fun px : list scalar => nth c px NaN) [])).
  rewrite map_nth.
  rewrite <- (map_nth (fun px : list scalar => nth c px NaN) (nth h img []) [] w).
  now destruct c.
Qed.

Lemma hwc_to_chw_to_hwc (t : tensor3) (C H W : nat) :
  1 <= C -> 1 <= H -> 1 <= W -> shape3d t C H W ->
  hwc_to_chw (chw_to_hwc t) = t.
Proof.
  intros HC HH HW Hs.
  pose proof (chw_to_hwc_shape t C H W HC Hs) as Hs'.
  unfold hwc_to_chw.
  pose proof (shape3d_hd HH Hs') as Hp.
  rewrite (shape2d_hd HW Hp).
  transitivity (map (fun c => nth c t []) (seq 0 C));
    [|apply map_nth_seq_id, (proj1 Hs)].
  apply map_ext_in. intros c Hc%in_seq.
  pose proof (shape3d_nth c (proj2 Hc) Hs) as Hplane.
  unfold chw_to_hwc.
  pose proof (shape3d_hd HC Hs) as Hp0.
  rewrite (proj1 Hp0), (shape2d_hd HH Hp0).
  rewrite map_map.
  transitivity (map (fun h => nth h (nth c t []) []) (seq 0 H));
    [|apply map_nth_seq_id, (proj1 Hplane)].
  apply map_ext_in. intros h Hh%in_seq.
  pose proof (shape2d_nth h (proj2 Hh) Hplane) as Hrow.
  rewrite map_map.
  transitivity (map (fun w => nth w (nth h (nth c t []) []) NaN) (seq 0 W));
    [|apply map_nth_seq_id, Hrow].
  apply map_ext. intros w.
  rewrite <- (map_nth (fun plane : matrix => nth w (nth h plane []) NaN) t [] c).
  now destruct h, w.
Qed.

(** X7. The two adapters are inverse to each other: for an image of [H]
    rows, [W] columns and [C] channels, all at least one,
    [pytorch_output_adapter] returns from the tensor of
    [pytorch_input_adapter] the image itself; that tensor has the shape
    [1 x C x H x W]. *)
Theorem adapters_round_trip (img : image) (H W C : nat) :
  1 <= H -> 1 <= W -> 1 <= C -> shape3d img H W C ->
  pytorch_output_adapter (pytorch_input_adapter img) = Ok img /\
  shape4d (data (pytorch_input_adapter img)) 1 C H W.
Proof.
  intros HH HW HC Hs. split.
  - unfold pytorch_output_adapter, pytorch_input_adapter. cbn [data].
    f_equal. now apply (chw_to_hwc_to_chw img H W C).
  - unfold pytorch_input_adapter. cbn [data]. split; [reflexivity|].
    constructor; [|constructor]. now apply hwc_to_chw_shape.
Qed.

Lemma adapters_round_trip_example :
  pytorch_output_adapter (pytorch_input_adapter sample_image) = Ok sample_image /\
  shape4d (data (pytorch_input_adapter sample_image)) 1 3 4 4.
Proof.
  apply (adapters_round_trip sample_image 4 4 3); try lia.
  unfold sample_image. split; [reflexivity|].
  repeat (constructor; [split; [reflexivity | repeat constructor]|]).
  constructor.
Defined.

(** ** Normalization and the bounds of the clamp *)

(** The value of channel [c] at row [h] and column [w] of an image. *)
Definition image_at {A : Type} (img : list (list (list A))) (h w c : nat) : option A :=
  match nth_error img h with
  | Some row =>
      match nth_error row w with
      | Some px => nth_error px c
      | None => None
      end
  | None => None
  end.

(** The pixel that [preprocess] makes of a three-channel pixel of real numbers. *)
Lemma preprocess_pixel_rgb (r g b : R) :
  preprocess_pixel [Fin r; Fin g; Fin b]
  = Ok [Fin ((r - 0.485) / 0.229); Fin ((g - 0.456) / 0.224); Fin ((b - 0.406) / 0.225)]%R.
Proof.
  unfold preprocess_pixel, IMAGENET_MEAN_1, IMAGENET_STD_1. cbn [combine length Nat.eqb zip_with fst snd].
  unfold ssub, sneg, sadd.
  rewrite !sdiv_Fin by lra.
  reflexivity.
Qed.

Lemma unit_pixel_reals (px : list scalar) :
  length px = 3 -> Forall (in_range 0 1) px ->
  exists r g b, px = [Fin r; Fin g; Fin b] /\
                (0 <= r <= 1)%R /\ (0 <= g <= 1)%R /\ (0 <= b <= 1)%R.
Proof.
  intros Hl Hf.
  destruct px as [|x [|y [|z [|]]]]; try discriminate.
  inversion Hf as [|? ? Hx Hf1]; subst.
  inversion Hf1 as [|? ? Hy Hf2]; subst.
  inversion Hf2 as [|? ? Hz _]; subst.
  destruct x as [r| | |], y as [g| | |], z as [b| | |]; try contradiction.
  exists r, g, b. auto.
Qed.

(** The bounds of the clamp for a channel of a pixel. *)
Definition within_channel_bounds (c : nat) (x : scalar) : Prop :=
  exists lo hi,
    nth_error lower_bound c = Some (Fin lo) /\
    nth_error upper_bound c = Some (Fin hi) /\
    in_range lo hi x.

Lemma preprocess_pixel_bounded (px : list scalar) :
  length px = 3 -> Forall (in_range 0 1) px ->
  exists px', preprocess_pixel px = Ok px' /\ length px' = 3 /\
    forall c x, nth_error px' c = Some x -> within_channel_bounds c x.
Proof.
  intros Hl Hf.
  destruct (unit_pixel_reals px Hl Hf) as [r [g [b [-> [Hr [Hg Hb]]]]]].
  eexists. split; [apply preprocess_pixel_rgb|]. split; [reflexivity|].
  intros c x Hc. unfold within_channel_bounds.
  rewrite lower_bound_values, upper_bound_values.
  destruct c as [|[|[|c]]]; cbn in Hc; try (destruct c; discriminate);
    injection Hc as <-; do 2 eexists; (split; [reflexivity|]); (split; [reflexivity|]);
    cbn [in_range]; unfold Rdiv; split;
    apply Rmult_le_compat_r; try lra;
    apply Rlt_le, Rinv_0_lt_compat; lra.
Qed.

Lemma image_at_In {A : Type} {img : list (list (list A))} {h w c : nat} {x : A} :
  image_at img h w c = Some x ->
  exists row px, In row img /\ In px row /\ nth_error px c = Some x.
Proof.
  unfold image_at. intros Hx.
  destruct (nth_error img h) as [row|] eqn:Eh; [|discriminate].
  destruct (nth_error row w) as [px|] eqn:Ew; [|discriminate].
  exists row, px. eauto using nth_error_In.
Qed.

(** The preprocessed image of a three-channel image with values in [0, 1]. *)
Lemma preprocess_unit_image {img : image} {H W : nat} :
  shape3d img H W 3 -> all_pixels (in_range 0 1) img ->
  exists b, preprocess img = Ok b /\ shape3d b H W 3 /\
    Forall (Forall (fun px => forall c x, nth_error px c = Some x ->
                                          within_channel_bounds c x)) b.
Proof.
  intros [Hl Hs] Hu. unfold all_pixels in Hu. unfold preprocess.
  destruct (mapM_total (mapM preprocess_pixel)
              (fun row : list (list scalar) =>
                 shape2d row W 3 /\ Forall (Forall (in_range 0 1)) row)
              (fun row' : list (list scalar) =>
                 shape2d row' W 3 /\
                 Forall (fun px => forall c x, nth_error px c = Some x ->
                                               within_channel_bounds c x) row')
              (l := img)) as [b [Hb [Hlen Hq]]].
  - rewrite Forall_forall in *. intros row Hrow. split; [now apply Hs | now apply Hu].
  - intros row [[Hrl Hrs] Hru].
    destruct (mapM_total preprocess_pixel
                (fun px : list scalar => length px = 3 /\ Forall (in_range 0 1) px)
                (fun px' : list scalar =>
                   length px' = 3 /\
                   forall c x, nth_error px' c = Some x -> within_channel_bounds c x)
                (l := row)) as [row' [Hrow' [Hlen' Hq']]].
    + rewrite Forall_forall in *. intros px Hpx. split; [now apply Hrs | now apply Hru].
    + intros px [Hpl Hpu]. apply preprocess_pixel_bounded; assumption.
    + exists row'. split; [exact Hrow'|]. split.
      * split; [lia|]. eapply Forall_impl; [|exact Hq']. now intros px [].
      * eapply Forall_impl; [|exact Hq']. now intros px [].
  - exists b. split; [exact Hb|]. split.
    + split; [lia|]. eapply Forall_impl; [|exact Hq]. now intros row [].
    + eapply Forall_impl; [|exact Hq]. now intros row [].
Qed.

Lemma clamp_in_bounds (lo hi : R) (x : scalar) :
  in_range lo hi x -> smax (smin x (Fin hi)) (Fin lo) = x.
Proof.
  destruct x as [r| | |]; cbn; try contradiction. intros [Hlo Hhi].
  rewrite Rmin_left by exact Hhi. now rewrite Rmax_left by exact Hlo.
Qed.

Lemma map2d_fixed {A : Type} (f : A -> A) (m : list (list A)) :
  Forall (Forall (fun x => f x = x)) m -> map2d f m = m.
Proof.
  intros Hm. unfold map2d.
  rewrite <- (map_id m) at 2. apply map_ext_in. intros row Hrow.
  rewrite Forall_forall in Hm. specialize (Hm _ Hrow).
  rewrite <- (map_id row) at 2. apply map_ext_in. intros x Hx.
  rewrite Forall_forall in Hm. now apply Hm.
Qed.

(** The clamp leaves an image alone whose values are within the bounds. *)
Lemma clamp_planes_fixed (t : tensor3) :
  length t = 3 ->
  (forall c plane, nth_error t c = Some plane ->
     Forall (Forall (within_channel_bounds c)) plane) ->
  clamp_planes t = t.
Proof.
  intros Hl Hb.
  destruct t as [|p0 [|p1 [|p2 [|]]]]; try discriminate.
  unfold clamp_planes. rewrite lower_bound_values, upper_bound_values.
  cbn [zip_with].
  assert (Hfix : forall c lo hi plane,
             nth_error lower_bound c = Some (Fin lo) ->
             nth_error upper_bound c = Some (Fin hi) ->
             Forall (Forall (within_channel_bounds c)) plane ->
             map2d (fun x => smax x (Fin lo)) (map2d (fun x => smin x (Fin hi)) plane) = plane).
  { intros c lo hi plane Elo Ehi Hp.
    unfold map2d at 1 2. rewrite map_map.
    rewrite <- (map_id plane) at 2. apply map_ext_in. intros row Hrow.
    rewrite map_map.
    rewrite Forall_forall in Hp. specialize (Hp _ Hrow).
    rewrite <- (map_id row) at 2. apply map_ext_in. intros x Hx.
    rewrite Forall_forall in Hp. destruct (Hp _ Hx) as [lo' [hi' [Elo' [Ehi' Hr]]]].
    rewrite Elo in Elo'. rewrite Ehi in Ehi'.
    injection Elo' as <-. injection Ehi' as <-.
    now apply clamp_in_bounds. }
  f_equal; [|f_equal; [|f_equal]].
  - apply (Hfix 0); [now rewrite lower_bound_values | now rewrite upper_bound_values|].
    now apply (Hb 0).
  - apply (Hfix 1); [now rewrite lower_bound_values | now rewrite upper_bound_values|].
    now apply (Hb 1).
  - apply (Hfix 2); [now rewrite lower_bound_values | now rewrite upper_bound_values|].
    now apply (Hb 2).
Qed.

(** The planes of the tensor that the input adapter makes of an image. *)
Lemma hwc_to_chw_plane (img : image) (H W C c : nat) (plane : matrix) :
  1 <= H -> 1 <= W -> shape3d img H W C ->
  nth_error (hwc_to_chw img) c = Some plane ->
  c < C /\ plane = map (map (fun px => nth c px NaN)) img.
Proof.
  intros HH HW Hs Hc. unfold hwc_to_chw in Hc.
  rewrite (shape2d_hd HW (shape3d_hd HH Hs)) in Hc.
  rewrite nth_error_map in Hc.
  destruct (nth_error (seq 0 C) c) as [c'|] eqn:Ec; [|discriminate].
  pose proof (nth_error_Some (seq 0 C) c) as Hlt.
  rewrite Ec, length_seq in Hlt.
  assert (HcC : c < C) by (apply Hlt; discriminate).
  rewrite nth_error_nth' with (d := 0) in Ec by (now rewrite length_seq).
  rewrite seq_nth in Ec by exact HcC. injection Ec as <-.
  cbn in Hc. injection Hc as <-. now split.
Qed.

(** X8. [preprocess] sends a three-channel image with values in [0, 1] to
    an image whose values lie within the bounds of the clamp of their
    channel, [lower_bound[c] <= x <= upper_bound[c]]; the clamp of
    [gradient_ascent] leaves the tensor of that image as it is. *)
Theorem preprocess_within_clamp_bounds (img : image) (H W : nat) :
  1 <= H -> 1 <= W -> shape3d img H W 3 -> all_pixels (in_range 0 1) img ->
  exists b,
    preprocess img = Ok b /\ shape3d b H W 3 /\
    (forall h w c x, image_at b h w c = Some x -> within_channel_bounds c x) /\
    clamp_to_bounds (data (pytorch_input_adapter b)) = Ok (data (pytorch_input_adapter b)).
Proof.
  intros HH HW Hs Hu.
  destruct (preprocess_unit_image Hs Hu) as [b [Hb [Hsb Hq]]].
  exists b. split; [exact Hb|]. split; [exact Hsb|]. split.
  - intros h w c x Hx.
    destruct (image_at_In Hx) as [row [px [Hrow [Hpx Hc]]]].
    rewrite Forall_forall in Hq. specialize (Hq _ Hrow).
    rewrite Forall_forall in Hq. now apply (Hq _ Hpx).
  - unfold pytorch_input_adapter. cbn [data].
    pose proof (hwc_to_chw_shape b H W 3 HH HW Hsb) as [Hl3 _].
    change [hwc_to_chw b] with (repeat (hwc_to_chw b) 1).
    rewrite clamp_to_bounds_repeat by exact Hl3.
    cbn [repeat]. do 2 f_equal.
    apply clamp_planes_fixed; [exact Hl3|].
    intros c plane Hc.
    destruct (hwc_to_chw_plane b H W 3 c plane HH HW Hsb Hc) as [HcC ->].
    apply Forall_map, Forall_forall. intros row Hrow.
    apply Forall_map, Forall_forall. intros px Hpx.
    rewrite Forall_forall in Hq. specialize (Hq _ Hrow).
    rewrite Forall_forall in Hq. apply (Hq _ Hpx).
    destruct Hsb as [_ Hsb]. rewrite Forall_forall in Hsb.
    destruct (Hsb _ Hrow) as [_ Hrs]. rewrite Forall_forall in Hrs.
    apply nth_error_nth'. rewrite (Hrs _ Hpx). exact HcC.
Qed.

Lemma all_pixels_const (P : scalar -> Prop) (px : list scalar) (H W : nat) :
  Forall P px -> all_pixels P (const2d px H W).
Proof.
  intros Hpx. unfold all_pixels, const2d.
  apply Forall_forall. intros ? ->%repeat_spec.
  apply Forall_forall. now intros ? ->%repeat_spec.
Qed.

Lemma preprocess_within_clamp_bounds_example :
  exists b,
    preprocess grey_image = Ok b /\ shape3d b 40 40 3 /\
    (forall h w c x, image_at b h w c = Some x -> within_channel_bounds c x) /\
    clamp_to_bounds (data (pytorch_input_adapter b)) = Ok (data (pytorch_input_adapter b)).
Proof.
  apply (preprocess_within_clamp_bounds grey_image 40 40); try lia.
  - apply (shape3d_const (gray 0.5) 40 40).
  - apply all_pixels_const. unfold gray. repeat constructor; cbn; lra.
Defined.

(** ** Images with another number of channels *)

Lemma mapM_raise_head {A B : Type} (f : A -> outcome B) (x : A) (l : list A) (e : exn) :
  f x = Raise e -> mapM f (x :: l) = Raise e.
Proof. intros Hx. cbn. now rewrite Hx. Qed.

Lemma preprocess_pixel_raises (px : list scalar) :
  length px <> 1 -> length px <> 3 -> preprocess_pixel px = Raise operands_mismatch.
Proof.
  intros H1 H3. unfold preprocess_pixel. cbn [combine IMAGENET_MEAN_1 IMAGENET_STD_1 length].
  destruct (Nat.eqb_spec (length px) 3); [contradiction|].
  destruct (Nat.eqb_spec (length px) 1); [contradiction|]. reflexivity.
Qed.

Lemma preprocess_raises {img : image} {H W C : nat} :
  1 <= H -> 1 <= W -> C <> 1 -> C <> 3 -> shape3d img H W C ->
  preprocess img = Raise operands_mismatch.
Proof.
  intros HH HW H1 H3 [Hl Hs].
  destruct img as [|row img]; [simpl in Hl; lia|].
  destruct (Forall_inv Hs) as [Hrl Hrs].
  destruct row as [|px row]; [simpl in Hrl; lia|].
  pose proof (Forall_inv Hrs) as Hpl. cbn beta in Hpl.
  unfold preprocess. apply mapM_raise_head, mapM_raise_head.
  apply preprocess_pixel_raises; lia.
Qed.

(** X9. A non-empty image whose number of channels is neither one nor
    three makes [preprocess] raise a [ValueError] (the channels cannot be
    broadcast against the three statistics), and [deep_dream] with it,
    before the network or the random generator is used. *)
Theorem wrong_channel_count_is_refused
  (net : network) (cv_resize : image -> R -> R -> outcome image)
  (cv_resize_to : image -> Z -> Z -> image)
  (rng : Type) (randint2 : Z -> Z -> rng -> (Z * Z) * rng) (g : rng)
  (img : image) (H W C : nat) :
  1 <= H -> 1 <= W -> C <> 1 -> C <> 3 -> shape3d img H W C ->
  preprocess img = Raise operands_mismatch /\
  deep_dream net cv_resize cv_resize_to randint2 img g = Raise operands_mismatch.
Proof.
  intros HH HW H1 H3 Hs.
  pose proof (preprocess_raises HH HW H1 H3 Hs) as Hp.
  split; [exact Hp|]. unfold deep_dream. now rewrite Hp.
Qed.

Definition rgba_pixel_image : image := [[[Fin 0; Fin 0; Fin 0; Fin 1]]].

Lemma wrong_channel_count_is_refused_example :
  preprocess rgba_pixel_image = Raise operands_mismatch /\
  deep_dream sum_net halve_resize fill_resize counting_randint2 rgba_pixel_image 0%nat
  = Raise operands_mismatch.
Proof.
  apply (wrong_channel_count_is_refused sum_net halve_resize fill_resize nat
           counting_randint2 0%nat rgba_pixel_image 1 1 4); try lia.
  split; [reflexivity|]. repeat constructor.
Defined.

(** ** From the range of the network back to bytes: [post_process_image] *)

(** [np.moveaxis(a, 0, 2)] for any element type; [d] fills what a ragged
    list lacks and is never used on an array. *)
Definition moveaxis_0_2 {A : Type} (d : A) (t : list (list (list A))) : list (list (list A)) :=
  let H := length (hd [] t) in
  let W := length (hd [] (hd [] t)) in
  map (fun h => map (fun w => map (fun plane => nth w (nth h plane []) d) t) (seq 0 W))
      (seq 0 H).

(** [a * s.reshape(-1, 1, 1)] and [a + s.reshape(-1, 1, 1)] of numpy for a
    three-dimensional array [a]: the statistics run along the first axis,
    which must have their length or the length one. *)
Definition np_broadcast_channels (op : scalar -> scalar -> scalar) (stat : list R)
  (a : tensor3) : outcome tensor3 :=
  if length a =? length stat then
    Ok (zip_with (fun plane s => map2d (fun x => op x (Fin s)) plane) a stat)
  else if length a =? 1 then
    Ok (map (fun s => map2d (fun x => op x (Fin s)) (hd [] a)) stat)
  else Raise operands_mismatch.

(** [np.clip(x, 0., 1.)]: the minimum with 1 of the maximum with 0. *)
Definition np_clip01 (x : scalar) : scalar := smin (smax x (Fin 0)) (Fin 1).

(** The integer a real number is truncated to, towards zero. *)
Definition truncate (r : R) : Z :=
  if Rle_dec 0 r then Int_part r else (- Int_part (- r))%Z.

Definition byte_of_Z (z : Z) : byte :=
  match Byte.of_N (Z.to_N z) with
  | Some b => b
  | None => x00
  end.

(** The effects of the functions that write and show images, as the calls
    that were made.  [cv.imwrite] returns [True] when it has written the
    file and [False] when it has not (a missing directory, for one); the
    effect records what the call returned. *)
Inductive effect : Type :=
| Imwrite (name : string) (img : image_u8) (written : bool)
                                             (* cv.imwrite(name, img) returned written *)
| Imshow (img : image_u8)                    (* plt.imshow(img) *)
| PltShow                                    (* plt.show() *)
| Print (msg : string).                      (* print(msg) *)

Section PostProcess.

(** What the conversion of the platform gives for a value outside the
    domain of the conversion to an unsigned byte: NaN, or a number whose
    truncation is not in 0..255. *)
Variable cast_undefined : scalar -> byte.

(** [x.astype(np.uint8)] on one element. *)
Definition astype_uint8 (x : scalar) : byte :=
  match x with
  | Fin r =>
      if Rlt_dec (-1) r then
        if Rlt_dec r 256 then byte_of_Z (truncate r) else cast_undefined x
      else cast_undefined x
  | _ => cast_undefined x
  end.

(** [post_process_image(dump_img, channel_last)].  The argument is an array
    by its type, so the assertion of the source holds. *)
Definition post_process_image (dump_img : tensor3) (channel_last : bool) : outcome image_u8 :=
  let dump_img := if channel_last then hwc_to_chw dump_img else dump_img in
  let mean := IMAGENET_MEAN_1 in
  let std := IMAGENET_STD_1 in
  scaled <- np_broadcast_channels smul std dump_img ;;
  dump_img <- np_broadcast_channels sadd mean scaled ;;
  let dump_img := map3d (fun x => astype_uint8 (smul (np_clip01 x) (Fin 255))) dump_img in
  let dump_img := moveaxis_0_2 x00 dump_img in
  Ok dump_img.

(** The files, and [cv.imwrite(name, img)] on them: the flag that the call
    returns and the files after it, or the [cv2.error] that it raises. *)
Variable files : Type.
Variable cv_imwrite : string -> image_u8 -> files -> outcome (bool * files).

(** [save_and_maybe_display_image(dump_img, should_display, channel_last, name)]:
    the files after it and the calls it has made, in their order.  The
    argument is an array by its type, so the assertion of the source holds.
    The flag that [cv.imwrite] returns is dropped. *)
Definition save_and_maybe_display_image (dump_img : tensor3)
  (should_display channel_last : bool) (name : string) (fs : files)
  : outcome (files * list effect) :=
  dump_img <- post_process_image dump_img channel_last ;;
  '(written, fs) <- cv_imwrite name (reverse_channels dump_img) fs ;;
  let calls := [Imwrite name (reverse_channels dump_img) written] in
  if should_display then Ok (fs, calls ++ [Imshow dump_img; PltShow])
  else Ok (fs, calls).

End PostProcess.

Arguments save_and_maybe_display_image cast_undefined {files} cv_imwrite dump_img
  should_display channel_last name fs.

(** ** Preparing an image for a network: [prepare_img] *)

Definition IMAGENET_MEAN_255 : list R := [123.675; 116.28; 103.53]%R.
Definition IMAGENET_STD_NEUTRAL : list R := [1; 1; 1]%R.

Fixpoint has_zero (l : list R) : bool :=
  match l with
  | [] => false
  | s :: l' => if Req_dec_T s 0 then true else has_zero l'
  end.

(** [transforms.Normalize(mean, std)] on a channel x height x width tensor:
    a zero in [std] is refused, and the subtraction and the division run in
    place on a copy, so the channels must be as many as the statistics. *)
Definition normalize_transform (mean std : list R) (t : tensor3) : outcome tensor3 :=
  if has_zero std then
    Raise (ValueError "std evaluated to zero, leading to division by zero")
  else if length t =? length mean then
    Ok (zip_with (fun plane (ms : R * R) =>
                    map2d (fun x => sdiv (ssub x (Fin (fst ms))) (Fin (snd ms))) plane)
                 t (combine mean std))
  else Raise size_mismatch.

Section PrepareImg.

Variable os_path_exists : string -> bool.
Variable cv_imread : string -> option image_u8.
Variable cv_resize_cubic : image_u8 -> Z -> Z -> outcome image_u8.

(** [prepare_img(img_path, target_shape, device, batch_size, should_normalize,
    is_255_range)].  [transforms.ToTensor()] on a float array moves the
    channels first and leaves the values; the transforms are applied in the
    order of [transform_list]; [repeat] refuses a negative batch size. *)
Definition prepare_img (img_path : string) (ts : target_shape) (device : string)
  (batch_size : Z) (should_normalize is_255_range : bool) : outcome tensor :=
  img <- load_image os_path_exists cv_imread cv_resize_cubic img_path ts ;;
  let transform_list : list (tensor3 -> outcome tensor3) :=
    [fun pic => Ok (hwc_to_chw pic)] in
  let transform_list :=
    if is_255_range
    then transform_list ++ [fun x => Ok (map3d (fun v => smul v (Fin 255)) x)]
    else transform_list in
  let transform_list :=
    if should_normalize
    then transform_list ++
           [if is_255_range
            then normalize_transform IMAGENET_MEAN_255 IMAGENET_STD_NEUTRAL
            else normalize_transform IMAGENET_MEAN_1 IMAGENET_STD_1]
    else transform_list in
  img <- foldM (fun x (transform : tensor3 -> outcome tensor3) => transform x)
               transform_list img ;;
  if (batch_size <? 0)%Z then
    Raise (RuntimeError "Trying to create tensor with negative dimension")
  else
    Ok (mkTensor (repeat img (Z.to_nat batch_size)) None false).

(** ** The first experiment: [simple_deep_dream] *)

(** The call [gradient_ascent(backbone_network, img, lr)] gives three
    arguments to a function of four parameters without defaults. *)
Definition gradient_ascent_missing_cnt : exn :=
  TypeError "gradient_ascent() missing 1 required positional argument: 'cnt'".

Variable cast_undefined : scalar -> byte.
Variable files : Type.
Variable cv_imwrite : string -> image_u8 -> files -> outcome (bool * files).

Definition simple_deep_dream (vgg16 : network) (device : string) (img_path : string)
  (fs : files) : outcome (files * list effect) :=
  let img_path := "figures.jpg"%string in
  img <- prepare_img img_path (ShapeInt 500) device 1 true false ;;
  let img := mkTensor (data img) (grad img) true in
  let backbone_network := vgg16 in
  let n_iter := 2%Z in
  let lr := 0.2%R in
  img <- foldM (fun (img : tensor) (iter : Z) =>
                  (Raise gradient_ascent_missing_cnt : outcome tensor))
               (range n_iter) img ;;
  match data img with
  | [] => Raise IndexError
  | first :: _ =>
      save_and_maybe_display_image cast_undefined cv_imwrite first true false
                                   "test.jpg"%string fs
  end.

End PrepareImg.

Arguments simple_deep_dream os_path_exists cv_imread cv_resize_cubic cast_undefined
  {files} cv_imwrite vgg16 device img_path fs.

(** ** Properties of the conversions *)

(** The plane of channel [c] of a height x width x channel image. *)
Definition channel_plane (c : nat) (img : image) : matrix :=
  map (map (fun px => nth c px NaN)) img.

Lemma hwc_to_chw_three {img : image} {H W : nat} :
  1 <= H -> 1 <= W -> shape3d img H W 3 ->
  hwc_to_chw img = [channel_plane 0 img; channel_plane 1 img; channel_plane 2 img].
Proof.
  intros HH HW Hs. unfold hwc_to_chw.
  now rewrite (shape2d_hd HW (shape3d_hd HH Hs)).
Qed.

Lemma mapM_pure {A B : Type} (f : A -> outcome B) (g : A -> B) (l : list A) :
  (forall x, In x l -> f x = Ok (g x)) -> mapM f l = Ok (map g l).
Proof.
  induction l as [|x l IH]; intros Hf; [reflexivity|].
  cbn. rewrite (Hf x) by now left. cbn.
  rewrite IH by (intros y Hy; apply Hf; now right). reflexivity.
Qed.

(** [(x - mean[c]) / std[c]]. *)
Definition normalize_channel (c : nat) (x : scalar) : scalar :=
  sdiv (ssub x (Fin (nth c IMAGENET_MEAN_1 0%R))) (Fin (nth c IMAGENET_STD_1 0%R)).

Definition normalize_rgb (px : list scalar) : list scalar :=
  [normalize_channel 0 (nth 0 px NaN); normalize_channel 1 (nth 1 px NaN);
   normalize_channel 2 (nth 2 px NaN)].

Lemma preprocess_pixel_value (px : list scalar) :
  length px = 3 -> preprocess_pixel px = Ok (normalize_rgb px).
Proof.
  intros Hl. destruct px as [|x [|y [|z [|]]]]; try discriminate. reflexivity.
Qed.

Lemma preprocess_value {img : image} {H W : nat} :
  shape3d img H W 3 -> preprocess img = Ok (map (map normalize_rgb) img).
Proof.
  intros [_ Hs]. unfold preprocess.
  apply mapM_pure. intros row Hrow.
  rewrite Forall_forall in Hs. destruct (Hs _ Hrow) as [_ Hpx].
  apply mapM_pure. intros px Hin.
  rewrite Forall_forall in Hpx. now apply preprocess_pixel_value, Hpx.
Qed.

Lemma channel_plane_normalized (c : nat) {img : image} {H W : nat} :
  c < 3 -> shape3d img H W 3 ->
  channel_plane c (map (map normalize_rgb) img)
  = map2d (normalize_channel c) (channel_plane c img).
Proof.
  intros Hc [_ Hs]. unfold channel_plane, map2d.
  rewrite !map_map. apply map_ext_in. intros row Hrow.
  rewrite !map_map. apply map_ext_in. intros px Hpx.
  destruct c as [|[|[|c]]]; try lia; reflexivity.
Qed.

Lemma has_zero_std : has_zero IMAGENET_STD_1 = false.
Proof.
  unfold IMAGENET_STD_1. cbn.
  repeat (destruct (Req_dec_T _ 0) as [E|_]; [lra|]). reflexivity.
Qed.

Lemma has_zero_neutral : has_zero IMAGENET_STD_NEUTRAL = false.
Proof.
  unfold IMAGENET_STD_NEUTRAL. cbn.
  repeat (destruct (Req_dec_T _ 0) as [E|_]; [lra|]). reflexivity.
Qed.

(** Both normalizations of the file compute the same tensor. *)
Lemma normalize_transform_is_preprocess {img : image} {H W : nat} :
  1 <= H -> 1 <= W -> shape3d img H W 3 ->
  normalize_transform IMAGENET_MEAN_1 IMAGENET_STD_1 (hwc_to_chw img)
  = Ok (hwc_to_chw (map (map normalize_rgb) img)).
Proof.
  intros HH HW Hs.
  assert (Hs' : shape3d (map (map normalize_rgb) img) H W 3).
  { exact (preprocess_shape Hs (preprocess_value Hs)). }
  rewrite (hwc_to_chw_three HH HW Hs), (hwc_to_chw_three HH HW Hs').
  unfold normalize_transform. rewrite has_zero_std.
  rewrite !(fun c Hc => channel_plane_normalized c Hc Hs) by lia.
  reflexivity.
Qed.

Lemma shape3d_repeat4 {A : Type} (t : list (list (list A))) (n c h w : nat) :
  shape3d t c h w -> shape4d (repeat t n) n c h w.
Proof.
  intros Hs. split; [apply repeat_length|].
  apply Forall_forall. now intros ? ->%repeat_spec.
Qed.

(** X10. [prepare_img] with its default flags ([should_normalize] set,
    [is_255_range] not) computes for a loaded three-channel image what
    [preprocess] followed by the input adapter computes: the tensor holds
    [batch_size] copies of the channels-first preprocessed image, for one
    copy the tensor of [pytorch_input_adapter]; a negative [batch_size]
    raises a [RuntimeError]. *)
Theorem prepare_img_is_preprocess
  (os_path_exists : string -> bool) (cv_imread : string -> option image_u8)
  (cv_resize_cubic : image_u8 -> Z -> Z -> outcome image_u8)
  (img_path : string) (ts : target_shape) (device : string) (batch_size : Z)
  (img : image) (H W : nat) :
  load_image os_path_exists cv_imread cv_resize_cubic img_path ts = Ok img ->
  1 <= H -> 1 <= W -> shape3d img H W 3 ->
  exists b,
    preprocess img = Ok b /\
    ((0 <= batch_size)%Z ->
     exists t,
       prepare_img os_path_exists cv_imread cv_resize_cubic
                   img_path ts device batch_size true false = Ok t /\
       data t = repeat (hwc_to_chw b) (Z.to_nat batch_size) /\
       (batch_size = 1%Z -> data t = data (pytorch_input_adapter b)) /\
       shape4d (data t) (Z.to_nat batch_size) 3 H W) /\
    ((batch_size < 0)%Z ->
     exists msg,
       prepare_img os_path_exists cv_imread cv_resize_cubic
                   img_path ts device batch_size true false = Raise (RuntimeError msg)).
Proof.
  intros Hload HH HW Hs.
  exists (map (map normalize_rgb) img). split; [exact (preprocess_value Hs)|].
  assert (Hs' : shape3d (map (map normalize_rgb) img) H W 3)
    by exact (preprocess_shape Hs (preprocess_value Hs)).
  unfold prepare_img. rewrite Hload. cbn [bind app foldM].
  rewrite (normalize_transform_is_preprocess HH HW Hs). cbn [bind].
  split.
  - intros Hb. destruct (Z.ltb_spec batch_size 0) as [Hneg|_]; [lia|].
    eexists. split; [reflexivity|]. cbn [data]. split; [reflexivity|]. split.
    + intros ->. reflexivity.
    + apply shape3d_repeat4. now apply hwc_to_chw_shape.
  - intros Hb. destruct (Z.ltb_spec batch_size 0) as [_|Hpos]; [|lia].
    eexists. reflexivity.
Qed.

Definition one_pixel_file (path : string) : image_u8 := [[[x10; x80; xff]]].

Lemma prepare_img_is_preprocess_example :
  exists b,
    preprocess (astype_float_div255 (reverse_channels (one_pixel_file "a.png"%string))) = Ok b /\
    ((0 <= 2)%Z ->
     exists t,
       prepare_img (fun _ => true) (fun p => Some (one_pixel_file p)) (fun im _ _ => Ok im)
                   "a.png"%string ShapeNone "cpu"%string 2 true false = Ok t /\
       data t = repeat (hwc_to_chw b) (Z.to_nat 2) /\
       (2 = 1 -> data t = data (pytorch_input_adapter b))%Z /\
       shape4d (data t) (Z.to_nat 2) 3 1 1) /\
    ((2 < 0)%Z ->
     exists msg,
       prepare_img (fun _ => true) (fun p => Some (one_pixel_file p)) (fun im _ _ => Ok im)
                   "a.png"%string ShapeNone "cpu"%string 2 true false = Raise (RuntimeError msg)).
Proof.
  apply (prepare_img_is_preprocess (fun _ => true) (fun p => Some (one_pixel_file p)) (fun im _ _ => Ok im)
           "a.png"%string ShapeNone "cpu"%string 2
           (astype_float_div255 (reverse_channels (one_pixel_file "a.png"%string))) 1 1).
  - reflexivity.
  - lia.
  - lia.
  - split; [reflexivity|]. repeat constructor.
Defined.

(** X11. [simple_deep_dream] never returns.  It ignores its argument and
    reads figures.jpg; when that path does not exist it raises the
    exception of [load_image], and when the image has been prepared the
    first pass of its loop raises a [TypeError], for the call of
    [gradient_ascent] lacks the argument [cnt].  Nothing is written or shown. *)
Theorem simple_deep_dream_never_returns
  (os_path_exists : string -> bool) (cv_imread : string -> option image_u8)
  (cv_resize_cubic : image_u8 -> Z -> Z -> outcome image_u8)
  (cast_undefined : scalar -> byte)
  (files : Type) (cv_imwrite : string -> image_u8 -> files -> outcome (bool * files))
  (vgg16 : network) (device img_path : string) (fs : files) :
  let run := simple_deep_dream os_path_exists cv_imread cv_resize_cubic cast_undefined
                               cv_imwrite vgg16 device img_path fs in
  (forall effects, run <> Ok effects) /\
  (os_path_exists "figures.jpg"%string = false ->
   run = Raise (Exception "Path does not exist: figures.jpg"%string)) /\
  (forall t,
     prepare_img os_path_exists cv_imread cv_resize_cubic
                 "figures.jpg"%string (ShapeInt 500) device 1 true false = Ok t ->
     run = Raise gradient_ascent_missing_cnt).
Proof.
  cbn zeta. unfold simple_deep_dream.
  split; [|split].
  - intros effects.
    destruct (prepare_img os_path_exists cv_imread cv_resize_cubic
                "figures.jpg"%string (ShapeInt 500) device 1 true false) as [t|e];
      cbn; discriminate.
  - intros Hno. unfold prepare_img, load_image. rewrite Hno. reflexivity.
  - intros t Ht. rewrite Ht. reflexivity.
Qed.

Lemma chw_to_hwc_moveaxis (t : tensor3) : chw_to_hwc t = moveaxis_0_2 NaN t.
Proof. reflexivity. Qed.

Lemma shape3d_map3d {A B : Type} (f : A -> B) (t : list (list (list A))) (a b c : nat) :
  shape3d t a b c -> shape3d (map3d f t) a b c.
Proof.
  intros [Hl Hs]. split; [unfold map3d; now rewrite length_map|].
  apply Forall_map. eapply Forall_impl; [|exact Hs].
  intros m Hm. now apply shape2d_map2d.
Qed.

(** Moving the first axis last commutes with an element-wise map. *)
Lemma moveaxis_map3d {A B : Type} (f : A -> B) (d : A) (d' : B)
  (t : list (list (list A))) (C H W : nat) :
  shape3d t C H W ->
  moveaxis_0_2 d' (map3d f t) = map3d f (moveaxis_0_2 d t).
Proof.
  intros Hs. unfold moveaxis_0_2.
  assert (EH : length (hd [] (map3d f t)) = length (hd [] t))
    by (destruct t; [reflexivity | apply length_map]).
  assert (EW : length (hd [] (hd [] (map3d f t))) = length (hd [] (hd [] t)))
    by (destruct t as [|[|r m] t]; [reflexivity | reflexivity | apply length_map]).
  rewrite EH, EW. clear EH EW.
  unfold map3d, map2d. rewrite map_map.
  apply map_ext_in. intros h Hh%in_seq.
  rewrite map_map. apply map_ext_in. intros w Hw%in_seq.
  rewrite !map_map. apply map_ext_in. intros plane Hplane.
  destruct Hs as [_ Hs]. rewrite Forall_forall in Hs.
  pose proof (Hs _ Hplane) as Hp.
  destruct (Nat.eq_dec (length t) 0) as [E0|E0];
    [destruct t; [contradiction | discriminate]|].
  assert (HC : 1 <= length t) by lia.
  assert (Hhd : shape2d (hd [] t) H W).
  { destruct t as [|p0 t]; [simpl in HC; lia|]. apply Hs. now left. }
  assert (HhH : h < H) by (rewrite <- (proj1 Hhd); lia).
  assert (HwW : w < W).
  { rewrite <- (shape2d_hd (b := H) (c := W) (m := hd [] t)); [lia | lia | exact Hhd]. }
  change (@nil B) with (map f (@nil A)). rewrite map_nth.
  rewrite (nth_indep _ d' (f d)).
  - apply map_nth.
  - rewrite length_map, (shape2d_nth h HhH Hp). exact HwW.
Qed.

Lemma np_broadcast_three (op : scalar -> scalar -> scalar) (s0 s1 s2 : R) (p0 p1 p2 : matrix) :
  np_broadcast_channels op [s0; s1; s2] [p0; p1; p2]
  = Ok [map2d (fun x => op x (Fin s0)) p0; map2d (fun x => op x (Fin s1)) p1;
        map2d (fun x => op x (Fin s2)) p2].
Proof. reflexivity. Qed.

(** Every element of a three-dimensional array. *)
Definition all_elements {A : Type} (P : A -> Prop) (t : list (list (list A))) : Prop :=
  Forall (Forall (Forall P)) t.

Lemma hwc_to_chw_elements (P : scalar -> Prop) (img : image) (A B C : nat) :
  shape3d img A B C -> all_elements P img -> all_elements P (hwc_to_chw img).
Proof.
  intros Hs Hp. unfold all_elements, hwc_to_chw.
  apply Forall_map, Forall_forall. intros c Hc%in_seq.
  apply Forall_map, Forall_forall. intros row Hrow.
  apply Forall_map, Forall_forall. intros px Hpx.
  assert (HA : 1 <= A).
  { destruct Hs as [Hl _]. destruct img; [contradiction | simpl in Hl; lia]. }
  assert (HB : 1 <= B).
  { destruct Hs as [_ Hf]. rewrite Forall_forall in Hf.
    destruct (Hf _ Hrow) as [Hl _]. destruct row; [contradiction | simpl in Hl; lia]. }
  rewrite (shape2d_hd HB (shape3d_hd HA Hs)) in Hc.
  unfold all_elements in Hp. rewrite Forall_forall in Hp. specialize (Hp _ Hrow).
  rewrite Forall_forall in Hp. specialize (Hp _ Hpx).
  rewrite Forall_forall in Hp. apply Hp, nth_In.
  destruct Hs as [_ Hf]. rewrite Forall_forall in Hf.
  destruct (Hf _ Hrow) as [_ Hl]. rewrite Forall_forall in Hl.
  rewrite (Hl _ Hpx). lia.
Qed.

Lemma map2d_elements {A B : Type} (P : A -> Prop) (Q : B -> Prop) (f : A -> B)
  (m : list (list A)) :
  (forall x, P x -> Q (f x)) -> Forall (Forall P) m -> Forall (Forall Q) (map2d f m).
Proof.
  intros Hf Hm. unfold map2d.
  apply Forall_map. eapply Forall_impl; [|exact Hm]. intros row Hrow.
  apply Forall_map. eapply Forall_impl; [|exact Hrow]. exact Hf.
Qed.

Lemma np_broadcast_elements (P Q : scalar -> Prop) (op : scalar -> scalar -> scalar)
  (stat : list R) (a a' : tensor3) :
  np_broadcast_channels op stat a = Ok a' ->
  (forall x s, P x -> In s stat -> Q (op x (Fin s))) ->
  all_elements P a -> all_elements Q a'.
Proof.
  unfold np_broadcast_channels, all_elements. intros Ha Hop HP.
  destruct (length a =? length stat).
  - injection Ha as <-.
    apply (zip_with_Forall _ (Forall (Forall P)) (fun s => In s stat)); [exact HP| |].
    + now apply Forall_forall.
    + intros plane s Hplane Hs.
      apply (map2d_elements P Q); [|exact Hplane]. intros x Hx. now apply Hop.
  - destruct (length a =? 1); [|discriminate]. injection Ha as <-.
    apply Forall_map, Forall_forall. intros s Hs.
    apply (map2d_elements P Q); [intros x Hx; now apply Hop|].
    destruct a as [|p a]; [constructor | now inversion HP].
Qed.

Lemma smul_pos_not_nan (x : scalar) (s : R) :
  (0 < s)%R -> ~ is_nan x -> ~ is_nan (smul x (Fin s)).
Proof.
  intros Hs Hx. destruct x as [r| | |]; cbn; try tauto; unfold inf_signed;
    destruct (Req_dec_T s 0) as [E|_]; try lra;
    destruct (Rlt_dec 0 s); cbn; tauto.
Qed.

Lemma std_positive (s : R) : In s IMAGENET_STD_1 -> (0 < s)%R.
Proof. unfold IMAGENET_STD_1. cbn. intros [<-|[<-|[<-|[]]]]; lra. Qed.

(** After the clip every number is in the domain of the conversion. *)
Lemma astype_clip_defined (c1 c2 : scalar -> byte) (x : scalar) :
  ~ is_nan x ->
  astype_uint8 c1 (smul (np_clip01 x) (Fin 255))
  = astype_uint8 c2 (smul (np_clip01 x) (Fin 255)).
Proof.
  intros Hx.
  assert (Hq : exists q, np_clip01 x = Fin q /\ (0 <= q <= 1)%R).
  { destruct x as [r| | |]; cbn in *; try tauto.
    - eexists. split; [reflexivity|]. split.
      + apply Rmin_glb; [apply Rmax_r | lra].
      + apply Rmin_r.
    - exists 1%R. split; [reflexivity | lra].
    - exists (Rmin 0 1). split; [reflexivity|]. rewrite Rmin_left; lra. }
  destruct Hq as [q [-> Hq]]. cbn [smul astype_uint8].
  destruct (Rlt_dec (-1) (q * 255)) as [_|Hn]; [|exfalso; apply Hn; nra].
  destruct (Rlt_dec (q * 255) 256) as [_|Hn]; [|exfalso; apply Hn; nra].
  reflexivity.
Qed.

(** X13. Without NaN the result of [post_process_image] is defined: when no
    element of the array is NaN (infinities are allowed), every value that
    reaches the conversion to bytes lies in 0..255 after the clip, so the
    result does not depend on what the platform does outside the domain of
    the conversion. *)
Theorem post_process_is_defined_without_nan
  (cast1 cast2 : scalar -> byte) (dump_img : tensor3) (channel_last : bool) (A B C : nat) :
  shape3d dump_img A B C ->
  all_elements (fun x => ~ is_nan x) dump_img ->
  post_process_image cast1 dump_img channel_last
  = post_process_image cast2 dump_img channel_last.
Proof.
  intros Hs Hn. unfold post_process_image.
  set (t := if channel_last then hwc_to_chw dump_img else dump_img).
  assert (Ht : all_elements (fun x => ~ is_nan x) t).
  { unfold t. destruct channel_last; [|exact Hn].
    now apply (hwc_to_chw_elements _ dump_img A B C). }
  destruct (np_broadcast_channels smul IMAGENET_STD_1 t) as [scaled|e] eqn:E1;
    [|reflexivity].
  assert (Hsc : all_elements (fun x => ~ is_nan x) scaled).
  { apply (np_broadcast_elements (fun x => ~ is_nan x) _ _ _ _ _ E1); [|exact Ht].
    intros x s Hx Hin. apply smul_pos_not_nan; [now apply std_positive | exact Hx]. }
  cbn [bind].
  destruct (np_broadcast_channels sadd IMAGENET_MEAN_1 scaled) as [d|e] eqn:E2;
    [|reflexivity].
  assert (Hd : all_elements (fun x => ~ is_nan x) d).
  { apply (np_broadcast_elements (fun x => ~ is_nan x) _ _ _ _ _ E2); [|exact Hsc].
    intros x s Hx _. now apply sadd_not_nan. }
  cbn [bind]. do 2 f_equal.
  unfold map3d, map2d.
  apply map_ext_in. intros m Hm. apply map_ext_in. intros row Hrow.
  apply map_ext_in. intros x Hx.
  apply astype_clip_defined.
  unfold all_elements in Hd. rewrite Forall_forall in Hd. specialize (Hd _ Hm).
  rewrite Forall_forall in Hd. specialize (Hd _ Hrow).
  rewrite Forall_forall in Hd. now apply Hd.
Qed.

Lemma post_process_is_defined_without_nan_example :
  post_process_image (fun _ => x00) grey_image true
  = post_process_image (fun _ => xff) grey_image true.
Proof.
  apply (post_process_is_defined_without_nan (fun _ => x00) (fun _ => xff)
           grey_image true 40 40 3).
  - apply (shape3d_const (gray 0.5) 40 40).
  - apply all_pixels_const. unfold gray. repeat constructor; cbn; tauto.
Defined.

Lemma reverse_channels_involutive {A : Type} (img : list (list (list A))) :
  reverse_channels (reverse_channels img) = img.
Proof.
  unfold reverse_channels. rewrite map_map.
  rewrite <- (map_id img) at 2. apply map_ext. intros row.
  rewrite map_map. rewrite <- (map_id row) at 2. apply map_ext. intros px.
  apply rev_involutive.
Qed.

Lemma channel_plane_shape (c : nat) (img : image) (H W C : nat) :
  shape3d img H W C -> shape2d (channel_plane c img) H W.
Proof.
  intros [Hl Hs]. unfold channel_plane. split; [now rewrite length_map|].
  apply Forall_map. eapply Forall_impl; [|exact Hs].
  intros row [Hr _]. now rewrite length_map.
Qed.

(** The post-processed image of a height x width x 3 array. *)
Lemma post_process_channel_last (cast_undefined : scalar -> byte) (img : image) (H W : nat) :
  1 <= H -> 1 <= W -> shape3d img H W 3 ->
  exists rgb, post_process_image cast_undefined img true = Ok rgb /\ shape3d rgb H W 3.
Proof.
  intros HH HW Hs. unfold post_process_image.
  rewrite (hwc_to_chw_three HH HW Hs).
  unfold IMAGENET_STD_1, IMAGENET_MEAN_1.
  rewrite np_broadcast_three. cbn [bind].
  rewrite np_broadcast_three. cbn [bind].
  eexists. split; [reflexivity|].
  rewrite (moveaxis_map3d _ NaN x00 _ 3 H W).
  - apply shape3d_map3d. rewrite <- chw_to_hwc_moveaxis.
    apply chw_to_hwc_shape; [lia|].
    split; [reflexivity|].
    repeat (constructor; [do 2 apply shape2d_map2d; now apply (channel_plane_shape _ img H W 3)|]).
    constructor.
  - split; [reflexivity|].
    repeat (constructor; [do 2 apply shape2d_map2d; now apply (channel_plane_shape _ img H W 3)|]).
    constructor.
Qed.

(** [cv.imwrite] where the directory of the name is missing: nothing is
    written and [False] is returned.  The files are the names that exist. *)
Definition imwrite_without_directory (name : string) (img : image_u8) (fs : list string)
  : outcome (bool * list string) :=
  Ok (false, fs).

(** X14. What [save_and_maybe_display_image] does with an image of [H] rows,
    [W] columns and three channels.  With [channel_last] set it calls
    [cv.imwrite] once, with the name and the post-processed image with its
    channels reversed (reversing them again, as [load_image] does, gives the
    post-processed image, of the shape of the input).  It does not look at
    what the call returns: after a call that returned, [True] or [False],
    it shows the image exactly when [should_display] is set and returns, and
    the files are what the call left, so after [False] it returns with no
    file written.  When the call raises, it raises the same.  Without
    [channel_last], the default, it raises a [ValueError] unless [H] is 1
    or 3, whatever [cv.imwrite] would do: the call is not reached. *)
Theorem save_calls_imwrite_once
  (cast_undefined : scalar -> byte)
  (files : Type) (cv_imwrite : string -> image_u8 -> files -> outcome (bool * files))
  (img : image) (should_display : bool) (name : string) (fs : files) (H W : nat) :
  1 <= H -> 1 <= W -> shape3d img H W 3 ->
  (exists rgb bgr,
     post_process_image cast_undefined img true = Ok rgb /\
     shape3d rgb H W 3 /\
     reverse_channels bgr = rgb /\
     save_and_maybe_display_image cast_undefined cv_imwrite img should_display true name fs
     = match cv_imwrite name bgr fs with
       | Ok (written, fs') =>
           Ok (fs', Imwrite name bgr written
                      :: (if should_display then [Imshow rgb; PltShow] else []))
       | Raise e => Raise e
       end) /\
  (H <> 1 -> H <> 3 ->
   forall cv_imwrite' : string -> image_u8 -> files -> outcome (bool * files),
     save_and_maybe_display_image cast_undefined cv_imwrite' img should_display false name fs
     = Raise operands_mismatch).
Proof.
  intros HH HW Hs. split.
  - destruct (post_process_channel_last cast_undefined img H W HH HW Hs) as [rgb [Hrgb Hshape]].
    exists rgb, (reverse_channels rgb).
    split; [exact Hrgb|]. split; [exact Hshape|].
    split; [apply reverse_channels_involutive|].
    unfold save_and_maybe_display_image. rewrite Hrgb. cbn [bind].
    destruct (cv_imwrite name (reverse_channels rgb) fs) as [[written fs']|e];
      [|reflexivity].
    cbn [bind]. now destruct should_display.
  - intros H1 H3 cv_imwrite'.
    assert (E : np_broadcast_channels smul IMAGENET_STD_1 img = Raise operands_mismatch).
    { unfold np_broadcast_channels. destruct Hs as [Hl _]. rewrite Hl.
      change (length IMAGENET_STD_1) with 3.
      destruct (Nat.eqb_spec H 3); [contradiction|].
      destruct (Nat.eqb_spec H 1); [contradiction|]. reflexivity. }
    unfold save_and_maybe_display_image, post_process_image. now rewrite E.
Qed.

Lemma save_calls_imwrite_once_example :
  (exists rgb bgr,
     post_process_image (fun _ => x00) grey_image true = Ok rgb /\
     shape3d rgb 40 40 3 /\
     reverse_channels bgr = rgb /\
     save_and_maybe_display_image (fun _ => x00) imwrite_without_directory
                                  grey_image false true "video/0.jpg" []
     = Ok ([], [Imwrite "video/0.jpg" bgr false])) /\
  (40 <> 1 -> 40 <> 3 ->
   forall cv_imwrite' : string -> image_u8 -> list string -> outcome (bool * list string),
     save_and_maybe_display_image (fun _ => x00) cv_imwrite' grey_image false false
                                  "video/0.jpg" []
     = Raise operands_mismatch).
Proof.
  apply (save_calls_imwrite_once (fun _ => x00) (list string) imwrite_without_directory
           grey_image false "video/0.jpg" [] 40 40);
    try lia.
  apply (shape3d_const (gray 0.5) 40 40).
Defined.

(** ** More on the smoothing filter *)

(** The filter whose three weights are the normalized kernel, on real numbers. *)
Lemma GaussianSmoothing_init_unit (channels k : nat) (sigma : R) :
  (0 < sigma)%R -> 1 <= k ->
  GaussianSmoothing_init channels k sigma =
  let w := repeat [map2d Fin (unit_weight k sigma)] channels in
  Ok (mkGaussianSmoothing (Nat.div k 2) w w w channels).
Proof.
  intros Hs Hk. rewrite GaussianSmoothing_init_value by lra. cbn zeta.
  destruct (unit_weight_spec (k := k) Hs Hk) as [Hw _]. now rewrite Hw.
Qed.

(** X15. The shape of the smoothed tensor for every kernel size.  For a
    positive [sigma], a kernel size [k >= 1] and an input of height and
    width above [k / 2], the filter is built and returns a tensor of the
    batch size and the channels of the input, of height
    [H + 2 * (k / 2) + 1 - k] and the like width: the shape of the input
    for an odd [k], one row and one column more for an even [k]. *)
Theorem smoothing_output_shape
  (channels k : nat) (sigma : R) (input : tensor4) (N H W : nat) :
  (0 < sigma)%R -> 1 <= k -> k / 2 < H -> k / 2 < W ->
  shape4d input N channels H W ->
  exists gs out,
    GaussianSmoothing_init channels k sigma = Ok gs /\
    GaussianSmoothing_forward gs input = Ok out /\
    shape4d out N channels (H + 2 * (k / 2) + 1 - k) (W + 2 * (k / 2) + 1 - k) /\
    (Nat.odd k = true -> shape4d out N channels H W) /\
    (Nat.even k = true -> shape4d out N channels (H + 1) (W + 1)).
Proof.
  intros Hs Hk HH HW Hin.
  rewrite (GaussianSmoothing_init_unit channels k sigma Hs Hk). cbn zeta.
  exists (let w := repeat [map2d Fin (unit_weight k sigma)] channels in
          mkGaussianSmoothing (k / 2) w w w channels).
  cbn zeta. unfold GaussianSmoothing_forward. cbn [pad weight1 weight2 weight3 groups].
  destruct (reflect_pad_total (p := k / 2) HH HW Hin) as [padded [Hpad Hps]].
  rewrite Hpad. cbn [bind].
  destruct (unit_weight_spec (k := k) Hs Hk) as [_ [Hshape _]].
  assert (Hker : shape2d (map2d Fin (unit_weight k sigma)) k k)
    by now apply shape2d_map2d.
  pose proof (Nat.div_mod_eq k 2) as Hdm.
  pose proof (Nat.mod_upper_bound k 2 (ltac:(lia) : 2 <> 0)) as Hm.
  destruct (conv2d_total Hker Hps) as [out [Hout Hos]]; try lia.
  rewrite Hout. cbn [bind].
  exists (add4d (add4d out out) out).
  split; [reflexivity|]. split; [reflexivity|].
  assert (Hsum : shape4d (add4d (add4d out out) out) N channels
                         (H + 2 * (k / 2) + 1 - k) (W + 2 * (k / 2) + 1 - k))
    by now repeat apply add4d_shape.
  split; [exact Hsum|]. split.
  - intros Hodd. apply Nat.odd_spec in Hodd. destruct Hodd as [m Hm2].
    replace (H + 2 * (k / 2) + 1 - k) with H in Hsum by lia.
    replace (W + 2 * (k / 2) + 1 - k) with W in Hsum by lia.
    exact Hsum.
  - intros Heven. apply Nat.even_spec in Heven. destruct Heven as [m Hm2].
    replace (H + 2 * (k / 2) + 1 - k) with (H + 1) in Hsum by lia.
    replace (W + 2 * (k / 2) + 1 - k) with (W + 1) in Hsum by lia.
    exact Hsum.
Qed.

Lemma smoothing_output_shape_example :
  exists gs out,
    GaussianSmoothing_init 3 4 1 = Ok gs /\
    GaussianSmoothing_forward gs (const4d (Fin 0) 1 3 5 5) = Ok out /\
    shape4d out 1 3 (5 + 2 * (4 / 2) + 1 - 4) (5 + 2 * (4 / 2) + 1 - 4) /\
    (Nat.odd 4 = true -> shape4d out 1 3 5 5) /\
    (Nat.even 4 = true -> shape4d out 1 3 (5 + 1) (5 + 1)).
Proof.
  apply (smoothing_output_shape 3 4 1 (const4d (Fin 0) 1 3 5 5) 1 5 5).
  - lra.
  - lia.
  - cbn. lia.
  - cbn. lia.
  - apply shape4d_const.
Defined.

(** X16. The smoothing of the ascent step adds three equal results.  In
    the iterations of the driver ([cnt] from 0 to 9, so the kernel size 9
    and [sigma] from 0.7 to 2.5) each of the three weights of the filter
    is, in each of the three channels, a 9 x 9 kernel whose entries sum to
    1, and the filter returns for a constant gradient of value [c], of more
    than four rows and columns, the constant tensor of value [3 * c].  The
    numbers are exact here; the float32 arithmetic of the code rounds
    them. *)
Theorem smoothing_triples_a_constant (cnt : Z) (c : R) (N H W : nat) :
  (0 <= cnt < n_iter)%Z -> 4 < H -> 4 < W ->
  exists gs,
    GaussianSmoothing_init 3 KERNEL_SIZE (ascent_sigma cnt) = Ok gs /\
    (forall w, In w [weight1 gs; weight2 gs; weight3 gs] ->
       exists kernel : list (list R),
         w = repeat [map2d Fin kernel] 3 /\
         shape2d kernel 9 9 /\ rsum (concat kernel) = 1%R) /\
    GaussianSmoothing_forward gs (const4d (Fin c) N 3 H W)
    = Ok (const4d (Fin (3 * c)) N 3 H W) /\
    smooth cnt (const4d (Fin c) N 3 H W) = Ok (const4d (Fin (3 * c)) N 3 H W).
Proof.
  intros [Hcnt _] HH HW.
  pose proof (ascent_sigma_pos Hcnt) as Hs.
  assert (Hk : 1 <= KERNEL_SIZE) by (unfold KERNEL_SIZE; lia).
  unfold smooth.
  rewrite (GaussianSmoothing_init_unit 3 KERNEL_SIZE (ascent_sigma cnt) Hs Hk). cbn zeta.
  eexists. split; [reflexivity|].
  destruct (unit_weight_spec (k := KERNEL_SIZE) Hs Hk) as [_ [Hshape Hsum]].
  cbn [weight1 weight2 weight3 bind].
  assert (Hfwd : GaussianSmoothing_forward
                   (let w := repeat [map2d Fin (unit_weight KERNEL_SIZE (ascent_sigma cnt))] 3 in
                    mkGaussianSmoothing (KERNEL_SIZE / 2) w w w 3)
                   (const4d (Fin c) N 3 H W)
                 = Ok (const4d (Fin (3 * c)) N 3 H W)).
  { cbn zeta. unfold GaussianSmoothing_forward. cbn [pad weight1 weight2 weight3 groups].
    change (KERNEL_SIZE / 2) with 4.
    rewrite reflect_pad_const by lia. cbn [bind].
    rewrite (conv2d_const c (kh := 9) (kw := 9)) by (try exact Hshape; lia).
    cbn [bind]. rewrite Hsum, !add4d_const. cbn [sadd].
    replace (3 * c)%R with (1 * c + 1 * c + 1 * c)%R by lra.
    replace (H + 2 * 4 + 1 - 9) with H by lia.
    replace (W + 2 * 4 + 1 - 9) with W by lia. reflexivity. }
  split; [|split; exact Hfwd].
  intros w Hw. exists (unit_weight KERNEL_SIZE (ascent_sigma cnt)).
  split; [|split; assumption].
  destruct Hw as [<-|[<-|[<-|[]]]]; reflexivity.
Qed.

Lemma smoothing_triples_a_constant_example :
  exists gs,
    GaussianSmoothing_init 3 KERNEL_SIZE (ascent_sigma 0) = Ok gs /\
    (forall w, In w [weight1 gs; weight2 gs; weight3 gs] ->
       exists kernel : list (list R),
         w = repeat [map2d Fin kernel] 3 /\
         shape2d kernel 9 9 /\ rsum (concat kernel) = 1%R) /\
    GaussianSmoothing_forward gs (const4d (Fin 2) 1 3 5 5)
    = Ok (const4d (Fin (3 * 2)) 1 3 5 5) /\
    smooth 0 (const4d (Fin 2) 1 3 5 5) = Ok (const4d (Fin (3 * 2)) 1 3 5 5).
Proof.
  apply (smoothing_triples_a_constant 0 2 1 5 5).
  - unfold n_iter. lia.
  - lia.
  - lia.
Defined.

(** ** Tensors that are too small for the filter *)

Definition padding_too_large : exn :=
  RuntimeError "Padding size should be less than the corresponding input dimension".

Lemma reflect_pad1_short {A : Type} (p : nat) (l : list A) :
  length l <= p -> reflect_pad1 p l = Raise padding_too_large.
Proof.
  intros Hl. unfold reflect_pad1.
  destruct (Nat.ltb_spec p (length l)); [lia | reflexivity].
Qed.

Lemma reflect_pad_plane_short (p H W : nat) (x : matrix) :
  shape2d x H W -> H <= p \/ W <= p -> reflect_pad_plane p x = Raise padding_too_large.
Proof.
  intros [Hl Hrows] Hsmall. unfold reflect_pad_plane.
  destruct (Nat.le_gt_cases W p) as [HW|HW].
  - destruct x as [|row x].
    + cbn [mapM bind]. apply reflect_pad1_short. simpl. lia.
    + rewrite (mapM_raise_head _ _ _ padding_too_large); [reflexivity|].
      apply reflect_pad1_short. rewrite (Forall_inv Hrows). exact HW.
  - assert (HH : H <= p) by lia.
    destruct (mapM_total (reflect_pad1 p) (fun row => length row = W) (fun _ => True)
                (l := x)) as [rows [Hrows' [Hlen _]]].
    + exact Hrows.
    + intros row Hrow.
      destruct (reflect_pad1_total p row) as [row' [Hr _]]; [lia|]. eauto.
    + rewrite Hrows'. cbn [bind]. apply reflect_pad1_short. lia.
Qed.

Lemma reflect_pad_short (p N C H W : nat) (t : tensor4) :
  1 <= N -> 1 <= C -> shape4d t N C H W -> H <= p \/ W <= p ->
  reflect_pad p t = Raise padding_too_large.
Proof.
  intros HN HC [Hl Hs] Hsmall. unfold reflect_pad.
  destruct t as [|img t]; [simpl in Hl; lia|].
  destruct (Forall_inv Hs) as [Hc Hp].
  destruct img as [|plane img]; [simpl in Hc; lia|].
  apply mapM_raise_head, mapM_raise_head.
  apply (reflect_pad_plane_short p H W); [exact (Forall_inv Hp) | exact Hsmall].
Qed.

Lemma smooth_short (cnt : Z) (g : tensor4) (N H W : nat) :
  1 <= N -> shape4d g N 3 H W -> H <= 4 \/ W <= 4 ->
  smooth cnt g = Raise padding_too_large.
Proof.
  intros HN Hg Hsmall. unfold smooth.
  rewrite GaussianSmoothing_init_value by apply ascent_sigma_nonzero.
  cbn zeta. cbn [bind]. unfold GaussianSmoothing_forward. cbn [pad].
  change (KERNEL_SIZE / 2) with 4.
  rewrite (reflect_pad_short 4 N 3 H W g); [reflexivity | lia | lia | exact Hg | exact Hsmall].
Qed.

Lemma gradient_ascent_short (net : network) (t : tensor) (lr : R) (cnt : Z) (N H W : nat) :
  grad_shaped net -> requires_grad t = true -> grad t = None ->
  1 <= N -> shape4d (data t) N 3 H W -> H <= 4 \/ W <= 4 ->
  gradient_ascent net t lr cnt = Raise padding_too_large.
Proof.
  intros Hnet Hrg Hgrad HN Hs Hsmall.
  unfold gradient_ascent, loss_backward, ascent_loss_gradient.
  rewrite Hrg, Hgrad. cbn [bind grad data requires_grad].
  rewrite (smooth_short cnt _ N H W); [reflexivity | exact HN | now apply Hnet | exact Hsmall].
Qed.

(** X17. An ascent step on a tensor of at most four rows or at most four
    columns raises the [RuntimeError] of the reflect padding (the padding,
    4 for the kernel size 9, must be less than the dimension), for every
    iteration index and learning rate; the tensor has three channels, a
    fresh gradient, and the network returns gradients of the shape of its
    input. *)
Theorem small_tensor_is_refused
  (net : network) (t : tensor) (lr : R) (cnt : Z) (N H W : nat) :
  grad_shaped net -> requires_grad t = true -> grad t = None ->
  1 <= N -> shape4d (data t) N 3 H W -> H <= 4 \/ W <= 4 ->
  gradient_ascent net t lr cnt
  = Raise (RuntimeError "Padding size should be less than the corresponding input dimension").
Proof. apply gradient_ascent_short. Qed.

Lemma small_tensor_is_refused_example :
  gradient_ascent sum_net (mkTensor (const4d (Fin 0) 1 3 4 7) None true) 0.09 0
  = Raise (RuntimeError "Padding size should be less than the corresponding input dimension").
Proof.
  apply (small_tensor_is_refused sum_net (mkTensor (const4d (Fin 0) 1 3 4 7) None true)
           0.09 0 1 4 7).
  - apply sum_net_shaped.
  - reflexivity.
  - reflexivity.
  - lia.
  - apply shape4d_const.
  - left. lia.
Defined.

(** X18. When the ascent step returns.  For a three-channel tensor with a
    fresh gradient, at least one batch entry and a non-negative iteration
    index, and a network that returns gradients of the shape of its input,
    [gradient_ascent] returns (with a tensor of the same shape) exactly
    when the tensor has more than four rows and more than four columns. *)
Theorem ascent_step_returns_iff
  (net : network) (t : tensor) (lr : R) (cnt : Z) (N H W : nat) :
  grad_shaped net -> requires_grad t = true -> grad t = None ->
  1 <= N -> shape4d (data t) N 3 H W -> (0 <= cnt)%Z ->
  (exists t', gradient_ascent net t lr cnt = Ok (tt, t') /\ shape4d (data t') N 3 H W)
  <-> 4 < H /\ 4 < W.
Proof.
  intros Hnet Hrg Hgrad HN Hs Hcnt. split.
  - intros [t' [Hrun _]].
    destruct (Nat.le_gt_cases H 4) as [HH|HH].
    + rewrite (gradient_ascent_short net t lr cnt N H W) in Hrun by auto. discriminate.
    + destruct (Nat.le_gt_cases W 4) as [HW|HW]; [|lia].
      rewrite (gradient_ascent_short net t lr cnt N H W) in Hrun by auto. discriminate.
  - intros [HH HW].
    destruct (gradient_ascent_total t lr cnt (N := N) Hnet Hrg Hgrad Hs HH HW Hcnt)
      as [t' Hrun].
    exists t'. split; [exact Hrun|].
    exact (gradient_ascent_shape net t t' lr cnt tt N H W Hs Hrun).
Qed.

Lemma ascent_step_returns_iff_example :
  (exists t', gradient_ascent sum_net dark_image 0.09 0 = Ok (tt, t') /\
              shape4d (data t') 1 3 5 5)
  <-> 4 < 5 /\ 4 < 5.
Proof.
  apply (ascent_step_returns_iff sum_net dark_image 0.09 0 1 5 5).
  - apply sum_net_shaped.
  - reflexivity.
  - reflexivity.
  - lia.
  - apply (shape4d_const (Fin 0) 1 3 5 5).
  - lia.
Defined.

(** ** The range of what [deep_dream] returns *)

(** A value the clamp can leave in channel [c]: NaN, or a number within the
    bounds of the channel. *)
Definition clamped_value (c : nat) (x : scalar) : Prop :=
  is_nan x \/ within_channel_bounds c x.

Definition clamped4 (t : tensor4) : Prop :=
  Forall (fun img : tensor3 =>
            forall c plane, nth_error img c = Some plane ->
                            Forall (Forall (clamped_value c)) plane) t.

Lemma clamp_to_bounds_clamped {t t' : tensor4} :
  clamp_to_bounds t = Ok t' -> clamped4 t'.
Proof.
  intros Hc. unfold clamped4.
  apply Forall_forall. intros img Himg c plane Hplane.
  apply Forall_forall. intros row Hrow. apply Forall_forall. intros x Hx.
  destruct (In_nth_error _ _ Himg) as [n Hn].
  destruct (In_nth_error _ _ Hrow) as [h Hh].
  destruct (In_nth_error _ _ Hx) as [w Hw].
  assert (Hat : tensor_at t' n c h w = Some x)
    by (unfold tensor_at; now rewrite Hn, Hplane, Hh).
  destruct (clamp_to_bounds_spec Hc Hat) as [lo [hi [x0 [Hlo [Hhi [Hle [_ ->]]]]]]].
  destruct (clamp_scalar x0 Hle) as [[_ Hnan]|[_ Hin]].
  - now left.
  - right. now exists lo, hi.
Qed.

Lemma torch_roll_clamped (t : tensor4) (hs ws : Z) :
  clamped4 t -> clamped4 (torch_roll t hs ws).
Proof.
  unfold clamped4, torch_roll. intros Ht.
  apply Forall_map. eapply Forall_impl; [|exact Ht].
  intros img Himg c plane' Hc. rewrite nth_error_map in Hc.
  destruct (nth_error img c) as [plane|] eqn:Ec; [|discriminate].
  injection Hc as <-. specialize (Himg c plane Ec).
  apply Forall_map, Forall_forall. intros row Hrow%In_roll.
  rewrite Forall_forall in Himg. specialize (Himg _ Hrow).
  apply Forall_forall. intros x Hx%In_roll.
  rewrite Forall_forall in Himg. now apply Himg.
Qed.

Lemma foldM_nonempty {A S : Type} (f : S -> A -> outcome S) (Q : S -> Prop)
  (l : list A) (s s' : S) :
  l <> [] -> (forall s0 x s1, f s0 x = Ok s1 -> Q s1) ->
  foldM f l s = Ok s' -> Q s'.
Proof.
  intros Hne Hf. revert s. induction l as [|x l IH]; intros s Hrun; [congruence|].
  cbn [foldM] in Hrun. apply bind_Ok_inv in Hrun. destruct Hrun as [s1 [Hx Hrun]].
  destruct l as [|y l].
  - cbn in Hrun. injection Hrun as <-. exact (Hf _ _ _ Hx).
  - apply (IH ltac:(discriminate) s1 Hrun).
Qed.

Lemma output_adapter_clamped (t : tensor) (r : image) :
  clamped4 (data t) -> pytorch_output_adapter t = Ok r ->
  forall h w c x, image_at r h w c = Some x -> clamped_value c x.
Proof.
  unfold pytorch_output_adapter. intros Ht Hr h w c x Hx.
  destruct (data t) as [|first rest]; [discriminate|]. injection Hr as <-.
  pose proof (Forall_inv Ht) as Hfirst. cbn beta in Hfirst.
  unfold image_at, chw_to_hwc in Hx.
  rewrite nth_error_map in Hx.
  destruct (nth_error (seq 0 (length (hd [] first))) h) as [h'|]; [|discriminate].
  cbn [option_map] in Hx. rewrite nth_error_map in Hx.
  destruct (nth_error (seq 0 (length (hd [] (hd [] first)))) w) as [w'|]; [|discriminate].
  cbn [option_map] in Hx. rewrite nth_error_map in Hx.
  destruct (nth_error first c) as [plane|] eqn:Ec; [|discriminate].
  injection Hx as <-. specialize (Hfirst c plane Ec).
  destruct (nth_in_or_default h' plane []) as [Hrow|Hrow].
  - rewrite Forall_forall in Hfirst. specialize (Hfirst _ Hrow).
    destruct (nth_in_or_default w' (nth h' plane []) NaN) as [Hin|Hd].
    + rewrite Forall_forall in Hfirst. now apply Hfirst.
    + rewrite Hd. now left.
  - rewrite Hrow. left. now destruct w'.
Qed.

Section DreamRange.

Variable net : network.
Variable cv_resize : image -> R -> R -> outcome image.
Variable cv_resize_to : image -> Z -> Z -> image.
Variable rng : Type.
Variable randint2 : Z -> Z -> rng -> (Z * Z) * rng.

Lemma dream_iteration_clamped (st st' : tensor * rng) (i : Z) :
  dream_iteration net randint2 st i = Ok st' -> clamped4 (data (fst st')).
Proof.
  destruct st as [t g]. unfold dream_iteration.
  destruct (randint2 (- jitter) (jitter + 1) g) as [[hs ws] g1].
  intros Hrun. apply bind_Ok_inv in Hrun. destruct Hrun as [[u t1] [Hga Hrun]].
  injection Hrun as <-. cbn [fst random_circular_spatial_shift data].
  apply torch_roll_clamped.
  destruct (gradient_ascent_inv Hga) as [img1 [s [nd [_ [_ [_ [Hc _]]]]]]].
  exact (clamp_to_bounds_clamped Hc).
Qed.

Lemma dream_octave_clamped (input : image) (g g' : rng) (t : tensor) :
  dream_octave net randint2 input g = Ok (t, g') -> clamped4 (data t).
Proof.
  unfold dream_octave. intros Hrun.
  apply (foldM_nonempty (dream_iteration net randint2)
           (fun st => clamped4 (data (fst st))) _ _ (t, g')) in Hrun.
  - exact Hrun.
  - discriminate.
  - intros s0 i s1. apply dream_iteration_clamped.
Qed.

Lemma octave_machine_clamped (octaves : list image) (first : bool) (detail best r : image)
  (g g' : rng) :
  octaves <> [] ->
  octave_machine net cv_resize_to randint2 first octaves detail best g = Ok (r, g') ->
  forall h w c x, image_at r h w c = Some x -> clamped_value c x.
Proof.
  revert first detail best g.
  induction octaves as [|base finer IH]; intros first detail best g Hne Hrun;
    [congruence|].
  cbn [octave_machine] in Hrun. destruct (shape2 base) as [h0 w0].
  apply bind_Ok_inv in Hrun. destruct Hrun as [input [Hin Hrun]].
  apply bind_Ok_inv in Hrun. destruct Hrun as [[t g1] [Hoct Hrun]].
  apply bind_Ok_inv in Hrun. destruct Hrun as [result [Hout Hrun]].
  apply bind_Ok_inv in Hrun. destruct Hrun as [detail' [Hsub Hrun]].
  destruct finer as [|next finer'].
  - cbn [octave_machine] in Hrun. injection Hrun as <- <-.
    apply (output_adapter_clamped t); [|exact Hout].
    exact (dream_octave_clamped _ _ _ _ Hoct).
  - eapply IH; [discriminate | exact Hrun].
Qed.

(** X19. What [deep_dream] returns is in the coordinates of the network,
    not in [0, 1]: every value of the returned image is NaN or lies within
    the bounds of the clamp of its channel,
    [lower_bound[c] <= x <= upper_bound[c]]. *)
Theorem dream_result_is_clamped (img r : image) (g g' : rng) :
  deep_dream net cv_resize cv_resize_to randint2 img g = Ok (r, g') ->
  forall h w c x,
    image_at r h w c = Some x ->
    is_nan x \/
    exists lo hi,
      nth_error lower_bound c = Some (Fin lo) /\
      nth_error upper_bound c = Some (Fin hi) /\
      in_range lo hi x.
Proof.
  intros Hrun.
  rewrite (deep_dream_is_octave_driver net cv_resize cv_resize_to rng randint2 img g) in Hrun.
  unfold octave_driver in Hrun.
  apply bind_Ok_inv in Hrun. destruct Hrun as [base [Hpre Hrun]].
  apply bind_Ok_inv in Hrun. destruct Hrun as [pyr [Hpyr Hrun]].
  destruct (create_image_pyramid_spec cv_resize base 4 (1 / 1.4) pyr Hpyr) as [Hlen _].
  eapply octave_machine_clamped; [|exact Hrun].
  intros E. apply (f_equal (@length _)) in E. rewrite length_rev in E.
  rewrite Hlen in E. discriminate.
Qed.

(** ** Images that are too small for the coarsest octave *)

Lemma dream_iteration_short (t : tensor) (g : rng) (i : Z) (H W : nat) :
  grad_shaped net -> shape4d (data t) 1 3 H W -> H <= 4 \/ W <= 4 ->
  dream_iteration net randint2 (t, g) i = Raise padding_too_large.
Proof.
  intros Hnet Hs Hsmall. unfold dream_iteration.
  destruct (randint2 (- jitter) (jitter + 1) g) as [[hs ws] g1].
  rewrite (gradient_ascent_short net _ dream_lr i 1 H W);
    [reflexivity | exact Hnet | reflexivity | reflexivity | lia | | exact Hsmall].
  cbn [random_circular_spatial_shift data]. now apply torch_roll_shape.
Qed.

(** X20. [deep_dream] refuses an image that is too small: when the
    coarsest of the four pyramid levels (the preprocessed image resized
    three times) has at most four rows or at most four columns, the first
    ascent step of the first octave raises the [RuntimeError] of the
    reflect padding. *)
Theorem small_image_is_refused (img b l1 l2 coarsest : image) (g : rng) (H W : nat) :
  grad_shaped net ->
  preprocess img = Ok b ->
  cv_resize b pyramid_ratio pyramid_ratio = Ok l1 ->
  cv_resize l1 pyramid_ratio pyramid_ratio = Ok l2 ->
  cv_resize l2 pyramid_ratio pyramid_ratio = Ok coarsest ->
  shape3d coarsest H W 3 ->
  1 <= H -> 1 <= W -> H <= 4 \/ W <= 4 ->
  deep_dream net cv_resize cv_resize_to randint2 img g
  = Raise (RuntimeError "Padding size should be less than the corresponding input dimension").
Proof.
  intros Hnet Hpre E1 E2 E3 Hs HH HW Hsmall.
  unfold deep_dream. rewrite Hpre. cbn [bind].
  unfold pyramid_size.
  rewrite (create_image_pyramid_four cv_resize b pyramid_ratio l1 l2 coarsest E1 E2 E3).
  cbn [app last bind rev enumerate length seq combine].
  cbn [foldM]. unfold octave_step at 1.
  destruct (shape2 coarsest) as [h w]. cbn [Nat.ltb Nat.leb].
  assert (Hz : shape3d (zeros_like3 coarsest) H W 3) by now apply map3d_shape.
  destruct (image_zip_total sadd Hs Hz) as [input Hin].
  rewrite Hin. cbn [bind].
  pose proof (image_zip_shape sadd _ _ _ H W 3 Hs Hin) as Hinput.
  unfold dream_octave, n_iter.
  change (range 10) with [0; 1; 2; 3; 4; 5; 6; 7; 8; 9]%Z.
  cbn [foldM].
  rewrite (dream_iteration_short _ g 0 H W Hnet); [reflexivity| |exact Hsmall].
  unfold pytorch_input_adapter. cbn [data]. split; [reflexivity|].
  constructor; [|constructor]. now apply hwc_to_chw_shape.
Qed.

End DreamRange.

Lemma dream_result_is_clamped_example :
  exists r g',
    deep_dream sum_net halve_resize fill_resize counting_randint2 grey_image 0%nat
    = Ok (r, g') /\
    forall h w c x,
      image_at r h w c = Some x ->
      is_nan x \/
      exists lo hi,
        nth_error lower_bound c = Some (Fin lo) /\
        nth_error upper_bound c = Some (Fin hi) /\
        in_range lo hi x.
Proof.
  destruct grey_image_dream_returns as [r [g' Hrun]].
  exists r, g'. split; [exact Hrun|].
  exact (dream_result_is_clamped sum_net halve_resize fill_resize nat counting_randint2
           grey_image r 0%nat g' Hrun).
Defined.

Lemma small_image_is_refused_example :
  deep_dream sum_net halve_resize fill_resize counting_randint2 sample_image 0%nat
  = Raise (RuntimeError "Padding size should be less than the corresponding input dimension").
Proof.
  set (b := map (map normalize_rgb) sample_image).
  set (l1 := halve_image b pyramid_ratio pyramid_ratio).
  set (l2 := halve_image l1 pyramid_ratio pyramid_ratio).
  apply (small_image_is_refused sum_net halve_resize fill_resize nat counting_randint2
           sample_image b l1 l2 (halve_image l2 pyramid_ratio pyramid_ratio) 0%nat 1 1).
  - apply sum_net_shaped.
  - apply (preprocess_value (H := 4) (W := 4)).
    split; [reflexivity|]. repeat constructor.
  - reflexivity.
  - reflexivity.
  - reflexivity.
  - split; [reflexivity|]. repeat constructor.
  - lia.
  - lia.
  - left. lia.
Defined.

(** ** The normalization of the gradient does not see its scale *)

Lemma map4d_ext_in {A B : Type} (f g : A -> B) (t : list (list (list (list A)))) :
  (forall x, In x (flatten4 t) -> f x = g x) -> map4d f t = map4d g t.
Proof.
  intros Hfg. unfold map4d, map3d, map2d.
  apply map_ext_in. intros img Himg. apply map_ext_in. intros plane Hplane.
  apply map_ext_in. intros row Hrow. apply map_ext_in. intros x Hx.
  apply Hfg, In_flatten4. eauto 10.
Qed.

Lemma map4d_map4d {A B C : Type} (f : A -> B) (g : B -> C) (t : list (list (list (list A)))) :
  map4d g (map4d f t) = map4d (fun x => g (f x)) t.
Proof.
  unfold map4d, map3d, map2d. rewrite map_map.
  apply map_ext. intros img. rewrite map_map.
  apply map_ext. intros plane. rewrite map_map.
  apply map_ext. intros row. now rewrite map_map.
Qed.

Lemma rsum_abs_scale (k : R) (l : list R) :
  (0 < k)%R -> rsum (map Rabs (map (Rmult k) l)) = (k * rsum (map Rabs l))%R.
Proof.
  intros Hk. unfold rsum. induction l as [|r l IH]; cbn [map fold_right]; [lra|].
  rewrite IH, Rabs_mult, (Rabs_right k) by lra. lra.
Qed.

(** X21. The normalization of the gradient does not see its scale: for a
    tensor whose mean absolute value is a non-zero number [m], multiplying
    it by a positive factor [k] multiplies the mean by [k] and leaves the
    quotient of the tensor by its mean unchanged. *)
Theorem normalization_is_scale_invariant (s : tensor4) (k m : R) :
  (0 < k)%R -> mean_abs s = Fin m -> m <> 0%R ->
  mean_abs (tensor_scale k s) = Fin (k * m) /\
  tensor_div (tensor_scale k s) (mean_abs (tensor_scale k s))
  = tensor_div s (mean_abs s).
Proof.
  intros Hk Hm Hm0.
  destruct (mean_abs_Fin_inv s m Hm) as [rl [Hflat [Hne Em]]].
  assert (Hlen : INR (length rl) <> 0%R).
  { apply not_0_INR. destruct rl; [congruence | discriminate]. }
  assert (Hmean : mean_abs (tensor_scale k s) = Fin (k * m)).
  { unfold mean_abs, tensor_scale. rewrite flatten4_map4d, Hflat.
    rewrite !map_map.
    rewrite (map_ext (fun x => sabs (smul (Fin k) (Fin x)))
                     (fun x => Fin (Rabs (k * x)))) by reflexivity.
    rewrite <- (map_map (fun x => Rabs (k * x)) Fin), ssum_Fin.
    rewrite !length_map.
    rewrite sdiv_Fin by exact Hlen. f_equal.
    rewrite <- (map_map (Rmult k) Rabs), rsum_abs_scale by exact Hk.
    rewrite Em. field. exact Hlen. }
  split; [exact Hmean|].
  rewrite Hmean, Hm. unfold tensor_div, tensor_scale.
  rewrite map4d_map4d. apply map4d_ext_in. intros x Hx.
  rewrite Hflat in Hx. apply in_map_iff in Hx. destruct Hx as [r [<- _]].
  cbn [smul]. rewrite !sdiv_Fin; [f_equal; field; split; [exact Hm0 | lra] | exact Hm0 |].
  apply Rmult_integral_contrapositive_currified; [lra | exact Hm0].
Qed.

Lemma normalization_is_scale_invariant_example :
  mean_abs (tensor_scale 2 (const4d (Fin 1) 1 3 5 5)) = Fin (2 * Rabs 1) /\
  tensor_div (tensor_scale 2 (const4d (Fin 1) 1 3 5 5))
             (mean_abs (tensor_scale 2 (const4d (Fin 1) 1 3 5 5)))
  = tensor_div (const4d (Fin 1) 1 3 5 5) (mean_abs (const4d (Fin 1) 1 3 5 5)).
Proof.
  apply (normalization_is_scale_invariant (const4d (Fin 1) 1 3 5 5) 2 (Rabs 1)).
  - lra.
  - apply mean_abs_const. lia.
  - rewrite Rabs_R1. lra.
Defined.

(** ** When [deep_dream] returns *)

(** The pyramid of the driver on the image [b]: the three resizes return,
    and each of the four levels has three channels and more than four rows
    and more than four columns. *)
Definition levels_fit (cv_resize : image -> R -> R -> outcome image) (b : image) : Prop :=
  exists l1 l2 l3,
    cv_resize b pyramid_ratio pyramid_ratio = Ok l1 /\
    cv_resize l1 pyramid_ratio pyramid_ratio = Ok l2 /\
    cv_resize l2 pyramid_ratio pyramid_ratio = Ok l3 /\
    forall level, In level [b; l1; l2; l3] ->
      exists h w, 4 < h /\ 4 < w /\ shape3d level h w 3.

Section DreamReturns.

Variable net : network.
Variable cv_resize : image -> R -> R -> outcome image.
Variable cv_resize_to : image -> Z -> Z -> image.
Variable rng : Type.
Variable randint2 : Z -> Z -> rng -> (Z * Z) * rng.

Lemma deep_dream_total (img : image) (g : rng) (H W : nat) :
  grad_shaped net ->
  (forall (im : image) (H0 W0 h w : nat),
     1 <= H0 -> 1 <= W0 -> shape3d im H0 W0 3 ->
     shape3d (cv_resize_to im (Z.of_nat w) (Z.of_nat h)) h w 3) ->
  shape3d img H W 3 ->
  (forall b, preprocess img = Ok b -> levels_fit cv_resize b) ->
  exists r g',
    deep_dream net cv_resize cv_resize_to randint2 img g = Ok (r, g') /\
    shape3d r H W 3.
Proof.
  intros Hnet Hresize Himg Hfit.
  destruct (preprocess_total Himg) as [b Hb].
  destruct (Hfit b Hb) as [l1 [l2 [l3 [E1 [E2 [E3 Hlev]]]]]].
  assert (Hrun : exists r g',
             deep_dream net cv_resize cv_resize_to randint2 img g = Ok (r, g')).
  { rewrite deep_dream_is_octave_driver. unfold octave_driver.
    rewrite Hb. cbn [bind]. fold pyramid_ratio.
    rewrite (create_image_pyramid_four cv_resize b pyramid_ratio l1 l2 l3 E1 E2 E3).
    cbn [app bind rev hd].
    apply (octave_machine_total net cv_resize_to rng randint2 Hnet Hresize).
    - repeat constructor; apply Hlev; cbn; auto.
    - destruct (Hlev l3 (or_intror (or_intror (or_intror (or_introl eq_refl)))))
        as [h [w [_ [_ Hs]]]].
      exists h, w. split; [exact Hs|]. now apply map3d_shape. }
  destruct Hrun as [r [g' Hrun]]. exists r, g'. split; [exact Hrun|].
  assert (HH : 1 <= H /\ 1 <= W).
  { destruct (Hlev b (or_introl eq_refl)) as [h [w [Hh [Hw Hs]]]].
    pose proof (preprocess_shape Himg Hb) as Hs'.
    destruct Hs as [L F], Hs' as [L' F'].
    split; [lia|].
    destruct b as [|row b']; [simpl in L; lia|].
    destruct (Forall_inv F) as [Lr _]. destruct (Forall_inv F') as [Lr' _]. lia. }
  destruct HH as [HH HW].
  rewrite deep_dream_is_octave_driver in Hrun. unfold octave_driver in Hrun.
  apply bind_Ok_inv in Hrun. destruct Hrun as [base [Hpre Hrun]].
  apply bind_Ok_inv in Hrun. destruct Hrun as [pyr [Hpyr Hrun]].
  destruct (create_image_pyramid_spec cv_resize base 4 (1 / 1.4) pyr Hpyr)
    as [Hlen [H0 _]].
  destruct pyr as [|p0 pyr0]; [discriminate|]. cbn [nth] in H0. subst p0.
  eapply octave_machine_shape; [exact HH | exact HW | | | exact Hrun].
  - intros E. apply (f_equal (@length _)) in E. rewrite length_rev in E. discriminate.
  - rewrite last_rev_hd. cbn [hd]. exact (preprocess_shape Himg Hpre).
Qed.

(** X22. [deep_dream] returns, with an image of the height and width of
    its input and three channels, for a three-channel image whose pyramid
    is built (the three resizes return) and all of whose four pyramid
    levels have more than four rows and more than four columns; the
    network returns gradients of the shape of its input and the resize to a
    size returns that size. *)
Theorem dream_returns (img : image) (g : rng) (H W : nat) :
  grad_shaped net ->
  (forall (im : image) (H0 W0 h w : nat),
     1 <= H0 -> 1 <= W0 -> shape3d im H0 W0 3 ->
     shape3d (cv_resize_to im (Z.of_nat w) (Z.of_nat h)) h w 3) ->
  shape3d img H W 3 ->
  (forall b,
     preprocess img = Ok b ->
     exists l1 l2 l3,
       cv_resize b pyramid_ratio pyramid_ratio = Ok l1 /\
       cv_resize l1 pyramid_ratio pyramid_ratio = Ok l2 /\
       cv_resize l2 pyramid_ratio pyramid_ratio = Ok l3 /\
       forall level, In level [b; l1; l2; l3] ->
         exists h w, 4 < h /\ 4 < w /\ shape3d level h w 3) ->
  exists r g',
    deep_dream net cv_resize cv_resize_to randint2 img g = Ok (r, g') /\
    shape3d r H W 3.
Proof. apply deep_dream_total. Qed.

End DreamReturns.

(** The levels of the pyramid that the halving resize makes of a 40 x 40 image. *)
Lemma halved_levels_fit (b : image) :
  shape3d b 40 40 3 -> levels_fit halve_resize b.
Proof.
  intros Hb.
  destruct (halve_image_shape pyramid_ratio pyramid_ratio Hb) as [h1 [w1 [Hh1 [Hw1 S1]]]].
  destruct (halve_image_shape pyramid_ratio pyramid_ratio S1) as [h2 [w2 [Hh2 [Hw2 S2]]]].
  destruct (halve_image_shape pyramid_ratio pyramid_ratio S2) as [h3 [w3 [Hh3 [Hw3 S3]]]].
  do 3 eexists. repeat (split; [reflexivity|]).
  intros level Hin.
  destruct Hin as [<-|[<-|[<-|[<-|[]]]]].
  - exists 40, 40. repeat split; try lia; apply Hb.
  - exists h1, w1. repeat split; try lia; apply S1.
  - exists h2, w2. repeat split; try lia; apply S2.
  - exists h3, w3. repeat split; try lia; apply S3.
Qed.

Lemma dream_returns_example :
  exists r g',
    deep_dream sum_net halve_resize fill_resize counting_randint2 grey_image 0%nat
    = Ok (r, g') /\
    shape3d r 40 40 3.
Proof.
  apply (dream_returns sum_net halve_resize fill_resize nat counting_randint2
           grey_image 0%nat 40 40).
  - apply sum_net_shaped.
  - apply fill_resize_shape.
  - apply (shape3d_const (gray 0.5) 40 40).
  - intros b Hb. apply halved_levels_fit.
    exact (preprocess_shape (shape3d_const (gray 0.5) 40 40) Hb).
Defined.

(** ** The video: [deep_dream_video] *)

(** [str(i)] for an integer. *)
Definition str (i : Z) : string := NilZero.string_of_int (Z.to_int i).

(** The names given to [cv.imwrite] by the calls of a run, in their order. *)
Definition imwrite_names (effects : list effect) : list string :=
  flat_map (fun e => match e with Imwrite name _ _ => [name] | _ => [] end) effects.

Definition is_display (e : effect) : bool :=
  match e with
  | Imshow _ | PltShow => true
  | _ => false
  end.

Section Video.

(** The collaborators of [load_image] and of [deep_dream], the conversion
    of the platform, the files and [cv.imwrite], [os.path.join], and
    [scipy.ndimage.affine_transform] with its matrix and its offset
    ([order=1]). *)
Variable os_path_exists : string -> bool.
Variable cv_imread : string -> option image_u8.
Variable cv_resize_cubic : image_u8 -> Z -> Z -> outcome image_u8.
Variable net : network.
Variable cv_resize : image -> R -> R -> outcome image.
Variable cv_resize_to : image -> Z -> Z -> image.
Variable rng : Type.
Variable randint2 : Z -> Z -> rng -> (Z * Z) * rng.
Variable cast_undefined : scalar -> byte.
Variable files : Type.
Variable cv_imwrite : string -> image_u8 -> files -> outcome (bool * files).
Variable os_path_join : string -> string -> string.
Variable nd_affine_transform : image -> list R -> list R -> image.

Definition video_frame_name (i : Z) : string :=
  os_path_join "video" (str i ++ ".jpg").

(** The body of the loop [for i in range(100)]: the files and the calls of
    the pass, and the next frame or the exception that ends the run. *)
Definition video_step (s : R) (frame : image) (g : rng) (i : Z) (fs : files)
  : (files * list effect) * outcome (image * rng) :=
  let printed := [Print ("Dream iteration " ++ str (i + 1))] in
  match deep_dream net cv_resize cv_resize_to randint2 frame g with
  | Raise e => ((fs, printed), Raise e)
  | Ok (frame, g) =>
      let '(h, w) := shape2 frame in
      match save_and_maybe_display_image cast_undefined cv_imwrite frame false true
                                         (video_frame_name i) fs with
      | Raise e => ((fs, printed), Raise e)
      | Ok (fs, calls) =>
          let frame :=
            nd_affine_transform frame [1 - s; 1 - s; 1]%R
                                [IZR h * s / 2; IZR w * s / 2; 0.0]%R in
          ((fs, printed ++ calls), Ok (frame, g))
      end
  end.

Fixpoint video_loop (s : R) (idx : list Z) (frame : image) (g : rng) (fs : files)
  : (files * list effect) * outcome (image * rng) :=
  match idx with
  | [] => ((fs, []), Ok (frame, g))
  | i :: rest =>
      match video_step s frame g i fs with
      | ((fs, effects), Raise e) => ((fs, effects), Raise e)
      | ((fs, effects), Ok (frame, g)) =>
          let '((fs, later), result) := video_loop s rest frame g fs in
          ((fs, effects ++ later), result)
      end
  end.

(** [deep_dream_video(img_path)]: the files after the run and its calls, and
    the state of the generator when it returns. *)
Definition deep_dream_video (img_path : string) (g : rng) (fs : files)
  : (files * list effect) * outcome rng :=
  match load_image os_path_exists cv_imread cv_resize_cubic img_path (ShapeInt 600) with
  | Raise e => ((fs, []), Raise e)
  | Ok frame =>
      let s := 0.05%R in
      let '(world, result) := video_loop s (range 100) frame g fs in
      (world, '(_, g) <- result ;; Ok g)
  end.

Lemma save_without_display (img : image) (name : string) (fs fs' : files)
  (calls : list effect) :
  save_and_maybe_display_image cast_undefined cv_imwrite img false true name fs
  = Ok (fs', calls) ->
  exists bgr written,
    cv_imwrite name bgr fs = Ok (written, fs') /\ calls = [Imwrite name bgr written].
Proof.
  unfold save_and_maybe_display_image. intros Hs.
  apply bind_Ok_inv in Hs. destruct Hs as [rgb [_ Hs]].
  apply bind_Ok_inv in Hs. destruct Hs as [[written fs1] [Hw Hs]].
  injection Hs as <- <-. eauto.
Qed.

(** The files change by calls of [cv.imwrite] that return, and by nothing else. *)
Definition kept_by_imwrite (P : files -> Prop) : Prop :=
  forall name img fs written fs',
    cv_imwrite name img fs = Ok (written, fs') -> P fs -> P fs'.

Lemma video_step_effects (s : R) (frame : image) (g : rng) (i : Z) (fs : files) :
  let run := video_step s frame g i fs in
  ((exists st, snd run = Ok st /\
               imwrite_names (snd (fst run)) = [video_frame_name i]) \/
   (exists e, snd run = Raise e /\ imwrite_names (snd (fst run)) = [])) /\
  forallb (fun e => negb (is_display e)) (snd (fst run)) = true /\
  (forall P, kept_by_imwrite P -> P fs -> P (fst (fst run))).
Proof.
  cbn zeta. unfold video_step.
  destruct (deep_dream net cv_resize cv_resize_to randint2 frame g) as [[frame' g']|e].
  - destruct (shape2 frame') as [h w].
    destruct (save_and_maybe_display_image cast_undefined cv_imwrite frame' false true
                (video_frame_name i) fs) as [[fs' calls]|e] eqn:Hs.
    + destruct (save_without_display _ _ _ _ _ Hs) as [bgr [written [Hw ->]]].
      cbn [fst snd]. split; [|split].
      * left. eexists. split; reflexivity.
      * reflexivity.
      * intros P HP Hfs. exact (HP _ _ _ _ _ Hw Hfs).
    + cbn [fst snd]. split; [|split]; [|reflexivity|auto].
      right. eexists. split; reflexivity.
  - cbn [fst snd]. split; [|split]; [|reflexivity|auto].
    right. eexists. split; reflexivity.
Qed.

Lemma imwrite_names_app (a b : list effect) :
  imwrite_names (a ++ b) = imwrite_names a ++ imwrite_names b.
Proof. unfold imwrite_names. apply flat_map_app. Qed.

Lemma video_loop_effects (s : R) (idx : list Z) (frame : image) (g : rng) (fs : files) :
  let run := video_loop s idx frame g fs in
  (exists k,
     k <= length idx /\
     imwrite_names (snd (fst run)) = map video_frame_name (firstn k idx) /\
     ((exists st, snd run = Ok st) -> k = length idx)) /\
  forallb (fun e => negb (is_display e)) (snd (fst run)) = true /\
  (forall P, kept_by_imwrite P -> P fs -> P (fst (fst run))).
Proof.
  cbn zeta. revert frame g fs. induction idx as [|i rest IH]; intros frame g fs.
  - cbn. split; [|split]; [|reflexivity|auto].
    exists 0. repeat split; auto.
  - cbn [video_loop].
    destruct (video_step_effects s frame g i fs) as [Hstep [Hnd Hkeep]].
    destruct (video_step s frame g i fs) as [[fs1 effects] result].
    cbn [fst snd] in *.
    destruct Hstep as [[[frame' g'] [Hok Hw]]|[e [Hraise Hw]]]; subst result.
    + specialize (IH frame' g' fs1).
      destruct (video_loop s rest frame' g' fs1) as [[fs2 later] result].
      cbn [fst snd] in *.
      destruct IH as [[k [Hk [Hnames Hall]]] [Hno Hkeep']].
      split; [|split].
      * exists (S k). split; [simpl; lia|]. split.
        -- rewrite imwrite_names_app, Hw, Hnames. reflexivity.
        -- intros Hret. simpl. f_equal. now apply Hall.
      * rewrite forallb_app, Hnd, Hno. reflexivity.
      * intros P HP Hfs. apply (Hkeep' P HP). now apply Hkeep.
    + cbn [fst snd]. split; [|split]; [|exact Hnd|exact Hkeep].
      exists 0. split; [simpl; lia|]. split; [exact Hw|].
      intros [st Hst]. discriminate.
Qed.

(** X23. The calls of the video.  Whatever the collaborators do, a run of
    [deep_dream_video] calls [cv.imwrite] with the names video/0.jpg,
    video/1.jpg, ... in this order, one call for a frame, stopping at the
    first exception; it never shows an image; when it returns it has made
    all hundred calls.  It does not look at what a call returned, and the
    files after the run are what the calls left: every property of the
    files that the returning calls keep holds after the run, so a run all
    of whose calls return [False] and write nothing returns with the files
    it started with.  For a path that does not exist it raises the
    exception of [load_image] with no call made. *)
Theorem video_calls_imwrite_in_order (img_path : string) (g : rng) (fs : files) :
  let run := deep_dream_video img_path g fs in
  (exists k,
     k <= 100 /\
     imwrite_names (snd (fst run)) = map video_frame_name (firstn k (range 100)) /\
     ((exists g', snd run = Ok g') -> k = 100)) /\
  forallb (fun e => negb (is_display e)) (snd (fst run)) = true /\
  (forall P : files -> Prop,
     (forall name img fs0 written fs1,
        cv_imwrite name img fs0 = Ok (written, fs1) -> P fs0 -> P fs1) ->
     P fs -> P (fst (fst run))) /\
  ((forall name img fs0, cv_imwrite name img fs0 = Ok (false, fs0)) ->
   fst (fst run) = fs) /\
  (os_path_exists img_path = false ->
   run = ((fs, []), Raise (Exception ("Path does not exist: " ++ img_path)))).
Proof.
  cbn zeta. unfold deep_dream_video.
  destruct (load_image os_path_exists cv_imread cv_resize_cubic img_path (ShapeInt 600))
    as [frame|e] eqn:Hload.
  - destruct (video_loop_effects 0.05 (range 100) frame g fs)
      as [[k [Hk [Hnames Hall]]] [Hno Hkeep]].
    rewrite length_range in Hk, Hall. change (Z.to_nat 100) with 100 in Hk, Hall.
    destruct (video_loop 0.05 (range 100) frame g fs) as [[fs' effects] result].
    cbn [fst snd] in *. split; [|split; [|split; [|split]]].
    + exists k. split; [exact Hk|]. split; [exact Hnames|].
      intros [g' Hg']. apply Hall.
      destruct result as [st|e]; [eauto | discriminate].
    + exact Hno.
    + exact Hkeep.
    + intros Hfail. apply (Hkeep (fun fs0 => fs0 = fs)); [|reflexivity].
      intros name img fs0 written fs1 Hw ->. rewrite Hfail in Hw. now injection Hw.
    + intros Hno'. unfold load_image in Hload. rewrite Hno' in Hload. discriminate.
  - cbn [fst snd]. split; [|split; [|split; [|split]]].
    + exists 0. split; [lia|]. split; [reflexivity|].
      intros [g' Hg']. discriminate.
    + reflexivity.
    + auto.
    + reflexivity.
    + intros Hno'. unfold load_image in Hload. rewrite Hno' in Hload. cbn in Hload.
      now injection Hload as <-.
Qed.

(** The run returns when the collaborators keep the shapes, every level of
    every pyramid is larger than the padding of the filter, and the calls of
    [cv.imwrite] return. *)
Lemma video_loop_total (s : R) (H W : nat) (idx : list Z) (frame : image) (g : rng)
  (fs : files) :
  grad_shaped net ->
  (forall (im : image) (H0 W0 h w : nat),
     1 <= H0 -> 1 <= W0 -> shape3d im H0 W0 3 ->
     shape3d (cv_resize_to im (Z.of_nat w) (Z.of_nat h)) h w 3) ->
  (forall b, shape3d b H W 3 -> levels_fit cv_resize b) ->
  (forall im m o, shape3d im H W 3 -> shape3d (nd_affine_transform im m o) H W 3) ->
  (forall name img fs0, exists written fs1, cv_imwrite name img fs0 = Ok (written, fs1)) ->
  1 <= H -> 1 <= W -> shape3d frame H W 3 ->
  exists world st, video_loop s idx frame g fs = (world, Ok st).
Proof.
  intros Hnet Hresize Hfit Haffine Hwrite HH HW. revert frame g fs.
  induction idx as [|i rest IH]; intros frame g fs Hframe; cbn [video_loop]; [eauto|].
  unfold video_step.
  destruct (deep_dream_total net cv_resize cv_resize_to rng randint2 frame g H W
              Hnet Hresize Hframe) as [r [g' [Hrun Hr]]].
  { intros b Hb. apply Hfit. exact (preprocess_shape Hframe Hb). }
  rewrite Hrun. destruct (shape2 r) as [h w].
  destruct (post_process_channel_last cast_undefined r H W HH HW Hr) as [rgb [Hrgb _]].
  unfold save_and_maybe_display_image. rewrite Hrgb. cbn [bind].
  destruct (Hwrite (video_frame_name i) (reverse_channels rgb) fs) as [written [fs1 Hw]].
  rewrite Hw. cbn [bind].
  destruct (IH (nd_affine_transform r [1 - s; 1 - s; 1]%R
                  [IZR h * s / 2; IZR w * s / 2; 0.0]%R) g' fs1)
    as [[fs2 later] [st Hlater]]; [now apply Haffine|].
  rewrite Hlater. eauto.
Qed.

(** X24. The video run returns, having called [cv.imwrite] once for each of
    its hundred frames, when the image loads with three channels, the
    pyramid of every frame of that shape is built with more than four rows
    and columns in every level, the collaborators keep the shapes (the
    network for its gradients, the resize to a size, the affine transform)
    and the calls of [cv.imwrite] return, with [True] or with [False]: when
    they all return [False] and write nothing, the run returns all the same,
    with the files it started with. *)
Theorem video_returns (img_path : string) (g : rng) (fs : files) (frame : image)
  (H W : nat) :
  load_image os_path_exists cv_imread cv_resize_cubic img_path (ShapeInt 600) = Ok frame ->
  shape3d frame H W 3 ->
  grad_shaped net ->
  (forall (im : image) (H0 W0 h w : nat),
     1 <= H0 -> 1 <= W0 -> shape3d im H0 W0 3 ->
     shape3d (cv_resize_to im (Z.of_nat w) (Z.of_nat h)) h w 3) ->
  (forall b,
     shape3d b H W 3 ->
     exists l1 l2 l3,
       cv_resize b pyramid_ratio pyramid_ratio = Ok l1 /\
       cv_resize l1 pyramid_ratio pyramid_ratio = Ok l2 /\
       cv_resize l2 pyramid_ratio pyramid_ratio = Ok l3 /\
       forall level, In level [b; l1; l2; l3] ->
         exists h w, 4 < h /\ 4 < w /\ shape3d level h w 3) ->
  (forall im m o, shape3d im H W 3 -> shape3d (nd_affine_transform im m o) H W 3) ->
  (forall name img fs0, exists written fs1, cv_imwrite name img fs0 = Ok (written, fs1)) ->
  exists fs' effects g',
    deep_dream_video img_path g fs = ((fs', effects), Ok g') /\
    imwrite_names effects = map video_frame_name (range 100) /\
    ((forall name img fs0, cv_imwrite name img fs0 = Ok (false, fs0)) -> fs' = fs).
Proof.
  intros Hload Hframe Hnet Hresize Hfit Haffine Hwrite.
  assert (HHW : 1 <= H /\ 1 <= W).
  { destruct (Hfit frame Hframe) as [l1 [l2 [l3 [_ [_ [_ Hlev]]]]]].
    destruct (Hlev frame (or_introl eq_refl)) as [h [w [Hh [Hw Hs]]]].
    destruct Hs as [L F], Hframe as [L' F'].
    split; [lia|].
    destruct frame as [|row fr]; [simpl in L; lia|].
    destruct (Forall_inv F) as [Lr _]. destruct (Forall_inv F') as [Lr' _]. lia. }
  destruct HHW as [HH HW].
  unfold deep_dream_video. rewrite Hload.
  destruct (video_loop_total 0.05 H W (range 100) frame g fs
              Hnet Hresize Hfit Haffine Hwrite HH HW Hframe) as [[fs' effects] [[fr g'] Hrun]].
  destruct (video_loop_effects 0.05 (range 100) frame g fs)
    as [[k [Hk [Hnames Hall]]] [_ Hkeep]].
  rewrite Hrun in *. cbn [fst snd] in *.
  exists fs', effects, g'. split; [reflexivity|]. split.
  - rewrite Hnames, (Hall ltac:(eauto)). now rewrite firstn_all.
  - intros Hfail. apply (Hkeep (fun fs0 => fs0 = fs)); [|reflexivity].
    intros name img fs0 written fs1 Hw ->. rewrite Hfail in Hw. now injection Hw.
Qed.

End Video.

Arguments video_step net cv_resize cv_resize_to {rng} randint2 cast_undefined {files}
  cv_imwrite os_path_join nd_affine_transform s frame g i fs.
Arguments video_loop net cv_resize cv_resize_to {rng} randint2 cast_undefined {files}
  cv_imwrite os_path_join nd_affine_transform s idx frame g fs.
Arguments deep_dream_video os_path_exists cv_imread cv_resize_cubic net cv_resize cv_resize_to
  {rng} randint2 cast_undefined {files} cv_imwrite os_path_join nd_affine_transform
  img_path g fs.

(** Collaborators for a run of the video: a file that decodes to a grey
    40 x 40 image, a cubic resize and a transform that return their input,
    and the join of POSIX. *)
Definition grey_file (path : string) : option image_u8 :=
  Some (const2d [x80; x80; x80] 40 40).
Definition keep_size (im : image_u8) (w h : Z) : outcome image_u8 := Ok im.
Definition keep_frame (im : image) (matrix offset : list R) : image := im.
Definition slash_join (a b : string) : string := (a ++ "/" ++ b)%string.

Lemma grey_file_loaded :
  shape3d (astype_float_div255 (reverse_channels (const2d [x80; x80; x80] 40 40))) 40 40 3.
Proof.
  apply shape3d_map3d. unfold reverse_channels, const2d.
  split; [now rewrite length_map, repeat_length|].
  apply Forall_map, Forall_forall. intros row ->%repeat_spec.
  split; [now rewrite length_map, repeat_length|].
  apply Forall_map, Forall_forall. now intros px ->%repeat_spec.
Qed.

Lemma video_returns_example :
  exists fs' effects g',
    deep_dream_video (fun _ => true) grey_file keep_size sum_net halve_resize fill_resize
                     counting_randint2 (fun _ => x00) imwrite_without_directory
                     slash_join keep_frame "figures.jpg"%string 0%nat []
    = ((fs', effects), Ok g') /\
    imwrite_names effects = map (video_frame_name slash_join) (range 100) /\
    ((forall name img fs0, imwrite_without_directory name img fs0 = Ok (false, fs0)) ->
     fs' = []).
Proof.
  apply (video_returns (fun _ => true) grey_file keep_size sum_net halve_resize fill_resize
           nat counting_randint2 (fun _ => x00) (list string) imwrite_without_directory
           slash_join keep_frame "figures.jpg"%string 0%nat []
           (astype_float_div255 (reverse_channels (const2d [x80; x80; x80] 40 40))) 40 40).
  - vm_compute. reflexivity.
  - exact grey_file_loaded.
  - apply sum_net_shaped.
  - apply fill_resize_shape.
  - apply halved_levels_fit.
  - intros im m o Him. exact Him.
  - intros name img fs0. exists false, fs0. reflexivity.
Defined.

(** ** The 0..255 range of [prepare_img] *)

(** The bytes of one pixel minus the means of their channels. *)
Definition centered_bytes (px : list byte) : list scalar :=
  zip_with (fun b m => Fin (IZR (Z.of_N (Byte.to_N b)) - m)) px IMAGENET_MEAN_255.

Lemma center_byte (b : byte) (m : R) :
  sdiv (ssub (smul (byte_to_unit b) (Fin 255)) (Fin m)) (Fin 1)
  = Fin (IZR (Z.of_N (Byte.to_N b)) - m).
Proof.
  unfold byte_to_unit. rewrite sdiv_Fin by lra.
  unfold ssub, sneg, sadd, smul. rewrite sdiv_Fin by lra.
  f_equal. field.
Qed.

(** X25. With [should_normalize] and [is_255_range] the tensor of
    [prepare_img] holds, channels first and once per batch entry, the bytes
    of the loaded image minus [IMAGENET_MEAN_255] of their channel (the
    division by 255 of [load_image] is undone; arithmetic is exact here). *)
Theorem prepare_img_255_range
  (os_path_exists : string -> bool) (cv_imread : string -> option image_u8)
  (cv_resize_cubic : image_u8 -> Z -> Z -> outcome image_u8)
  (img_path : string) (ts : target_shape) (device : string) (batch_size : Z)
  (rgb : image_u8) (H W : nat) :
  load_image os_path_exists cv_imread cv_resize_cubic img_path ts
  = Ok (astype_float_div255 rgb) ->
  1 <= H -> 1 <= W -> shape3d rgb H W 3 -> (0 <= batch_size)%Z ->
  exists t,
    prepare_img os_path_exists cv_imread cv_resize_cubic
                img_path ts device batch_size true true = Ok t /\
    data t = repeat (hwc_to_chw (map (map centered_bytes) rgb)) (Z.to_nat batch_size) /\
    shape4d (data t) (Z.to_nat batch_size) 3 H W.
Proof.
  intros Hload HH HW Hs Hb.
  assert (Himg : shape3d (astype_float_div255 rgb) H W 3) by now apply shape3d_map3d.
  assert (Hc : shape3d (map (map centered_bytes) rgb) H W 3).
  { destruct Hs as [Hl Hrows]. split; [now rewrite length_map|].
    apply Forall_map. eapply Forall_impl; [|exact Hrows].
    intros row [Hr Hpx]. split; [now rewrite length_map|].
    apply Forall_map. eapply Forall_impl; [|exact Hpx].
    intros px Hp. destruct px as [|b0 [|b1 [|b2 [|]]]]; try discriminate. reflexivity. }
  unfold prepare_img. rewrite Hload. cbn [bind app foldM].
  rewrite (hwc_to_chw_three HH HW Himg).
  unfold normalize_transform. rewrite has_zero_neutral.
  cbn [map3d map length IMAGENET_MEAN_255 Nat.eqb combine IMAGENET_STD_NEUTRAL zip_with
       fst snd bind].
  destruct (Z.ltb_spec batch_size 0) as [Hneg|_]; [lia|].
  eexists. split; [reflexivity|]. cbn [data].
  assert (E : forall c m, c < 3 -> nth c IMAGENET_MEAN_255 0%R = m ->
            map2d (fun x => sdiv (ssub x (Fin m)) (Fin 1))
              (map2d (fun v => smul v (Fin 255)) (channel_plane c (astype_float_div255 rgb)))
            = channel_plane c (map (map centered_bytes) rgb)).
  { intros c m Hc3 Hm. unfold channel_plane, astype_float_div255, map3d, map2d.
    rewrite !map_map. apply map_ext_in. intros row Hrow.
    rewrite !map_map. apply map_ext_in. intros px Hpx.
    destruct Hs as [_ Hrows]. rewrite Forall_forall in Hrows.
    destruct (Hrows _ Hrow) as [_ Hl]. rewrite Forall_forall in Hl. specialize (Hl _ Hpx).
    destruct px as [|b0 [|b1 [|b2 [|]]]]; try discriminate.
    subst m. destruct c as [|[|[|c]]]; try lia; apply center_byte. }
  rewrite (hwc_to_chw_three HH HW Hc).
  rewrite <- (E 0 123.675%R), <- (E 1 116.28%R), <- (E 2 103.53%R) by (lia || reflexivity).
  split; [reflexivity|].
  apply shape3d_repeat4.
  rewrite (E 0 123.675%R), (E 1 116.28%R), (E 2 103.53%R) by (lia || reflexivity).
  rewrite <- (hwc_to_chw_three HH HW Hc). now apply hwc_to_chw_shape.
Qed.

Lemma prepare_img_255_range_example :
  exists t,
    prepare_img (fun _ => true) (fun p => Some (one_pixel_file p)) (fun im _ _ => Ok im)
                "a.png"%string ShapeNone "cpu"%string 1 true true = Ok t /\
    data t = repeat (hwc_to_chw (map (map centered_bytes)
                                     (reverse_channels (one_pixel_file "a.png"%string))))
                    (Z.to_nat 1) /\
    shape4d (data t) (Z.to_nat 1) 3 1 1.
Proof.
  apply (prepare_img_255_range (fun _ => true) (fun p => Some (one_pixel_file p)) (fun im _ _ => Ok im)
           "a.png"%string ShapeNone "cpu"%string 1 (reverse_channels (one_pixel_file "a.png"%string)) 1 1).
  - reflexivity.
  - lia.
  - lia.
  - split; [reflexivity|]. repeat constructor.
  - lia.
Defined.

(** ** The draws of the random offsets *)

Section Draws.

Variable net : network.
Variable cv_resize : image -> R -> R -> outcome image.
Variable cv_resize_to : image -> Z -> Z -> image.
Variable rng : Type.
Variable randint2 : Z -> Z -> rng -> (Z * Z) * rng.

(** The generator after one call of [np.random.randint(-jitter, jitter + 1, 2)]. *)
Definition draw_offsets (g : rng) : rng := snd (randint2 (- jitter) (jitter + 1) g).

Lemma dream_iteration_draws (t t' : tensor) (g g' : rng) (i : Z) :
  dream_iteration net randint2 (t, g) i = Ok (t', g') -> g' = draw_offsets g.
Proof.
  unfold dream_iteration, draw_offsets.
  destruct (randint2 (- jitter) (jitter + 1) g) as [[hs ws] g1].
  intros Hrun. apply bind_Ok_inv in Hrun. destruct Hrun as [[u t1] [_ Hrun]].
  now injection Hrun as _ <-.
Qed.

Lemma dream_iterations_draw (idx : list Z) (t t' : tensor) (g g' : rng) :
  foldM (dream_iteration net randint2) idx (t, g) = Ok (t', g') ->
  g' = Nat.iter (length idx) draw_offsets g.
Proof.
  revert t g. induction idx as [|i idx IH]; intros t g Hrun.
  - cbn in Hrun. now injection Hrun as _ <-.
  - cbn [foldM] in Hrun. apply bind_Ok_inv in Hrun.
    destruct Hrun as [[t1 g1] [Hstep Hrun]].
    apply dream_iteration_draws in Hstep. subst g1.
    rewrite (IH _ _ Hrun). cbn [length]. now rewrite Nat.iter_succ_r.
Qed.

Lemma octave_machine_draws (octaves : list image) (first : bool) (detail best r : image)
  (g g' : rng) :
  octave_machine net cv_resize_to randint2 first octaves detail best g = Ok (r, g') ->
  g' = Nat.iter (10 * length octaves) draw_offsets g.
Proof.
  revert first detail best g.
  induction octaves as [|base finer IH]; intros first detail best g Hrun.
  - cbn in Hrun. now injection Hrun as _ <-.
  - cbn [octave_machine] in Hrun. destruct (shape2 base) as [h w].
    apply bind_Ok_inv in Hrun. destruct Hrun as [input [_ Hrun]].
    apply bind_Ok_inv in Hrun. destruct Hrun as [[t g1] [Hoct Hrun]].
    apply bind_Ok_inv in Hrun. destruct Hrun as [result [_ Hrun]].
    apply bind_Ok_inv in Hrun. destruct Hrun as [detail' [_ Hrun]].
    unfold dream_octave in Hoct. apply dream_iterations_draw in Hoct.
    rewrite length_range in Hoct. change (Z.to_nat n_iter) with 10 in Hoct.
    rewrite (IH _ _ _ _ Hrun), Hoct. cbn [length].
    rewrite <- Nat.iter_add. f_equal. lia.
Qed.

(** X26. A run of [deep_dream] that returns has drawn forty pairs of
    offsets, one per iteration of each of the four octaves, each with the
    bounds -100 (inclusive) and 101 (exclusive). *)
Theorem dream_draws_forty_offsets (img r : image) (g g' : rng) :
  deep_dream net cv_resize cv_resize_to randint2 img g = Ok (r, g') ->
  g' = Nat.iter 40 (fun g0 => snd (randint2 (-100) 101 g0)) g.
Proof.
  intros Hrun.
  rewrite (deep_dream_is_octave_driver net cv_resize cv_resize_to rng randint2 img g) in Hrun.
  unfold octave_driver in Hrun.
  apply bind_Ok_inv in Hrun. destruct Hrun as [base [_ Hrun]].
  apply bind_Ok_inv in Hrun. destruct Hrun as [pyr [Hpyr Hrun]].
  destruct (create_image_pyramid_spec cv_resize base 4 (1 / 1.4) pyr Hpyr) as [Hlen _].
  apply octave_machine_draws in Hrun.
  rewrite length_rev, Hlen in Hrun. exact Hrun.
Qed.

End Draws.

Lemma dream_draws_forty_offsets_example :
  exists r g',
    deep_dream sum_net halve_resize fill_resize counting_randint2 grey_image 0%nat
    = Ok (r, g') /\
    g' = Nat.iter 40 (fun g0 => snd (counting_randint2 (-100) 101 g0)) 0%nat.
Proof.
  destruct grey_image_dream_returns as [r [g' Hrun]].
  exists r, g'. split; [exact Hrun|].
  exact (dream_draws_forty_offsets sum_net halve_resize fill_resize nat counting_randint2
           grey_image r 0%nat g' Hrun).
Defined.

(** ** The size of the update *)

Lemma rsum_abs_scale_any (k : R) (l : list R) :
  rsum (map Rabs (map (Rmult k) l)) = (Rabs k * rsum (map Rabs l))%R.
Proof.
  unfold rsum. induction l as [|r l IH]; cbn [map fold_right]; [lra|].
  rewrite IH, Rabs_mult. lra.
Qed.

Lemma mean_abs_scale (s : tensor4) (k m : R) :
  mean_abs s = Fin m -> mean_abs (tensor_scale k s) = Fin (Rabs k * m).
Proof.
  intros Hm.
  destruct (mean_abs_Fin_inv s m Hm) as [rl [Hflat [Hne Em]]].
  assert (Hlen : INR (length rl) <> 0%R).
  { apply not_0_INR. destruct rl; [congruence | discriminate]. }
  unfold mean_abs, tensor_scale. rewrite flatten4_map4d, Hflat.
  rewrite !map_map.
  rewrite (map_ext (fun x => sabs (smul (Fin k) (Fin x)))
                   (fun x => Fin (Rabs (k * x)))) by reflexivity.
  rewrite <- (map_map (fun x => Rabs (k * x)) Fin), ssum_Fin.
  rewrite !length_map.
  rewrite sdiv_Fin by exact Hlen. f_equal.
  rewrite <- (map_map (Rmult k) Rabs), rsum_abs_scale_any.
  rewrite Em. field. exact Hlen.
Qed.

Lemma tensor_div_as_scale (s : tensor4) (m : R) :
  mean_abs s = Fin m -> m <> 0%R -> tensor_div s (Fin m) = tensor_scale (1 / m) s.
Proof.
  intros Hm Hm0.
  destruct (mean_abs_Fin_inv s m Hm) as [rl [Hflat _]].
  unfold tensor_div, tensor_scale. apply map4d_ext_in. intros x Hx.
  rewrite Hflat in Hx. apply in_map_iff in Hx. destruct Hx as [r [<- _]].
  rewrite sdiv_Fin by exact Hm0. cbn [smul]. f_equal. field. exact Hm0.
Qed.

Lemma mean_abs_nonneg (s : tensor4) (m : R) : mean_abs s = Fin m -> (0 <= m)%R.
Proof.
  intros Hm.
  destruct (mean_abs_Fin_inv s m Hm) as [rl [_ [Hne ->]]].
  apply Rmult_le_pos; [apply rsum_abs_nonneg|].
  left. apply Rinv_0_lt_compat, lt_0_INR. destruct rl; [congruence | simpl; lia].
Qed.

(** X27. The learning rate is the mean size of the update: when the mean
    absolute value of the smoothed gradient is a non-zero number, the
    tensor [lr * (smooth_grad / g_mean)] that the step adds to the image
    has the mean absolute value [|lr|]. *)
Theorem update_has_mean_lr (s : tensor4) (lr m : R) :
  mean_abs s = Fin m -> m <> 0%R ->
  mean_abs (tensor_scale lr (tensor_div s (mean_abs s))) = Fin (Rabs lr).
Proof.
  intros Hm Hm0. pose proof (mean_abs_nonneg s m Hm) as Hpos.
  rewrite Hm, (tensor_div_as_scale s m Hm Hm0).
  rewrite (mean_abs_scale _ lr (Rabs (1 / m) * m)).
  - f_equal. rewrite (Rabs_right (1 / m)).
    + field. exact Hm0.
    + apply Rle_ge. unfold Rdiv. rewrite Rmult_1_l.
      left. apply Rinv_0_lt_compat. lra.
  - now apply mean_abs_scale.
Qed.

Lemma update_has_mean_lr_example :
  mean_abs (tensor_scale 0.09 (tensor_div (const4d (Fin 2) 1 3 5 5)
                                          (mean_abs (const4d (Fin 2) 1 3 5 5))))
  = Fin (Rabs 0.09).
Proof.
  apply (update_has_mean_lr (const4d (Fin 2) 1 3 5 5) 0.09 (Rabs 2)).
  - apply mean_abs_const. lia.
  - rewrite Rabs_right; lra.
Defined.

(** ** A gradient that is zero everywhere *)

Lemma zip_strict_repeat_r {A B C : Type} (e : exn) (f : A -> B -> outcome C)
  (l : list A) (b : B) (c : C) (n : nat) :
  length l = n -> (forall x, In x l -> f x b = Ok c) ->
  zip_strict e f l (repeat b n) = Ok (repeat c n).
Proof.
  revert n. induction l as [|x l IH]; intros n Hn Hf; subst n; [reflexivity|].
  cbn [length repeat zip_strict]. rewrite (Hf x) by now left. cbn [bind].
  rewrite (IH (length l)) by (auto; intros y Hy; apply Hf; now right). reflexivity.
Qed.

Lemma sadd_nan_r (x : scalar) : sadd x NaN = NaN.
Proof. now destruct x. Qed.

Lemma zip4_strict_nan_r (d : tensor4) (N C H W : nat) :
  shape4d d N C H W ->
  zip4_strict sadd d (const4d NaN N C H W) = Ok (const4d NaN N C H W).
Proof.
  intros [Hl Hs]. unfold zip4_strict, const4d, const2d.
  apply zip_strict_repeat_r; [exact Hl|]. intros img Himg.
  rewrite Forall_forall in Hs. destruct (Hs _ Himg) as [Hc Hp].
  apply zip_strict_repeat_r; [exact Hc|]. intros plane Hplane.
  rewrite Forall_forall in Hp. destruct (Hp _ Hplane) as [Hh Hr].
  apply zip_strict_repeat_r; [exact Hh|]. intros row Hrow.
  rewrite Forall_forall in Hr.
  apply zip_strict_repeat_r; [now apply Hr|]. intros x _.
  now rewrite sadd_nan_r.
Qed.

Lemma clamp_to_bounds_nan (N H W : nat) :
  clamp_to_bounds (const4d NaN N 3 H W) = Ok (const4d NaN N 3 H W).
Proof.
  unfold const4d at 1. rewrite clamp_to_bounds_repeat by apply repeat_length.
  f_equal. unfold const4d. f_equal.
  unfold clamp_planes. rewrite lower_bound_values, upper_bound_values.
  cbn [repeat zip_with]. unfold map2d, const2d.
  rewrite !map_repeat. reflexivity.
Qed.

(** X28. A gradient that is zero everywhere turns the whole tensor into
    NaN: for a three-channel tensor of more than four rows and columns with
    a fresh gradient, when backpropagation returns the zero tensor, the
    mean of the smoothed gradient is zero, the normalization divides zero
    by zero, and [gradient_ascent] leaves NaN in every element, whatever
    the tensor held and whatever the learning rate. *)
Theorem zero_gradient_gives_nan
  (net : network) (t : tensor) (lr : R) (cnt : Z) (N H W : nat) :
  requires_grad t = true -> grad t = None ->
  1 <= N -> 4 < H -> 4 < W -> (0 <= cnt)%Z ->
  shape4d (data t) N 3 H W ->
  backprop net (data t) (inception4c net (data t)) = const4d (Fin 0) N 3 H W ->
  exists t',
    gradient_ascent net t lr cnt = Ok (tt, t') /\
    data t' = const4d NaN N 3 H W.
Proof.
  intros Hrg Hgrad HN HH HW Hcnt Hs Hzero.
  unfold gradient_ascent, loss_backward, ascent_loss_gradient.
  rewrite Hrg, Hgrad. cbn [requires_grad data grad bind].
  rewrite Hzero, smooth_const by assumption. cbn [bind].
  replace (1 * 0 + 1 * 0 + 1 * 0)%R with 0%R by lra.
  rewrite mean_abs_const by nia.
  rewrite Rabs_R0. unfold tensor_scale, tensor_div. rewrite !map4d_const.
  rewrite sdiv_zero_zero. cbn [smul].
  rewrite (zip4_strict_nan_r _ N 3 H W Hs).
  cbn [bind data grad requires_grad option_map].
  rewrite clamp_to_bounds_nan. cbn [bind].
  eexists. split; reflexivity.
Qed.

Lemma zero_gradient_gives_nan_example :
  exists t',
    gradient_ascent flat_net dark_image 0.09 0 = Ok (tt, t') /\
    data t' = const4d NaN 1 3 5 5.
Proof.
  apply (zero_gradient_gives_nan flat_net dark_image 0.09 0 1 5 5); try lia.
  - reflexivity.
  - reflexivity.
  - apply (shape4d_const (Fin 0) 1 3 5 5).
  - apply flat_net_gradient.
Defined.

(** ** The filter of the ascent step *)

(** X29. The filter of the ascent step is always built: the standard
    deviation [((cnt + 1) / 10) * 2.0 + .5] is not zero for any integer
    [cnt], so the division by zero of the constructor does not occur in
    [gradient_ascent]; the filter pads by 4 and has three groups. *)
Theorem ascent_filter_is_always_built (cnt : Z) :
  ascent_sigma cnt <> 0%R /\
  exists gs,
    GaussianSmoothing_init 3 KERNEL_SIZE (ascent_sigma cnt) = Ok gs /\
    pad gs = 4 /\ groups gs = 3.
Proof.
  split; [apply ascent_sigma_nonzero|].
  rewrite GaussianSmoothing_init_value by apply ascent_sigma_nonzero.
  eexists. split; [reflexivity|]. split; reflexivity.
Qed.
